(** * paymore-lite: phone-microphone pairing, relay URL and transcript injection

    A shallow embedding of the voice-session utilities of the extension
    ([buildRelayWsUrl]), of the [PhoneMicPopup] component
    ([createSession], [connectRelay], [endSession]), of the transcript
    injector ([insertAtCaret], [handleTranscriptMessage]) and, modelled from
    the design document, of the relay (token service, room multiplexer and
    outbound queues). *)

From Stdlib Require Import ZArith Lia Ascii String List Bool.
From stdpp Require Import base tactics option list strings gmap.

Local Open Scope Z_scope.

(** ** ECMAScript strings *)

Module JS.

(** A String value is a finite sequence of 16-bit code units; a code unit
    is kept as its two bytes, so that every inhabitant of the type is a
    code unit and no range side condition is needed. *)
Record code_unit := CodeUnit { cu_hi : ascii; cu_lo : ascii }.

#[global] Instance code_unit_eq_dec : EqDecision code_unit.
Proof. solve_decision. Defined.

Definition jsstring := list code_unit.

Definition byte_val (a : ascii) : Z := Z.of_N (N_of_ascii a).

Definition cu_val (c : code_unit) : Z :=
  256 * byte_val (cu_hi c) + byte_val (cu_lo c).

(** The code unit of a character of the Latin-1 range. *)
Definition chr (a : ascii) : code_unit := CodeUnit zero a.

Definition chr_of_Z (v : Z) : code_unit := chr (ascii_of_N (Z.to_N v)).

(** A string literal of the source, as a sequence of code units. *)
Fixpoint js (s : string) : jsstring :=
  match s with
  | EmptyString => []
  | String a rest => chr a :: js rest
  end.

Definition code_unit_eqb (c d : code_unit) : bool := cu_val c =? cu_val d.

(** *** [encodeURIComponent]

    The [Encode] operation of ECMA-262 with the unescaped set of
    [encodeURIComponent]: letters, decimal digits and [- _ . ! ~ * ' ( )]. *)

Definition is_uri_alpha (v : Z) : bool :=
  ((65 <=? v) && (v <=? 90)) || ((97 <=? v) && (v <=? 122)).

Definition is_decimal_digit (v : Z) : bool := (48 <=? v) && (v <=? 57).

Definition uri_mark : list Z := [45; 95; 46; 33; 126; 42; 39; 40; 41].

Definition is_unescaped (c : code_unit) : bool :=
  let v := cu_val c in
  is_uri_alpha v || is_decimal_digit v || existsb (Z.eqb v) uri_mark.

Definition is_leading_surrogate (v : Z) : bool := (0xD800 <=? v) && (v <=? 0xDBFF).

Definition is_trailing_surrogate (v : Z) : bool := (0xDC00 <=? v) && (v <=? 0xDFFF).

Definition UTF16SurrogatePairToCodePoint (lead trail : Z) : Z :=
  (lead - 0xD800) * 0x400 + (trail - 0xDC00) + 0x10000.

(** The octets of the UTF-8 encoding of a code point. *)
Definition utf8_octets (cp : Z) : list Z :=
  if cp <? 0x80 then [cp]
  else if cp <? 0x800 then [0xC0 + cp / 0x40; 0x80 + cp mod 0x40]
  else if cp <? 0x10000 then
    [0xE0 + cp / 0x1000; 0x80 + (cp / 0x40) mod 0x40; 0x80 + cp mod 0x40]
  else
    [0xF0 + cp / 0x40000; 0x80 + (cp / 0x1000) mod 0x40;
     0x80 + (cp / 0x40) mod 0x40; 0x80 + cp mod 0x40].

Definition octet (b : Z) : Prop := 0 <= b < 256.

(** One upper-case hexadecimal digit. *)
Definition hex_digit (d : Z) : code_unit :=
  chr_of_Z (if d <? 10 then 48 + d else 55 + d).

Definition percent : code_unit := chr "%".

Definition percent_octet (b : Z) : jsstring :=
  [percent; hex_digit (b / 16); hex_digit (b mod 16)].

Definition percent_octets (bs : list Z) : jsstring :=
  flat_map percent_octet bs.

(** [None] stands for the URIError thrown on an unpaired surrogate. *)
Fixpoint encodeURIComponent (s : jsstring) : option jsstring :=
  match s with
  | [] => Some []
  | c :: rest =>
      if is_unescaped c then cons c <$> encodeURIComponent rest
      else
        let v := cu_val c in
        if is_trailing_surrogate v then None
        else if is_leading_surrogate v then
          match rest with
          | c2 :: rest' =>
              if is_trailing_surrogate (cu_val c2) then
                app (percent_octets
                       (utf8_octets (UTF16SurrogatePairToCodePoint v (cu_val c2))))
                  <$> encodeURIComponent rest'
              else None
          | [] => None
          end
        else app (percent_octets (utf8_octets v)) <$> encodeURIComponent rest
  end.

(** How the first code unit, or the first surrogate pair, of a string is
    encoded: the code point [cp] read at the head of [c :: rest], followed
    by [tail]. *)
Definition reads (c : code_unit) (rest : jsstring) (cp : Z) (tail : jsstring) : Prop :=
  (cp = cu_val c /\ tail = rest)
  \/ (exists c2, rest = c2 :: tail
        /\ is_leading_surrogate (cu_val c) = true
        /\ is_trailing_surrogate (cu_val c2) = true
        /\ cp = UTF16SurrogatePairToCodePoint (cu_val c) (cu_val c2)).

(** A string [encodeURIComponent] accepts holds no unpaired surrogate. *)
Fixpoint is_well_formed (s : jsstring) : bool :=
  match s with
  | [] => true
  | c :: rest =>
      let v := cu_val c in
      if is_trailing_surrogate v then false
      else if is_leading_surrogate v then
        match rest with
        | c2 :: rest' => is_trailing_surrogate (cu_val c2) && is_well_formed rest'
        | [] => false
        end
      else is_well_formed rest
  end.

(** *** [s.replace(/\/$/, "")]

    The pattern is the character "/" followed by the end-of-input
    assertion (no [m] flag).  [replace] with a non-global pattern looks for
    the first index at which the pattern matches, scanning from index 0,
    and substitutes the replacement (here the empty string) for the
    matched text. *)

Definition slash : code_unit := chr "/".

Definition ampersand : code_unit := chr "&".

Definition is_slash (c : code_unit) : bool := code_unit_eqb c slash.

Definition at_end_of_input (rest : jsstring) : bool :=
  match rest with [] => true | _ :: _ => false end.

Fixpoint replace_slash_at_end (s : jsstring) : jsstring :=
  match s with
  | [] => []
  | c :: rest =>
      if is_slash c && at_end_of_input rest then rest
      else c :: replace_slash_at_end rest
  end.

End JS.

(** ** src/utils/voice-session.ts *)

Module VoiceSession.
Import JS.

Record SessionInfo := {
  sessionId : jsstring;
  token : jsstring;
  relayUrl : jsstring;
  expiresAt : Z
}.

(** [buildRelayWsUrl]: [None] when [encodeURIComponent] throws. *)
Definition buildRelayWsUrl (info : SessionInfo) : option jsstring :=
  let base := replace_slash_at_end (relayUrl info) in
  t ← encodeURIComponent (token info);
  Some (base ++ js "/s/" ++ sessionId info ++ js "?t=" ++ t).

Definition with_relayUrl (info : SessionInfo) (u : jsstring) : SessionInfo :=
  {| sessionId := sessionId info; token := token info; relayUrl := u;
     expiresAt := expiresAt info |}.

(** The description of the result in words: the base URL without one
    trailing slash, "/s/", the session id, "?t=" and the encoded token. *)
Definition ends_with_slash (s : jsstring) : bool :=
  match last s with
  | Some c => is_slash c
  | None => false
  end.

Definition without_one_trailing_slash (s : jsstring) : jsstring :=
  if ends_with_slash s then removelast s else s.

Definition described_relay_ws_url (info : SessionInfo) : option jsstring :=
  (fun t => without_one_trailing_slash (relayUrl info) ++ js "/s/"
              ++ sessionId info ++ js "?t=" ++ t)
    <$> encodeURIComponent (token info).

End VoiceSession.

(** ** src/components/popups/PhoneMicPopup.tsx *)

Module PhoneMicPopup.
Import JS.

(** The component declares its own [SessionInfo], field for field the type
    of the voice-session module, which is reused here. *)
Abbreviation SessionInfo := VoiceSession.SessionInfo.
Abbreviation sessionId := VoiceSession.sessionId.
Abbreviation token := VoiceSession.token.
Abbreviation relayUrl := VoiceSession.relayUrl.
Abbreviation expiresAt := VoiceSession.expiresAt.

Inductive Failure :=
| FetchFailed
| HttpError (code : Z)
| BodyNotJson
| URIError
| QrFailed.

(** The status line; each constructor is one of the component's messages. *)
Inductive Status :=
| Idle
| CreatingSession
| WaitingForPhone
| FailedToCreateSession (why : Failure)
| EndingSession
| ConnectedToRelay
| Disconnected
| RelayError
| FailedToConnectRelay.

(** The message sent to the content script of the active tab; its
    [action] is always "pm-voice-transcript". *)
Record TranscriptAction := {
  ta_interim : bool;
  ta_text : jsstring;
  ta_timestampMs : Z
}.

Inductive Effect :=
| Fetch (url lang model : jsstring)
| GenerateQr (text : jsstring) (size : Z)
| NewWebSocket (url : jsstring)
| CloseWebSocket (url : jsstring)
| TabsSendMessage (tabId : Z) (msg : TranscriptAction).

(** The [useState] cells and the [wsRef] of the component. *)
Record Popup := {
  session : option SessionInfo;
  qrDataUrl : option jsstring;
  status : Status;
  language : jsstring;
  model : jsstring;
  preview : jsstring;
  wsRef : option jsstring
}.

Definition initial : Popup :=
  {| session := None; qrDataUrl := None; status := Idle;
     language := js "en-US"; model := js "gemini-2.5-pro";
     preview := []; wsRef := None |}.

Definition setSession (v : option SessionInfo) (st : Popup) : Popup :=
  {| session := v; qrDataUrl := qrDataUrl st; status := status st;
     language := language st; model := model st; preview := preview st;
     wsRef := wsRef st |}.

Definition setQrDataUrl (v : option jsstring) (st : Popup) : Popup :=
  {| session := session st; qrDataUrl := v; status := status st;
     language := language st; model := model st; preview := preview st;
     wsRef := wsRef st |}.

Definition setStatus (v : Status) (st : Popup) : Popup :=
  {| session := session st; qrDataUrl := qrDataUrl st; status := v;
     language := language st; model := model st; preview := preview st;
     wsRef := wsRef st |}.

Definition setLanguage (v : jsstring) (st : Popup) : Popup :=
  {| session := session st; qrDataUrl := qrDataUrl st; status := status st;
     language := v; model := model st; preview := preview st;
     wsRef := wsRef st |}.

Definition setModel (v : jsstring) (st : Popup) : Popup :=
  {| session := session st; qrDataUrl := qrDataUrl st; status := status st;
     language := language st; model := v; preview := preview st;
     wsRef := wsRef st |}.

Definition setPreview (v : jsstring) (st : Popup) : Popup :=
  {| session := session st; qrDataUrl := qrDataUrl st; status := status st;
     language := language st; model := model st; preview := v;
     wsRef := wsRef st |}.

Definition setWsRef (v : option jsstring) (st : Popup) : Popup :=
  {| session := session st; qrDataUrl := qrDataUrl st; status := status st;
     language := language st; model := model st; preview := preview st;
     wsRef := v |}.

(** *** [createSession] *)

(** The body of the relay's answer to [POST /sessions], as the component
    reads it; [r_relayUrl] is [None] when the field is missing. *)
Record SessionResponse := {
  r_sessionId : jsstring;
  r_token : jsstring;
  r_relayUrl : option jsstring
}.

Inductive FetchOutcome :=
| FetchRejected
| FetchResolved (ok : bool) (code : Z) (body : option SessionResponse).

Inductive QrOutcome :=
| QrRejected
| QrResolved (dataUrl : jsstring).

(** What the environment answers during one run of [createSession]: the
    outcome of [fetch], the value of [Date.now()], the answer of the QR
    generator and whether the [WebSocket] constructor accepts the URL. *)
Record CreateEnv := {
  fetch_outcome : FetchOutcome;
  now : Z;
  qr_outcome : QrOutcome;
  ws_constructs : bool
}.

(** [30 * 60 * 1000]: the life time, in milliseconds, the component gives
    a session. *)
Definition SESSION_TTL_MS : Z := 30 * 60 * 1000.

(** [data.relayUrl || relayBase]: the empty string is falsy. *)
Definition relayUrl_or (v : option jsstring) (relayBase : jsstring) : jsstring :=
  match v with
  | Some (c :: u) => c :: u
  | Some [] | None => relayBase
  end.

Definition sessions_url (relayBase : jsstring) : jsstring :=
  replace_slash_at_end relayBase ++ js "/sessions".

(** The URL handed to the QR generator. *)
Definition pairing_url (info : SessionInfo) (lang mdl : jsstring) : option jsstring :=
  s ← encodeURIComponent (sessionId info);
  t ← encodeURIComponent (token info);
  l ← encodeURIComponent lang;
  m ← encodeURIComponent mdl;
  Some (js "https://voice.paymore.app?s=" ++ s ++ js "&t=" ++ t
          ++ js "&lang=" ++ l ++ js "&model=" ++ m).

Definition relay_socket_url (info : SessionInfo) : option jsstring :=
  let url := replace_slash_at_end (relayUrl info) ++ js "/s/" ++ sessionId info in
  t ← encodeURIComponent (token info);
  Some (url ++ js "?t=" ++ t).

(** [connectRelay]: any exception ends in the status
    "Failed to connect relay". *)
Definition connectRelay (constructs : bool) (info : SessionInfo) (st : Popup)
  : Popup * list Effect :=
  match relay_socket_url info with
  | Some u =>
      if constructs then (setWsRef (Some u) st, [NewWebSocket u])
      else (setStatus FailedToConnectRelay st, [])
  | None => (setStatus FailedToConnectRelay st, [])
  end.

(** One run of [createSession], from the click to the last status, its
    awaits answered by [env]. *)
Definition createSession (relayBase : jsstring) (env : CreateEnv) (st0 : Popup)
  : Popup * list Effect :=
  let st := setStatus CreatingSession st0 in
  let request := Fetch (sessions_url relayBase) (language st) (model st) in
  match fetch_outcome env with
  | FetchRejected => (setStatus (FailedToCreateSession FetchFailed) st, [request])
  | FetchResolved ok code body =>
      if negb ok then
        (setStatus (FailedToCreateSession (HttpError code)) st, [request])
      else
        match body with
        | None => (setStatus (FailedToCreateSession BodyNotJson) st, [request])
        | Some data =>
            let info : SessionInfo :=
              {| sessionId := r_sessionId data;
                 token := r_token data;
                 relayUrl := relayUrl_or (r_relayUrl data) relayBase;
                 expiresAt := now env + SESSION_TTL_MS |} in
            let st := setSession (Some info) st in
            match pairing_url info (language st) (model st) with
            | None => (setStatus (FailedToCreateSession URIError) st, [request])
            | Some url =>
                match qr_outcome env with
                | QrRejected =>
                    (setStatus (FailedToCreateSession QrFailed) st,
                     [request; GenerateQr url 256])
                | QrResolved qr =>
                    let st := setQrDataUrl (Some qr) st in
                    let '(st, fx) := connectRelay (ws_constructs env) info st in
                    (setStatus WaitingForPhone st,
                     [request; GenerateQr url 256] ++ fx)
                end
            end
        end
  end.

(** *** [endSession] *)

Definition endSession (st : Popup) : Popup * list Effect :=
  let fx := match wsRef st with Some u => [CloseWebSocket u] | None => [] end in
  (setStatus Idle
     (setPreview []
        (setQrDataUrl None
           (setSession None (setWsRef None (setStatus EndingSession st))))),
   fx).

(** *** The socket's [onmessage] handler *)

Section Messages.

(** Values a parsed message can hold in a field.  Numbers are integral
    (millisecond counts); what [String] makes of a number or of an object
    (an array or a nested object, kept opaque) is left to the engine. *)
Variable object : Type.
Variable object_to_string : object -> option jsstring.
Variable number_to_string : Z -> jsstring.

Inductive JsValue :=
| VNull
| VBool (b : bool)
| VNumber (n : Z)
| VString (s : jsstring)
| VObject (o : object).

(** The result of [JSON.parse]: a value that is not an object has none of
    the properties the handler reads. *)
Inductive Parsed :=
| NotAnObject
| ObjectWith (fields : gmap string JsValue).

(** Property read; [None] is [undefined]. *)
Definition get (msg : Parsed) (name : string) : option JsValue :=
  match msg with
  | NotAnObject => None
  | ObjectWith fields => fields !! name
  end.

Definition ToBoolean (v : option JsValue) : bool :=
  match v with
  | None | Some VNull => false
  | Some (VBool b) => b
  | Some (VNumber n) => negb (n =? 0)
  | Some (VString s) => match s with [] => false | _ :: _ => true end
  | Some (VObject _) => true
  end.

(** [String(v)]; [None] when the conversion throws. *)
Definition ToString (v : option JsValue) : option jsstring :=
  match v with
  | None => Some (js "undefined")
  | Some VNull => Some (js "null")
  | Some (VBool true) => Some (js "true")
  | Some (VBool false) => Some (js "false")
  | Some (VNumber n) => Some (number_to_string n)
  | Some (VString s) => Some s
  | Some (VObject o) => object_to_string o
  end.

(** [a || b] *)
Definition or_else (a b : option JsValue) : option JsValue :=
  if ToBoolean a then a else b.

Definition is_transcript (msg : Parsed) : bool :=
  match get msg "type" with
  | Some (VString s) => bool_decide (s = js "transcript")
  | _ => false
  end.

Record Tab := { tab_id : option Z }.

(** [tabs?.[0]] followed by the test [!tab?.id]: the id of the first tab
    when it has a truthy one. *)
Definition first_tab_id (tabs : option (list Tab)) : option Z :=
  match tabs with
  | Some (tab :: _) =>
      match tab_id tab with
      | Some i => if i =? 0 then None else Some i
      | None => None
      end
  | _ => None
  end.

(** [data] is the result of [JSON.parse(ev.data)], [None] when it throws;
    [time] is the value of [Date.now()] in the [tabs.query] callback and
    [tabs] the argument of that callback. *)
Definition onmessage (data : option Parsed) (time : Z) (tabs : option (list Tab))
    (st : Popup) : Popup * list Effect :=
  match data with
  | None => (st, [])
  | Some msg =>
      if is_transcript msg then
        match ToString (or_else (get msg "text") (Some (VString []))) with
        | None => (st, [])
        | Some text =>
            let st' :=
              setPreview (if ToBoolean (get msg "interim") then text
                          else preview st ++ js (String "010" EmptyString) ++ text) st in
            match first_tab_id tabs with
            | None => (st', [])
            | Some i =>
                (st', [TabsSendMessage i
                         {| ta_interim := ToBoolean (get msg "interim");
                            ta_text := text;
                            ta_timestampMs := time |}])
            end
        end
      else (st, [])
  end.

(** *** The component as a transition system *)

Inductive Action :=
| CreateSession (relayBase : jsstring) (env : CreateEnv)
| EndSession
| SelectLanguage (v : jsstring)
| TypeModel (v : jsstring)
| SocketOpen
| SocketClose
| SocketError
| SocketMessage (data : option Parsed) (time : Z) (tabs : option (list Tab)).

Definition step (st : Popup) (a : Action) : Popup * list Effect :=
  match a with
  | CreateSession relayBase env => createSession relayBase env st
  | EndSession => endSession st
  | SelectLanguage v => (setLanguage v st, [])
  | TypeModel v => (setModel v st, [])
  | SocketOpen => (setStatus ConnectedToRelay st, [])
  | SocketClose => (setStatus Disconnected st, [])
  | SocketError => (setStatus RelayError st, [])
  | SocketMessage data time tabs => onmessage data time tabs st
  end.

Definition is_create (a : Action) : bool :=
  match a with CreateSession _ _ => true | _ => false end.

Fixpoint run (st : Popup) (actions : list Action) : Popup :=
  match actions with
  | [] => st
  | a :: rest => run (fst (step st a)) rest
  end.

End Messages.

Arguments VNull {object}.
Arguments VBool {object} b.
Arguments VNumber {object} n.
Arguments VString {object} s.
Arguments VObject {object} o.
Arguments NotAnObject {object}.
Arguments ObjectWith {object} fields.
Arguments get {object} msg name.
Arguments ToBoolean {object} v.
Arguments ToString {object} object_to_string number_to_string v.
Arguments or_else {object} a b.
Arguments is_transcript {object} msg.
Arguments onmessage {object} object_to_string number_to_string data time tabs st.
Arguments CreateSession {object} relayBase env.
Arguments EndSession {object}.
Arguments SelectLanguage {object} v.
Arguments TypeModel {object} v.
Arguments SocketOpen {object}.
Arguments SocketClose {object}.
Arguments SocketError {object}.
Arguments SocketMessage {object} data time tabs.
Arguments step {object} object_to_string number_to_string st a.
Arguments is_create {object} a.
Arguments run {object} object_to_string number_to_string st actions.

End PhoneMicPopup.

(** ** src/utils/transcript-injector.ts *)

Module TranscriptInjector.
Import JS.

(** The states of the [type] attribute of an input element. *)
Inductive InputType :=
| Hidden | Text | Search | Tel | Url | Email | Password
| Date | Month | Week | Time | DatetimeLocal | Number | Range | Color
| Checkbox | Radio | File | Submit | Image | Reset | Button.

Inductive ElementClass :=
| HTMLInputElement (type : InputType)
| HTMLTextAreaElement
| OtherHTMLElement.

(** A property that is a number, [null] or [undefined]. *)
Inductive Offset :=
| Undefined
| Null
| Num (n : nat).

Record Element := {
  class : ElementClass;
  contenteditable : option jsstring;
  value : jsstring;
  selectionStart : Offset;
  selectionEnd : Offset
}.

Inductive DomEffect :=
| InputEvent
| ExecInsertText (text : jsstring).

Inductive Outcome :=
| Returned
| InvalidStateError.

(** The part of the page the injector reads and writes: the focused
    element, the events dispatched on it and the editing commands run. *)
Record Document := {
  activeElement : option Element;
  log : list DomEffect
}.

(** [a ?? b] *)
Definition nullish (o : Offset) (default : nat) : nat :=
  match o with
  | Num n => n
  | Null | Undefined => default
  end.

(** [s.substring(0, n)] and [s.substring(n)] for a non-negative [n]: both
    clamp [n] to the length of [s]. *)
Definition substring_to (s : jsstring) (n : nat) : jsstring := firstn n s.
Definition substring_from (s : jsstring) (n : nat) : jsstring := skipn n s.

Definition is_editable (el : Element) : bool :=
  match contenteditable el with
  | Some v => bool_decide (v = []) || bool_decide (v = js "true")
  | None => false
  end.

Definition is_text_control (el : Element) : bool :=
  (match selectionStart el with Undefined => false | _ => true end
   && match class el with HTMLTextAreaElement => true | _ => false end)
  || match class el with HTMLInputElement _ => true | _ => false end.

(** *** The value setter of the page

    [input.value = v] does not store [v] as it is: the element runs its
    value sanitization algorithm on it. *)

Definition LF : code_unit := chr "010".
Definition CR : code_unit := chr "013".

Definition is_line_break (c : code_unit) : bool :=
  code_unit_eqb c LF || code_unit_eqb c CR.

(** "Strip newlines": every LF and CR is removed. *)
Definition strip_newlines (s : jsstring) : jsstring :=
  List.filter (fun c => negb (is_line_break c)) s.

(** ASCII whitespace: TAB, LF, FF, CR and SPACE. *)
Definition is_ascii_whitespace (c : code_unit) : bool :=
  code_unit_eqb c (chr "009") || code_unit_eqb c LF || code_unit_eqb c (chr "012")
  || code_unit_eqb c CR || code_unit_eqb c (chr " ").

Fixpoint strip_leading (s : jsstring) : jsstring :=
  match s with
  | [] => []
  | c :: rest => if is_ascii_whitespace c then strip_leading rest else s
  end.

(** "Strip leading and trailing ASCII whitespace". *)
Definition strip_leading_and_trailing (s : jsstring) : jsstring :=
  rev (strip_leading (rev (strip_leading s))).

(** "Normalize newlines", which gives the API value of a textarea: CR LF
    and a CR alone both become LF. *)
Fixpoint normalize_newlines (s : jsstring) : jsstring :=
  match s with
  | [] => []
  | c :: rest =>
      if code_unit_eqb c CR then
        LF :: match rest with
              | d :: rest' =>
                  if code_unit_eqb d LF then normalize_newlines rest'
                  else normalize_newlines rest
              | [] => []
              end
      else c :: normalize_newlines rest
  end.

(** The types of input to which the selection applies: on the others
    [selectionStart] reads [null] and [setSelectionRange] throws. *)
Definition selection_applies (type : InputType) : bool :=
  match type with
  | Text | Search | Url | Tel | Password => true
  | _ => false
  end.

(** The types whose value is a plain attribute (the modes "default" and
    "default/on" of the value property). *)
Definition plain_value (type : InputType) : bool :=
  match type with
  | Hidden | Checkbox | Radio | Submit | Image | Reset | Button => true
  | _ => false
  end.

Section ValueSetter.

(** The sanitization of the types whose algorithm reads an address, a
    date, a number or a colour, or other attributes of the element, is
    left to the engine. *)
Variable sanitize_by_engine : InputType -> jsstring -> jsstring.

(** What reading [value] gives after [v] was written to it. *)
Definition sanitize (class : ElementClass) (v : jsstring) : jsstring :=
  match class with
  | HTMLTextAreaElement => normalize_newlines v
  | HTMLInputElement type =>
      match type with
      | Text | Search | Tel | Password => strip_newlines v
      | Url => strip_leading_and_trailing (strip_newlines v)
      | Email | Date | Month | Week | Time | DatetimeLocal | Number | Range
      | Color => sanitize_by_engine type v
      | Hidden | Checkbox | Radio | Submit | Image | Reset | Button | File => v
      end
  | OtherHTMLElement => v
  end.

(** A file input takes no value but the empty string: the setter throws
    an InvalidStateError on any other. *)
Definition setter_throws (class : ElementClass) (v : jsstring) : bool :=
  match class with
  | HTMLInputElement File => negb (bool_decide (v = []))
  | _ => false
  end.

(** [el.value = v] *)
Definition set_value (el : Element) (v : jsstring) : option Element :=
  if setter_throws (class el) v then None
  else
    Some {| class := class el; contenteditable := contenteditable el;
            value := sanitize (class el) v;
            selectionStart := selectionStart el; selectionEnd := selectionEnd el |}.

(** [setSelectionRange(caret, caret)]: an element whose selection offsets
    are [null] has no selection to set and the call throws; otherwise both
    offsets are set, clamped to the length of the value. *)
Definition setSelectionRange (el : Element) (caret : nat) : option Element :=
  match selectionStart el with
  | Num _ =>
      let c := Nat.min caret (length (value el)) in
      Some {| class := class el; contenteditable := contenteditable el;
              value := value el; selectionStart := Num c; selectionEnd := Num c |}
  | _ => None
  end.

Definition insertAtCaret (text : jsstring) (doc : Document) : Document * Outcome :=
  match activeElement doc with
  | None => (doc, Returned)
  | Some el =>
      if is_text_control el then
        let start := nullish (selectionStart el) (length (value el)) in
        let end_ := nullish (selectionEnd el) (length (value el)) in
        let before := substring_to (value el) start in
        let after := substring_from (value el) end_ in
        match set_value el (before ++ text ++ after) with
        | None => (doc, InvalidStateError)
        | Some el1 =>
            let caret := (start + length text)%nat in
            match setSelectionRange el1 caret with
            | None =>
                ({| activeElement := Some el1; log := log doc |}, InvalidStateError)
            | Some el2 =>
                ({| activeElement := Some el2; log := log doc ++ [InputEvent] |},
                 Returned)
            end
        end
      else if is_editable el then
        ({| activeElement := Some el; log := log doc ++ [ExecInsertText text] |},
         Returned)
      else (doc, Returned)
  end.

Record TranscriptMessage := {
  interim : option bool;
  text : jsstring
}.

Definition space : code_unit := chr " ".

Definition to_insert (msg : TranscriptMessage) : jsstring :=
  match interim msg with
  | Some true => text msg
  | Some false | None => text msg ++ [space]
  end.

Definition handleTranscriptMessage (msg : TranscriptMessage) (doc : Document)
  : Document * Outcome :=
  insertAtCaret (to_insert msg) doc.

(** The text controls that have a selection: a textarea, and an input of
    a type to which the selection applies. *)
Definition has_selection (class : ElementClass) : bool :=
  match class with
  | HTMLTextAreaElement => true
  | HTMLInputElement type => selection_applies type
  | OtherHTMLElement => false
  end.


End ValueSetter.

End TranscriptInjector.

(** ** The relay service

    The extension holds no code of the relay: it is the client of it
    ([createSession], [connectRelay]) and declares its messages.  The
    definitions of this module follow the design document.  A room is
    owned by one task that takes its commands one at a time, so that each
    command is one atomic step of the room. *)

Module Relay.
Import JS.

#[global] Instance code_unit_countable : Countable code_unit :=
  inj_countable' (fun c => (cu_hi c, cu_lo c)) (fun p => CodeUnit p.1 p.2)
    (fun c => match c with CodeUnit _ _ => eq_refl end).

(** *** Token service *)

(** Modelled from the spec: the compact structure a credential signs, the
    session id [sid] and the absolute expiry [exp]. *)
Record Claims := { sid : jsstring; exp : Z }.

(** Modelled from the spec: the result of [verify]. *)
Inductive Verdict :=
| Invalid
| Verified (sessionId : jsstring) (expiresAt : Z).

Section TokenService.

(** The signature scheme (a keyed hash under the process-wide secret) and
    the wire format of the compact structure are not fixed by the design:
    they are parameters. *)
Variable Signature : Type.
Context `{EqDecision Signature}.
Variable sign : Claims -> Signature.
Variable serialize : Claims -> Signature -> jsstring.
Variable parse : jsstring -> option (Claims * Signature).

(** Modelled from the spec: [issue(sessionId, ttl)] of the Token Service,
    which signs a compact structure holding [sid] and the absolute expiry
    [exp]; the instant of issuance is an argument. *)
Definition issue (sessionId : jsstring) (issuedAt ttl : Z) : jsstring :=
  let claims := {| sid := sessionId; exp := issuedAt + ttl |} in
  serialize claims (sign claims).

(** Modelled from the spec: [verify(credential)] of the Token Service:
    [Invalid] when the structure is malformed, when the signature does not
    match, or when [exp] has passed, the instant [exp] itself included. *)
Definition verify (time : Z) (credential : jsstring) : Verdict :=
  match parse credential with
  | None => Invalid
  | Some (claims, signature) =>
      if bool_decide (signature = sign claims) then
        if exp claims <=? time then Invalid
        else Verified (sid claims) (exp claims)
      else Invalid
  end.

Definition malformed (credential : jsstring) : Prop :=
  parse credential = None.

Definition signature_mismatch (credential : jsstring) : Prop :=
  exists claims signature,
    parse credential = Some (claims, signature) /\ signature <> sign claims.

Definition expired (time : Z) (credential : jsstring) : Prop :=
  exists claims signature,
    parse credential = Some (claims, signature) /\ exp claims <= time.

End TokenService.

Arguments issue {Signature} sign serialize sessionId issuedAt ttl.
Arguments verify {Signature _} sign parse time credential.
Arguments malformed {Signature} parse credential.
Arguments signature_mismatch {Signature} sign parse credential.
Arguments expired {Signature} parse time credential.

(** *** Rooms *)

Definition ConnId := nat.

Inductive Role := Producer | Consumer.

(** Modelled from the spec: the close codes of the room endpoint. *)
Inductive CloseCode :=
| InvalidCredential
| SessionExpired
| SessionMismatch
| ProducerSlotOccupied
| OversizedMessage
| MalformedMessage
| RateLimited
| BackpressureOverflow
| NormalClosure.

(** Modelled from the spec: the payload unit and the two message unions
    of the room endpoint. *)
Record TranscriptEvent := {
  interim : bool;
  text : jsstring;
  timestampMs : Z
}.

Inductive ClientMessage :=
| Hello
| ClientTranscript (interim : bool) (text : jsstring) (ts : option Z).

Inductive ServerMessage :=
| Ready
| ServerError (code message : jsstring)
| ServerTranscript (ev : TranscriptEvent).

(** An inbound frame after the size cap and deserialization. *)
Inductive Inbound :=
| Oversized
| Malformed
| Message (m : ClientMessage).

(** The answer of the per-session rate limiter for one inbound message. *)
Inductive RateVerdict :=
| Allowed
| Limited
| Escalated.

(** A joined connection with its bounded outbound queue, oldest first. *)
Record Connection := {
  conn_id : ConnId;
  conn_role : Role;
  outbound : list ServerMessage
}.

(** Modelled from the spec: the Room of the data model, the membership of
    one session: at most one producer and a set of consumers. *)
Definition Room := list Connection.

Definition is_producer (c : Connection) : bool :=
  match conn_role c with Producer => true | Consumer => false end.

Definition has_producer (room : Room) : bool := existsb is_producer room.

Definition producers (room : Room) : nat := length (List.filter is_producer room).

Definition has_id (id : ConnId) (c : Connection) : bool := Nat.eqb (conn_id c) id.

Definition member (id : ConnId) (room : Room) : option Connection :=
  List.find (has_id id) room.

Definition remove (id : ConnId) (room : Room) : Room :=
  List.filter (fun c => negb (has_id id c)) room.

Definition set_outbound (q : list ServerMessage) (c : Connection) : Connection :=
  {| conn_id := conn_id c; conn_role := conn_role c; outbound := q |}.

(** What a room lets the outside see. *)
Inductive Event :=
| Joined (id : ConnId) (role : Role)
| Closed (id : ConnId) (code : CloseCode)
| Broadcast (ev : TranscriptEvent)
| Ignored (id : ConnId)
| Delivered (id : ConnId) (m : ServerMessage).

Inductive Command :=
| Connect (id : ConnId) (role : Role) (verdict : Verdict)
| Frame (id : ConnId) (frame : Inbound) (time : Z) (rate : RateVerdict)
| Flush (id : ConnId)
| Disconnect (id : ConnId)
| Expire.

(** Modelled from the spec: the transition Authenticating to Joined of the
    Room Multiplexer: the verified [sid] must equal the session identifier
    of the room path. *)
Definition authenticate (room_sid : jsstring) (verdict : Verdict) : option CloseCode :=
  match verdict with
  | Invalid => Some InvalidCredential
  | Verified s _ =>
      if bool_decide (s = room_sid) then None else Some SessionMismatch
  end.

(** Modelled from the spec: registration into the room; the producer slot
    is checked and taken in one step, and the joining connection is sent
    [ready] first. *)
Definition join (id : ConnId) (role : Role) (room : Room) : Room + CloseCode :=
  let c := {| conn_id := id; conn_role := role; outbound := [Ready] |} in
  match role with
  | Producer =>
      if has_producer room then inr ProducerSlotOccupied else inl (room ++ [c])
  | Consumer => inl (room ++ [c])
  end.

(** Modelled from the spec: the relay fills in [timestampMs] when the
    producer left [ts] out. *)
Definition stamp (time : Z) (i : bool) (t : jsstring) (ts : option Z) : TranscriptEvent :=
  {| interim := i; text := t;
     timestampMs := match ts with Some v => v | None => time end |}.

Definition is_interim (m : ServerMessage) : bool :=
  match m with
  | ServerTranscript ev => interim ev
  | _ => false
  end.

(** Modelled from the spec: the drop-oldest-interim policy; [None] when
    the queue holds no interim transcript. *)
Fixpoint drop_oldest_interim (q : list ServerMessage) : option (list ServerMessage) :=
  match q with
  | [] => None
  | m :: rest =>
      if is_interim m then Some rest else cons m <$> drop_oldest_interim rest
  end.

Inductive Enqueued :=
| Queued (q : list ServerMessage)
| Overflow.

Section Room.

Variable capacity : nat.
Variable room_sid : jsstring.

(** Modelled from the spec: the backpressure policy of the outbound queue.
    A full queue makes room by dropping its oldest interim transcript; with
    no interim queued, an incoming interim is itself the one dropped and an
    incoming final overflows the queue. *)
Definition enqueue (q : list ServerMessage) (ev : TranscriptEvent) : Enqueued :=
  if (length q <? capacity)%nat then Queued (q ++ [ServerTranscript ev])
  else
    match drop_oldest_interim q with
    | Some q' => Queued (q' ++ [ServerTranscript ev])
    | None => if interim ev then Queued q else Overflow
    end.

(** Modelled from the spec: the broadcast of one transcript to every
    consumer of the room; a consumer whose queue overflows is closed with
    the backpressure code, the others are served all the same. *)
Fixpoint fan_out (ev : TranscriptEvent) (room : Room) : Room * list Event :=
  match room with
  | [] => ([], [])
  | c :: rest =>
      let '(rest', closed) := fan_out ev rest in
      match conn_role c with
      | Producer => (c :: rest', closed)
      | Consumer =>
          match enqueue (outbound c) ev with
          | Queued q => (set_outbound q c :: rest', closed)
          | Overflow => (rest', Closed (conn_id c) BackpressureOverflow :: closed)
          end
      end
  end.

(** Modelled from the spec: a connection attempt on the room: it is
    authenticated, then registered, or closed with the code of the
    failure. *)
Definition on_connect (id : ConnId) (role : Role) (verdict : Verdict) (room : Room)
  : Room * list Event :=
  match member id room with
  | Some _ => (room, [Ignored id])
  | None =>
      match authenticate room_sid verdict with
      | Some code => (room, [Closed id code])
      | None =>
          match join id role room with
          | inl room' => (room', [Joined id role])
          | inr code => (room, [Closed id code])
          end
      end
  end.

(** Modelled from the spec: message handling while Joined. *)
Definition on_frame (id : ConnId) (frame : Inbound) (time : Z) (rate : RateVerdict)
    (room : Room) : Room * list Event :=
  match member id room with
  | None => (room, [Ignored id])
  | Some c =>
      match frame with
      | Oversized => (remove id room, [Closed id OversizedMessage])
      | Malformed => (remove id room, [Closed id MalformedMessage])
      | Message Hello => (room, [])
      | Message (ClientTranscript i t ts) =>
          match conn_role c with
          | Consumer => (room, [Ignored id])
          | Producer =>
              match rate with
              | Allowed =>
                  let ev := stamp time i t ts in
                  let '(room', closed) := fan_out ev room in
                  (room', Broadcast ev :: closed)
              | Limited => (room, [Ignored id])
              | Escalated => (remove id room, [Closed id RateLimited])
              end
          end
      end
  end.

(** Modelled from the spec: the writer of a connection; the socket of
    [id] takes the oldest queued message. *)
Definition on_flush (id : ConnId) (room : Room) : Room * list Event :=
  match member id room with
  | Some c =>
      match outbound c with
      | m :: q =>
          (map (fun d => if has_id id d then set_outbound q d else d) room,
           [Delivered id m])
      | [] => (room, [])
      end
  | None => (room, [])
  end.

(** Modelled from the spec: session expiry; the queues are flushed, then
    every connection is closed with the expiry code and the room is
    gone. *)
Definition drain (c : Connection) : list Event :=
  map (Delivered (conn_id c)) (outbound c) ++ [Closed (conn_id c) SessionExpired].

Definition on_expire (room : Room) : Room * list Event :=
  ([], flat_map drain room).

(** Modelled from the spec: one step of the task that owns the room. *)
Definition room_step (room : Room) (cmd : Command) : Room * list Event :=
  match cmd with
  | Connect id role verdict => on_connect id role verdict room
  | Frame id frame time rate => on_frame id frame time rate room
  | Flush id => on_flush id room
  | Disconnect id =>
      match member id room with
      | Some _ => (remove id room, [Closed id NormalClosure])
      | None => (room, [])
      end
  | Expire => on_expire room
  end.

(** A run of the room from a state, with everything it let see. *)
Fixpoint room_run (room : Room) (cmds : list Command) : Room * list Event :=
  match cmds with
  | [] => (room, [])
  | cmd :: rest =>
      let '(room1, evs1) := room_step room cmd in
      let '(room2, evs2) := room_run room1 rest in
      (room2, evs1 ++ evs2)
  end.

End Room.

(** Modelled from the spec: the room table, keyed by [sessionId]; a room
    is created by the first connection that joins and removed with its
    last member. *)
Definition hub_step (capacity : nat) (hub : gmap jsstring Room)
    (sid_cmd : jsstring * Command) : gmap jsstring Room * list Event :=
  let '(s, cmd) := sid_cmd in
  let '(room', evs) := room_step capacity s (default [] (hub !! s)) cmd in
  (match room' with [] => delete s hub | _ :: _ => <[s := room']> hub end, evs).

Fixpoint hub_run (capacity : nat) (hub : gmap jsstring Room)
    (cmds : list (jsstring * Command)) : gmap jsstring Room :=
  match cmds with
  | [] => hub
  | c :: rest => hub_run capacity (hub_step capacity hub c).1 rest
  end.

(** *** What one connection sees of a run *)

Definition transcript_of (m : ServerMessage) : option TranscriptEvent :=
  match m with
  | ServerTranscript ev => Some ev
  | _ => None
  end.

Definition transcripts (q : list ServerMessage) : list TranscriptEvent :=
  omap transcript_of q.

(** The transcripts broadcast in the room, and those delivered to [id],
    since [id] last joined. *)
Definition observe (id : ConnId)
    (acc : list TranscriptEvent * list TranscriptEvent) (e : Event)
  : list TranscriptEvent * list TranscriptEvent :=
  match e with
  | Joined j _ => if Nat.eqb j id then ([], []) else acc
  | Broadcast ev => (acc.1 ++ [ev], acc.2)
  | Delivered j (ServerTranscript ev) =>
      if Nat.eqb j id then (acc.1, acc.2 ++ [ev]) else acc
  | _ => acc
  end.

Definition observed (id : ConnId) (trace : list Event)
  : list TranscriptEvent * list TranscriptEvent :=
  fold_left (observe id) trace ([], []).

Definition broadcast_since (id : ConnId) (trace : list Event) : list TranscriptEvent :=
  (observed id trace).1.

Definition delivered_to (id : ConnId) (trace : list Event) : list TranscriptEvent :=
  (observed id trace).2.

(** The transcripts still queued for [id]. *)
Definition pending (id : ConnId) (room : Room) : list TranscriptEvent :=
  match member id room with
  | Some c => transcripts (outbound c)
  | None => []
  end.

(** The transcripts queued in the room under the identifier [id]. *)
Definition queued_for (id : ConnId) (room : Room) : list TranscriptEvent :=
  flat_map (fun c => if has_id id c then transcripts (outbound c) else []) room.

Definition is_final (ev : TranscriptEvent) : bool := negb (interim ev).

Definition finals (l : list TranscriptEvent) : list TranscriptEvent :=
  List.filter is_final l.

Definition is_consumer_of (id : ConnId) (room : Room) : Prop :=
  exists c, member id room = Some c /\ conn_role c = Consumer.

(** What was delivered to [id] and what is queued for it make, in this
    order, a subsequence of what was broadcast since it joined; for a
    consumer, no final is missing from it. *)
Definition consistent (id : ConnId) (room : Room)
    (seen : list TranscriptEvent * list TranscriptEvent) : Prop :=
  (seen.2 ++ pending id room) `sublist_of` seen.1
  /\ (is_consumer_of id room ->
      finals (seen.2 ++ pending id room) = finals seen.1).

End Relay.

(** ** The relay service, continued: what is sent and what arrives *)

Module RelayDelivery.
Import JS Relay.

(** One write of the producer: a transcript message and the instant at
    which the relay receives it. *)
Record Write := {
  w_interim : bool;
  w_text : jsstring;
  w_ts : option Z;
  w_time : Z
}.

(** The frame of a write that the rate limiter lets through. *)
Definition frame_of (p : ConnId) (w : Write) : Command :=
  Frame p (Message (ClientTranscript (w_interim w) (w_text w) (w_ts w)))
    (w_time w) Allowed.

(** The transcript the relay makes of a write. *)
Definition stamped (w : Write) : ServerMessage :=
  ServerTranscript (stamp (w_time w) (w_interim w) (w_text w) (w_ts w)).

Definition delivery_to (id : ConnId) (e : Event) : option ServerMessage :=
  match e with
  | Delivered j m => if Nat.eqb j id then Some m else None
  | _ => None
  end.

(** The messages the socket of [id] took, in the order it took them. *)
Definition deliveries (id : ConnId) (trace : list Event) : list ServerMessage :=
  omap (delivery_to id) trace.

(** No queue of the room is full. *)
Definition has_room (capacity : nat) (room : Room) : bool :=
  forallb (fun c => (length (outbound c) <? capacity)%nat) room.

(** No queue is full when a command of the run is taken: the run never
    meets backpressure. *)
Fixpoint never_full (capacity : nat) (s : jsstring) (room : Room)
    (cmds : list Command) : bool :=
  match cmds with
  | [] => true
  | cmd :: rest =>
      has_room capacity room
      && never_full capacity s (room_step capacity s room cmd).1 rest
  end.

(** For a consumer, what was delivered to it followed by what is queued
    for it is all that was broadcast since it joined. *)
Definition exact (id : ConnId) (room : Room)
    (seen : list TranscriptEvent * list TranscriptEvent) : Prop :=
  is_consumer_of id room -> seen.2 ++ pending id room = seen.1.

Definition is_producer_of (id : ConnId) (room : Room) : Prop :=
  exists c, member id room = Some c /\ conn_role c = Producer.

End RelayDelivery.

(** ** Strings, continued: the operations the content script uses *)

Module JSText.
Import JS.

Definition question_mark : code_unit := chr "?".

Definition dot : code_unit := chr ".".

Definition space : code_unit := chr " ".

(** [s.startsWith(p)] and [s.endsWith(p)] *)
Fixpoint starts_with (p s : jsstring) : bool :=
  match p, s with
  | [], _ => true
  | c :: p', d :: s' => code_unit_eqb c d && starts_with p' s'
  | _ :: _, [] => false
  end.

Definition ends_with (p s : jsstring) : bool := starts_with (rev p) (rev s).

(** [re.test(s)] for a pattern without anchors: the pattern is tried at
    index 0, 1, ... up to the length of [s]; [at_head] says whether it
    matches at the head of the rest of the input. *)
Fixpoint test_from (at_head : jsstring -> bool) (s : jsstring) : bool :=
  at_head s
  || match s with
     | [] => false
     | _ :: rest => test_from at_head rest
     end.

(** The class [\d]. *)
Definition is_digit (c : code_unit) : bool := is_decimal_digit (cu_val c).

(** The class [\s], which is also what [trim] strips: the WhiteSpace and
    LineTerminator code points. *)
Definition is_white_space (c : code_unit) : bool :=
  let v := cu_val c in
  ((9 <=? v) && (v <=? 13))
  || existsb (Z.eqb v) [0x20; 0xA0; 0x1680; 0x2028; 0x2029; 0x202F; 0x205F;
                        0x3000; 0xFEFF]
  || ((0x2000 <=? v) && (v <=? 0x200A)).

(** [s.replace(/\s+/g, " ")]: every maximal run of white space is replaced
    by one space; [in_run] tells that the run at hand was replaced
    already. *)
Fixpoint collapse_from (in_run : bool) (s : jsstring) : jsstring :=
  match s with
  | [] => []
  | c :: rest =>
      if is_white_space c then
        if in_run then collapse_from true rest
        else space :: collapse_from true rest
      else c :: collapse_from false rest
  end.

Definition collapse_white_space (s : jsstring) : jsstring := collapse_from false s.

(** A text whose white space is single spaces only, each next to no other
    white space; [after_space] tells that the text follows one. *)
Fixpoint well_spaced (after_space : bool) (s : jsstring) : bool :=
  match s with
  | [] => true
  | c :: rest =>
      if is_white_space c then
        code_unit_eqb c space && negb after_space && well_spaced true rest
      else well_spaced false rest
  end.

Definition is_black (c : code_unit) : bool := negb (is_white_space c).

(** [s.slice(0, n)] for a non-negative [n]. *)
Definition slice_to (n : nat) (s : jsstring) : jsstring := firstn n s.





(** The canonical form of a code unit under the flag [i] of a pattern
    without the flag [u], as far as it can meet an ASCII character: a
    lower-case ASCII letter becomes the upper-case one; a code unit from
    128 on never becomes an ASCII one. *)
Definition canonicalize (c : code_unit) : Z :=
  let v := cu_val c in
  if (97 <=? v) && (v <=? 122) then v - 32 else v.

(** A literal of ASCII characters tried at the head of the input under the
    flag [i]. *)
Fixpoint literal_ci_at (p s : jsstring) : bool :=
  match p, s with
  | [], _ => true
  | c :: p', d :: s' => (canonicalize c =? canonicalize d) && literal_ci_at p' s'
  | _ :: _, [] => false
  end.

End JSText.

(** ** entrypoints/content.ts: the content script *)

Module ContentScript.
Import JS JSText.

(** *** URL exclusion *)

(** The pattern [/([?&])pm_popup=1(?!\d)/] at the head of the input. *)
Definition pm_popup_at (s : jsstring) : bool :=
  match s with
  | c :: rest =>
      (code_unit_eqb c question_mark || code_unit_eqb c ampersand)
      && starts_with (js "pm_popup=1") rest
      && negb match skipn 10 rest with
              | d :: _ => is_digit d
              | [] => false
              end
  | [] => false
  end.

(** [EXCLUDE_URLS]: the one pattern [/paymore\-extension\.vercel\.app/i]. *)
Definition EXCLUDE_URLS : list (jsstring -> bool) :=
  [test_from (literal_ci_at (js "paymore-extension.vercel.app"))].

Definition isExcludedUrl (url : jsstring) : bool :=
  if test_from pm_popup_at url then true
  else existsb (fun re => re url) EXCLUDE_URLS.

(** *** Sites the extension is disabled on *)

(** [currentDomain === site || currentDomain.endsWith("." + site)] *)
Definition site_covers (currentDomain site : jsstring) : bool :=
  bool_decide (currentDomain = site) || ends_with (dot :: site) currentDomain.

(** [message.disabledSites || []] put through [some]. *)
Definition isCurrentlyDisabled (currentDomain : jsstring)
    (disabledSites : option (list jsstring)) : bool :=
  existsb (site_covers currentDomain)
    (match disabledSites with Some sites => sites | None => [] end).

(** *** The unread counter of the chat *)

(** The numbers of the engine are doubles: a sum of integers is the
    double nearest to it, the one of even mantissa when two are as near.
    Up to 2^53 every integer is a double; beyond, the doubles are
    [ulp] apart. *)
Definition round_to_double (z : Z) : Z :=
  let m := Z.abs z in
  if m <=? 2 ^ 53 then z
  else
    let ulp := 2 ^ (Z.log2 m - 52) in
    let q := m / ulp in
    let r := m mod ulp in
    let q' :=
      if 2 * r <? ulp then q
      else if ulp <? 2 * r then q + 1
      else if Z.even q then q else q + 1 in
    Z.sgn z * (q' * ulp).

(** [Math.min(99, Number(cfg?.pmChatUnread || 0) + 1)] on a stored count
    that is an integer. *)
Definition next_unread (pmChatUnread : Z) : Z :=
  Z.min 99 (round_to_double (pmChatUnread + 1)).

(** The counter after a number of attention messages, the read and the
    write of each taken as one step. *)
Fixpoint unread_after (attentions : nat) (pmChatUnread : Z) : Z :=
  match attentions with
  | O => pmChatUnread
  | S n => unread_after n (next_unread pmChatUnread)
  end.

(** *** The page context handed to the side panel *)

(** What the page gives: the selected text ([None] when there is no
    selection object), the inner text of the body and the text content of
    each heading in document order ([None] for [null]). *)
Record Page := {
  selected : option jsstring;
  innerText : option jsstring;
  headingTexts : list (option jsstring)
}.

Definition maxChars : nat := Z.to_nat 20000.

(** [v || ""] *)
Definition or_empty (v : option jsstring) : jsstring :=
  match v with Some s => s | None => [] end.

Definition context_selection (page : Page) : jsstring :=
  slice_to 4000 (or_empty (selected page)).

Definition context_excerpt (page : Page) : jsstring :=
  slice_to maxChars (collapse_white_space (or_empty (innerText page))).



(** *** The controller pop-up *)

Section Gamepads.

(** The readings of a gamepad are numbers of the engine; their comparisons
    with the thresholds are left to it: [over_press v] is [v > 0.15] and
    [over_axis a] is [Math.abs(a) > 0.2]. *)
Variable number : Type.
Variable over_press : number -> bool.
Variable over_axis : number -> bool.

Record Button := { pressed : bool; value : option number }.

Record Gamepad := {
  buttons : option (list (option Button));
  axes : option (list number)
}.

(** [b?.pressed || (b?.value ?? 0) > 0.15] *)
Definition button_active (b : option Button) : bool :=
  match b with
  | Some b => pressed b || match value b with Some v => over_press v | None => false end
  | None => false
  end.

(** What a policy interface answers when asked about "gamepad". *)
Inductive Probe :=
| Absent
| ProbeThrows
| Says (allowed : bool).

Inductive GetGamepads :=
| NotAFunction
| GetThrows
| GetReturns (pads : list (option Gamepad)).

(** What the browser answers during one call of [safeGetGamepads]. *)
Record Browser := {
  permissionsPolicy_allows : Probe;
  featurePolicy_allowsFeature : Probe;
  featurePolicy_features : Probe;
  navigator_getGamepads : GetGamepads
}.

Definition isGamepadAllowed (gamepadAccessDenied : bool) (b : Browser) : bool :=
  if gamepadAccessDenied then false
  else
    match permissionsPolicy_allows b with
    | Says answer => answer
    | Absent | ProbeThrows =>
        match featurePolicy_allowsFeature b with
        | Says answer => answer
        | ProbeThrows => true
        | Absent =>
            match featurePolicy_features b with
            | Says answer => answer
            | ProbeThrows | Absent => true
            end
        end
    end.

(** [safeGetGamepads]: the new value of [gamepadAccessDenied] and the
    gamepads. *)
Definition safeGetGamepads (gamepadAccessDenied : bool) (b : Browser)
  : bool * list (option Gamepad) :=
  if gamepadAccessDenied then (true, [])
  else if negb (isGamepadAllowed gamepadAccessDenied b) then (true, [])
  else
    match navigator_getGamepads b with
    | NotAFunction => (false, [])
    | GetThrows => (true, [])
    | GetReturns pads => (false, pads)
    end.

Definition gamepad_connected (gp : option Gamepad) : bool :=
  match gp with Some _ => true | None => false end.

Definition gamepad_active (gp : option Gamepad) : bool :=
  match gp with
  | None => false
  | Some gp =>
      match buttons gp with
      | Some bs => existsb button_active bs
      | None => false
      end
      || match axes gp with
         | Some l => existsb over_axis l
         | None => false
         end
  end.

(** The variables of [initializeExtension]. *)
Record Controller := {
  autoShow : bool;
  modalVisible : bool;
  userDismissed : bool;
  modalInjected : bool;
  wantedVisible : bool;
  lastActive : Z;
  lastConnected : Z;
  lastDismissedAt : Z;
  manualOpen : bool;
  gamepadAccessDenied : bool;
  lastControllerPopupAt : Z
}.

Definition initial : Controller :=
  {| autoShow := true; modalVisible := false; userDismissed := false;
     modalInjected := false; wantedVisible := false; lastActive := 0;
     lastConnected := 0; lastDismissedAt := 0; manualOpen := false;
     gamepadAccessDenied := false; lastControllerPopupAt := 0 |}.

Inductive Effect :=
| OpenInSidebar
| RootDisplay (block : bool)
| RemoveContainer.

(** [showModal]: [root] tells whether the page holds an element with the
    id of the modal ([injectModal] inserts none). *)
Definition showModal (href : jsstring) (root : bool) (st : Controller)
  : Controller * list Effect :=
  if isExcludedUrl href then (st, [])
  else if root then
    ({| autoShow := autoShow st; modalVisible := true; userDismissed := false;
        modalInjected := modalInjected st; wantedVisible := wantedVisible st;
        lastActive := lastActive st; lastConnected := lastConnected st;
        lastDismissedAt := lastDismissedAt st; manualOpen := manualOpen st;
        gamepadAccessDenied := gamepadAccessDenied st;
        lastControllerPopupAt := lastControllerPopupAt st |},
     [RootDisplay true])
  else if negb (modalInjected st) then
    ({| autoShow := autoShow st; modalVisible := modalVisible st;
        userDismissed := userDismissed st;
        modalInjected := modalInjected st; wantedVisible := true;
        lastActive := lastActive st; lastConnected := lastConnected st;
        lastDismissedAt := lastDismissedAt st; manualOpen := manualOpen st;
        gamepadAccessDenied := gamepadAccessDenied st;
        lastControllerPopupAt := lastControllerPopupAt st |},
     [])
  else (st, []).

Definition hideModal (time : Z) (root : bool) (st : Controller)
  : Controller * list Effect :=
  if root then
    ({| autoShow := autoShow st; modalVisible := false; userDismissed := true;
        modalInjected := modalInjected st; wantedVisible := wantedVisible st;
        lastActive := lastActive st; lastConnected := lastConnected st;
        lastDismissedAt := time; manualOpen := false;
        gamepadAccessDenied := gamepadAccessDenied st;
        lastControllerPopupAt := lastControllerPopupAt st |},
     [RootDisplay false])
  else (st, []).

Definition set_manualOpen (v : bool) (st : Controller) : Controller :=
  {| autoShow := autoShow st; modalVisible := modalVisible st;
     userDismissed := userDismissed st;
     modalInjected := modalInjected st; wantedVisible := wantedVisible st;
     lastActive := lastActive st; lastConnected := lastConnected st;
     lastDismissedAt := lastDismissedAt st; manualOpen := v;
     gamepadAccessDenied := gamepadAccessDenied st;
     lastControllerPopupAt := lastControllerPopupAt st |}.

(** The listener of [gamepadconnected]; [connectedAt] and [time] are its
    two readings of the clock. *)
Definition on_gamepadconnected (connectedAt time : Z) (tabActive : bool)
    (st : Controller) : Controller * list Effect :=
  let opens := tabActive && (5000 <? time - lastControllerPopupAt st) in
  ({| autoShow := autoShow st; modalVisible := modalVisible st;
      userDismissed := false;
      modalInjected := modalInjected st; wantedVisible := wantedVisible st;
      lastActive := lastActive st; lastConnected := connectedAt;
      lastDismissedAt := lastDismissedAt st; manualOpen := manualOpen st;
      gamepadAccessDenied := gamepadAccessDenied st;
      lastControllerPopupAt :=
        if opens then time else lastControllerPopupAt st |},
   if opens then [OpenInSidebar] else []).

(** One turn of the polling loop; [b1] and [b2] are the browser's answers
    to the calls of [safeGetGamepads] made by [anyGamepadActive] and by
    [anyGamepadConnected]. *)
Definition on_poll (time : Z) (tabActive : bool) (b1 b2 : Browser)
    (st : Controller) : Controller * list Effect :=
  let '(denied1, pads1) := safeGetGamepads (gamepadAccessDenied st) b1 in
  let active := existsb gamepad_active pads1 in
  let lastActive' := if active then time else lastActive st in
  let '(denied2, pads2) := safeGetGamepads denied1 b2 in
  let connected := existsb gamepad_connected pads2 in
  let recentlyActive := time - lastActive' <? 1000 in
  let recentlyConnected := time - lastConnected st <? 1500 in
  let shouldReopenAfterDismiss :=
    userDismissed st
    && ((lastDismissedAt st <? lastActive') || recentlyConnected) in
  let shouldAutoOpen :=
    tabActive
    && (connected || recentlyActive || recentlyConnected)
    && (negb (userDismissed st) || shouldReopenAfterDismiss) in
  let opens :=
    autoShow st && shouldAutoOpen
    && (5000 <? time - lastControllerPopupAt st) in
  ({| autoShow := autoShow st; modalVisible := modalVisible st;
      userDismissed := userDismissed st;
      modalInjected := modalInjected st; wantedVisible := wantedVisible st;
      lastActive := lastActive'; lastConnected := lastConnected st;
      lastDismissedAt := lastDismissedAt st; manualOpen := manualOpen st;
      gamepadAccessDenied := denied2;
      lastControllerPopupAt :=
        if opens then time else lastControllerPopupAt st |},
   if opens then [OpenInSidebar] else []).

(** The events the variables are written on. *)
Inductive Event :=
| StorageLoaded (autoShowModal : option bool)
| ShowRequested (href : jsstring) (root : bool)
| HideRequested (time : Z) (root : bool)
| GamepadConnected (connectedAt time : Z) (tabActive : bool)
| Poll (time : Z) (tabActive : bool) (b1 b2 : Browser)
| VisibilityChange (visible : bool) (time : Z) (root : bool)
| Blur (time : Z) (root : bool)
| SettingsChanged (currentDomain : jsstring) (disabledSites : option (list jsstring))
    (time : Z) (root container : bool).

Definition handle (st : Controller) (e : Event) : Controller * list Effect :=
  match e with
  | StorageLoaded v =>
      ({| autoShow := match v with Some b => b | None => true end;
          modalVisible := modalVisible st; userDismissed := userDismissed st;
          modalInjected := modalInjected st; wantedVisible := wantedVisible st;
          lastActive := lastActive st; lastConnected := lastConnected st;
          lastDismissedAt := lastDismissedAt st; manualOpen := manualOpen st;
          gamepadAccessDenied := gamepadAccessDenied st;
          lastControllerPopupAt := lastControllerPopupAt st |}, [])
  | ShowRequested href root => showModal href root (set_manualOpen true st)
  | HideRequested time root => hideModal time root (set_manualOpen false st)
  | GamepadConnected connectedAt time tabActive =>
      on_gamepadconnected connectedAt time tabActive st
  | Poll time tabActive b1 b2 => on_poll time tabActive b1 b2 st
  | VisibilityChange visible time root =>
      if negb visible && modalVisible st then hideModal time root st else (st, [])
  | Blur time root =>
      if modalVisible st then hideModal time root st else (st, [])
  | SettingsChanged currentDomain disabledSites time root container =>
      if isCurrentlyDisabled currentDomain disabledSites then
        let '(st', fx) := hideModal time root st in
        (st', fx ++ if container then [RemoveContainer] else [])
      else (st, [])
  end.

(** A run of the script: the final variables and, for each event, what it
    did. *)
Fixpoint run (st : Controller) (events : list Event)
  : Controller * list (Event * list Effect) :=
  match events with
  | [] => (st, [])
  | e :: rest =>
      let '(st1, fx) := handle st e in
      let '(st2, log) := run st1 rest in
      (st2, (e, fx) :: log)
  end.

(** The instants at which the script asked for the controller tool. *)
Definition opened_at (entry : Event * list Effect) : option Z :=
  match entry with
  | (GamepadConnected _ time _, [OpenInSidebar]) => Some time
  | (Poll time _ _ _, [OpenInSidebar]) => Some time
  | _ => None
  end.

Definition openings (log : list (Event * list Effect)) : list Z :=
  omap opened_at log.

(** Whether the event found the element of the modal in the page. *)
Definition found_root (e : Event) : bool :=
  match e with
  | ShowRequested _ root | HideRequested _ root | VisibilityChange _ _ root
  | Blur _ root | SettingsChanged _ _ _ root _ => root
  | StorageLoaded _ | GamepadConnected _ _ _ | Poll _ _ _ _ => false
  end.

Definition is_storage_loaded (e : Event) : bool :=
  match e with StorageLoaded _ => true | _ => false end.

Definition is_gamepad_connected (e : Event) : bool :=
  match e with GamepadConnected _ _ _ => true | _ => false end.

(** Consecutive instants more than [gap] apart. *)
Fixpoint spaced (gap : Z) (previous : Z) (times : list Z) : Prop :=
  match times with
  | [] => True
  | t :: rest => gap < t - previous /\ spaced gap t rest
  end.

End Gamepads.

Arguments pressed {number} b.
Arguments value {number} b.
Arguments buttons {number} g.
Arguments axes {number} g.
Arguments button_active {number} over_press b.
Arguments NotAFunction {number}.
Arguments GetThrows {number}.
Arguments GetReturns {number} pads.
Arguments permissionsPolicy_allows {number} b.
Arguments featurePolicy_allowsFeature {number} b.
Arguments featurePolicy_features {number} b.
Arguments navigator_getGamepads {number} b.
Arguments isGamepadAllowed {number} gamepadAccessDenied b.
Arguments safeGetGamepads {number} gamepadAccessDenied b.
Arguments gamepad_connected {number} gp.
Arguments gamepad_active {number} over_press over_axis gp.
Arguments on_poll {number} over_press over_axis time tabActive b1 b2 st.
Arguments StorageLoaded {number} autoShowModal.
Arguments ShowRequested {number} href root.
Arguments HideRequested {number} time root.
Arguments GamepadConnected {number} connectedAt time tabActive.
Arguments Poll {number} time tabActive b1 b2.
Arguments VisibilityChange {number} visible time root.
Arguments Blur {number} time root.
Arguments SettingsChanged {number} currentDomain disabledSites time root container.
Arguments handle {number} over_press over_axis st e.
Arguments run {number} over_press over_axis st events.
Arguments found_root {number} e.
Arguments is_storage_loaded {number} e.
Arguments is_gamepad_connected {number} e.
Arguments opened_at {number} entry.
Arguments openings {number} log.

End ContentScript.

(** ** Sample values *)

Module Samples.
Import JS.

Definition sample_info : VoiceSession.SessionInfo :=
  {| VoiceSession.sessionId := js "abc"; VoiceSession.token := js "a.b/c";
     VoiceSession.relayUrl := js "wss://relay.example";
     VoiceSession.expiresAt := 0 |}.

Definition sample_textarea : TranscriptInjector.Element :=
  {| TranscriptInjector.class := TranscriptInjector.HTMLTextAreaElement;
     TranscriptInjector.contenteditable := None;
     TranscriptInjector.value := js "hello world";
     TranscriptInjector.selectionStart := TranscriptInjector.Num 5;
     TranscriptInjector.selectionEnd := TranscriptInjector.Num 6 |}.

Section PopupSamples.
Import PhoneMicPopup.

Definition sample_env : CreateEnv :=
  {| fetch_outcome :=
       FetchResolved true 201
         (Some {| r_sessionId := js "abc"; r_token := js "a.b.c";
                  r_relayUrl := Some (js "wss://relay.example/") |});
     now := 1700000000000;
     qr_outcome := QrResolved (js "data:image/png;base64,AAAA");
     ws_constructs := true |}.

Definition sample_message : Parsed Empty_set :=
  ObjectWith
    (<["type" := VString (js "transcript")]>
       (<["interim" := VBool true]>
          (<["text" := VString (js "hel")]>
             (<["timestampMs" := VNumber 5]> ∅)))).

Definition sample_tabs : option (list Tab) := Some [{| tab_id := Some 7 |}].

End PopupSamples.

Section RelaySamples.
Import Relay.

(** A toy signature scheme and wire format: every non-empty credential
    reads as claims for itself that expire at 1000. *)
Definition toy_sign (c : Claims) : Z := exp c + Z.of_nat (length (sid c)).

Definition toy_parse (credential : jsstring) : option (Claims * Z) :=
  match credential with
  | [] => None
  | _ :: _ =>
      Some ({| sid := credential; exp := 1000 |},
            1000 + Z.of_nat (length credential))
  end.

Definition sample_room : Room :=
  [{| conn_id := 1%nat; conn_role := Producer; outbound := [Ready] |};
   {| conn_id := 2%nat; conn_role := Consumer; outbound := [Ready] |}].

Definition sample_final (t : string) (time : Z) : TranscriptEvent :=
  {| interim := false; text := js t; timestampMs := time |}.

Definition sample_interim (t : string) (time : Z) : TranscriptEvent :=
  {| interim := true; text := js t; timestampMs := time |}.

Definition sample_run : list Command :=
  [Connect 1%nat Producer (Verified (js "abc") 1000);
   Connect 2%nat Consumer (Verified (js "abc") 1000);
   Connect 3%nat Producer (Verified (js "abc") 1000);
   Frame 1%nat (Message (ClientTranscript true (js "h") None)) 10 Allowed;
   Frame 1%nat (Message (ClientTranscript true (js "he") (Some 7))) 11 Allowed;
   Frame 1%nat (Message (ClientTranscript false (js "hey") None)) 12 Allowed;
   Flush 2%nat; Flush 2%nat;
   Frame 1%nat (Message (ClientTranscript false (js "you") None)) 13 Allowed].

End RelaySamples.

End Samples.

(** ** Invariants of the popup component *)

Module PopupInvariants.
Import JS PhoneMicPopup.

(** The cells a run of [createSession] may leave as they were. *)
Definition same_cells (st st' : Popup) : Prop :=
  session st' = session st /\ qrDataUrl st' = qrDataUrl st
  /\ wsRef st' = wsRef st /\ preview st' = preview st
  /\ language st' = language st /\ model st' = model st.

(** A QR code or a socket is held only together with a session. *)
Definition paired (st : Popup) : Prop :=
  (qrDataUrl st <> None \/ wsRef st <> None) -> session st <> None.

End PopupInvariants.

(** ** [createSession], await by await *)

Module PopupPhases.
Import JS PhoneMicPopup.

(** [createSession] is asynchronous: it runs to its first await, and what
    follows each await runs when the awaited promise settles, with other
    handlers of the component free to run in between.  It writes no cell
    between [await fetch(...)] and [await res.json()], which are taken
    together.  [lang] and [mdl] are the language and the model of the
    render the function belongs to. *)

(** From the click to [await fetch(...)]. *)
Definition createSession_start (relayBase lang mdl : jsstring) (st : Popup)
  : Popup * list Effect :=
  (setStatus CreatingSession st, [Fetch (sessions_url relayBase) lang mdl]).

(** From the answer of the relay to [await generateQr(...)], or to the
    catch; the session is handed on to the part that follows. *)
Definition createSession_fetched (relayBase lang mdl : jsstring)
    (outcome : FetchOutcome) (time : Z) (st : Popup)
  : Popup * list Effect * option SessionInfo :=
  match outcome with
  | FetchRejected => (setStatus (FailedToCreateSession FetchFailed) st, [], None)
  | FetchResolved ok code body =>
      if negb ok then
        (setStatus (FailedToCreateSession (HttpError code)) st, [], None)
      else
        match body with
        | None => (setStatus (FailedToCreateSession BodyNotJson) st, [], None)
        | Some data =>
            let info : SessionInfo :=
              {| sessionId := r_sessionId data;
                 token := r_token data;
                 relayUrl := relayUrl_or (r_relayUrl data) relayBase;
                 expiresAt := time + SESSION_TTL_MS |} in
            let st := setSession (Some info) st in
            match pairing_url info lang mdl with
            | None => (setStatus (FailedToCreateSession URIError) st, [], None)
            | Some url => (st, [GenerateQr url 256], Some info)
            end
        end
  end.

(** From the answer of the QR generator to the end. *)
Definition createSession_qr (info : SessionInfo) (outcome : QrOutcome)
    (constructs : bool) (st : Popup) : Popup * list Effect :=
  match outcome with
  | QrRejected => (setStatus (FailedToCreateSession QrFailed) st, [])
  | QrResolved qr =>
      let st := setQrDataUrl (Some qr) st in
      let '(st, fx) := connectRelay constructs info st in
      (setStatus WaitingForPhone st, fx)
  end.

(** The three parts run one after the other, nothing in between. *)
Definition createSession_uninterrupted (relayBase : jsstring) (env : CreateEnv)
    (st : Popup) : Popup * list Effect :=
  let '(st1, fx1) :=
    createSession_start relayBase (language st) (model st) st in
  let '(st2, fx2, pending) :=
    createSession_fetched relayBase (language st) (model st)
      (fetch_outcome env) (now env) st1 in
  match pending with
  | None => (st2, fx1 ++ fx2)
  | Some info =>
      let '(st3, fx3) :=
        createSession_qr info (qr_outcome env) (ws_constructs env) st2 in
      (st3, fx1 ++ fx2 ++ fx3)
  end.

(** The same run with End Session clicked while the QR code is awaited. *)
Definition createSession_ended_meanwhile (relayBase : jsstring) (env : CreateEnv)
    (st : Popup) : Popup * list Effect :=
  let '(st1, fx1) :=
    createSession_start relayBase (language st) (model st) st in
  let '(st2, fx2, pending) :=
    createSession_fetched relayBase (language st) (model st)
      (fetch_outcome env) (now env) st1 in
  match pending with
  | None => (st2, fx1 ++ fx2)
  | Some info =>
      let '(st3, fx3) := endSession st2 in
      let '(st4, fx4) :=
        createSession_qr info (qr_outcome env) (ws_constructs env) st3 in
      (st4, fx1 ++ fx2 ++ fx3 ++ fx4)
  end.

End PopupPhases.

(** ** More sample values *)

Module MoreSamples.
Import JS.

Definition sample_relay_base : jsstring := js "https://relay.example".

Definition sample_refused_env : PhoneMicPopup.CreateEnv :=
  {| PhoneMicPopup.fetch_outcome := PhoneMicPopup.FetchResolved false 503 None;
     PhoneMicPopup.now := 1700000000000;
     PhoneMicPopup.qr_outcome := PhoneMicPopup.QrRejected;
     PhoneMicPopup.ws_constructs := true |}.

Definition sample_response : PhoneMicPopup.SessionResponse :=
  {| PhoneMicPopup.r_sessionId := js "abc"; PhoneMicPopup.r_token := js "a.b.c";
     PhoneMicPopup.r_relayUrl := None |}.

Definition sample_no_qr_env : PhoneMicPopup.CreateEnv :=
  {| PhoneMicPopup.fetch_outcome :=
       PhoneMicPopup.FetchResolved true 201 (Some sample_response);
     PhoneMicPopup.now := 1700000000000;
     PhoneMicPopup.qr_outcome := PhoneMicPopup.QrRejected;
     PhoneMicPopup.ws_constructs := true |}.

Definition sample_no_socket_env : PhoneMicPopup.CreateEnv :=
  {| PhoneMicPopup.fetch_outcome :=
       PhoneMicPopup.FetchResolved true 201 (Some sample_response);
     PhoneMicPopup.now := 1700000000000;
     PhoneMicPopup.qr_outcome :=
       PhoneMicPopup.QrResolved (js "data:image/png;base64,AAAA");
     PhoneMicPopup.ws_constructs := false |}.

(** A transcript without text. *)
Definition sample_silent_message : PhoneMicPopup.Parsed Empty_set :=
  PhoneMicPopup.ObjectWith
    (<["type" := PhoneMicPopup.VString (js "transcript")]>
       (<["interim" := PhoneMicPopup.VBool false]> ∅)).

Definition sample_tab_zero : option (list PhoneMicPopup.Tab) :=
  Some [{| PhoneMicPopup.tab_id := Some 0 |}].

(** A checkbox: an input to which the selection does not apply. *)
Definition sample_checkbox : TranscriptInjector.Element :=
  {| TranscriptInjector.class :=
       TranscriptInjector.HTMLInputElement TranscriptInjector.Checkbox;
     TranscriptInjector.contenteditable := None;
     TranscriptInjector.value := js "on";
     TranscriptInjector.selectionStart := TranscriptInjector.Null;
     TranscriptInjector.selectionEnd := TranscriptInjector.Null |}.



(** An engine that leaves the values it sanitizes as they are. *)
Definition sample_engine (type : TranscriptInjector.InputType) (v : jsstring)
  : jsstring := v.

Definition sample_div (attribute : option string) : TranscriptInjector.Element :=
  {| TranscriptInjector.class := TranscriptInjector.OtherHTMLElement;
     TranscriptInjector.contenteditable := js <$> attribute;
     TranscriptInjector.value := [];
     TranscriptInjector.selectionStart := TranscriptInjector.Undefined;
     TranscriptInjector.selectionEnd := TranscriptInjector.Undefined |}.

Definition sample_page : ContentScript.Page :=
  {| ContentScript.selected := None; ContentScript.innerText := None;
     ContentScript.headingTexts := [] |}.

Section ControllerSamples.
Import ContentScript.

(** Readings in hundredths. *)
Definition sample_over_press (v : Z) : bool := 15 <? v.
Definition sample_over_axis (a : Z) : bool := 20 <? Z.abs a.

Definition sample_pad : Gamepad Z :=
  {| buttons := Some [Some {| pressed := false; value := Some 80 |}];
     axes := Some [0; 0] |}.

Definition sample_browser : Browser Z :=
  {| permissionsPolicy_allows := Says true;
     featurePolicy_allowsFeature := Absent;
     featurePolicy_features := Absent;
     navigator_getGamepads := GetReturns [None; Some sample_pad] |}.

Definition sample_refusing_browser : Browser Z :=
  {| permissionsPolicy_allows := Says false;
     featurePolicy_allowsFeature := Absent;
     featurePolicy_features := Absent;
     navigator_getGamepads := GetReturns [Some sample_pad] |}.

Definition sample_denied : Controller :=
  (handle sample_over_press sample_over_axis initial
     (Poll 1000 true sample_refusing_browser sample_refusing_browser)).1.

Definition sample_switched_off : Controller :=
  (handle sample_over_press sample_over_axis initial
     (StorageLoaded (Some false))).1.

Definition sample_events : list (Event Z) :=
  [ShowRequested (js "https://example.com/") false;
   Poll 6000 true sample_browser sample_browser;
   GamepadConnected 7000 7001 true;
   Blur 8000 false;
   Poll 12000 true sample_browser sample_browser].

End ControllerSamples.

Section DeliverySamples.
Import Relay RelayDelivery.

(** A producer and a consumer join an empty room. *)
Definition sample_joins : list Command :=
  [Connect 1%nat Producer (Verified (js "abc") 1000);
   Connect 2%nat Consumer (Verified (js "abc") 1000)].

Definition sample_consumer : Connection :=
  {| conn_id := 2%nat; conn_role := Consumer; outbound := [Ready] |}.

(** An interim transcript and the final one that follows it. *)
Definition sample_writes : list Write :=
  [{| w_interim := true; w_text := js "he"; w_ts := None; w_time := 10 |};
   {| w_interim := false; w_text := js "hey"; w_ts := Some 7; w_time := 11 |}].

(** The writes and the flushes of the consumer, one among the others. *)
Definition sample_mixed_run : list Command :=
  sample_joins
  ++ [frame_of 1%nat {| w_interim := true; w_text := js "he"; w_ts := None;
                        w_time := 10 |};
      Flush 2%nat; Flush 2%nat;
      frame_of 1%nat {| w_interim := false; w_text := js "hey"; w_ts := Some 7;
                        w_time := 11 |}].

End DeliverySamples.

End MoreSamples.

(** * Properties *)

(** ** Code units and strings *)

Module JSFacts.
Import JS.

Lemma byte_val_range (a : ascii) : 0 <= byte_val a < 256.
Proof.
  unfold byte_val. pose proof (N_ascii_bounded a). lia.
Qed.

Lemma byte_val_inj (a b : ascii) : byte_val a = byte_val b -> a = b.
Proof.
  unfold byte_val. intros E.
  rewrite <- (ascii_N_embedding a), <- (ascii_N_embedding b).
  f_equal. lia.
Qed.

Lemma cu_val_range (c : code_unit) : 0 <= cu_val c < 65536.
Proof.
  unfold cu_val.
  pose proof (byte_val_range (cu_hi c)). pose proof (byte_val_range (cu_lo c)). lia.
Qed.

Lemma cu_val_inj (c d : code_unit) : cu_val c = cu_val d -> c = d.
Proof.
  destruct c as [h l], d as [h' l']. unfold cu_val. simpl. intros E.
  pose proof (byte_val_range h). pose proof (byte_val_range l).
  pose proof (byte_val_range h'). pose proof (byte_val_range l').
  assert (byte_val h = byte_val h') by lia.
  assert (byte_val l = byte_val l') by lia.
  f_equal; by apply byte_val_inj.
Qed.

Lemma cu_val_chr_of_Z (v : Z) : 0 <= v < 256 -> cu_val (chr_of_Z v) = v.
Proof.
  intros Hv. unfold chr_of_Z, chr, cu_val, byte_val. simpl.
  rewrite N_ascii_embedding by lia. lia.
Qed.

Lemma code_unit_eqb_eq (c d : code_unit) : code_unit_eqb c d = true <-> c = d.
Proof.
  unfold code_unit_eqb. rewrite Z.eqb_eq. split; [apply cu_val_inj | by intros ->].
Qed.

Lemma is_slash_true (c : code_unit) : is_slash c = true <-> c = slash.
Proof. apply code_unit_eqb_eq. Qed.

Lemma is_slash_slash : is_slash slash = true.
Proof. reflexivity. Qed.

(** *** The regular expression replacement *)

Lemma replace_slash_at_end_snoc (s : jsstring) :
  replace_slash_at_end (s ++ [slash]) = s.
Proof.
  induction s as [|c s IH]; [reflexivity|].
  simpl. destruct (s ++ [slash]) as [|d r] eqn:E.
  - by destruct s.
  - rewrite andb_false_r. by rewrite IH.
Qed.

Lemma replace_slash_at_end_other (s : jsstring) :
  VoiceSession.ends_with_slash s = false -> replace_slash_at_end s = s.
Proof.
  unfold VoiceSession.ends_with_slash.
  induction s as [|c s IH]; [reflexivity|].
  intros Hlast. simpl. destruct s as [|d r].
  - simpl in Hlast. rewrite Hlast. reflexivity.
  - rewrite andb_false_r. f_equal. apply IH. exact Hlast.
Qed.

Lemma ends_with_slash_snoc (s : jsstring) (c : code_unit) :
  VoiceSession.ends_with_slash (s ++ [c]) = is_slash c.
Proof. unfold VoiceSession.ends_with_slash. by rewrite last_snoc. Qed.

(** The scan for the pattern agrees with the description in words. *)
Lemma replace_slash_at_end_described (s : jsstring) :
  replace_slash_at_end s = VoiceSession.without_one_trailing_slash s.
Proof.
  unfold VoiceSession.without_one_trailing_slash.
  destruct (VoiceSession.ends_with_slash s) eqn:E.
  - destruct s as [|c s] using rev_ind; [discriminate|].
    rewrite ends_with_slash_snoc in E. apply is_slash_true in E. subst c.
    rewrite replace_slash_at_end_snoc. by rewrite removelast_last.
  - by apply replace_slash_at_end_other.
Qed.

Lemma encodeURIComponent_defined (s : jsstring) :
  is_Some (encodeURIComponent s) <-> is_well_formed s = true.
Proof.
  cut (forall n (t : jsstring), (length t <= n)%nat ->
         (is_Some (encodeURIComponent t) <-> is_well_formed t = true)).
  { intros Hn. by apply (Hn (length s)). }
  clear s. intros n. induction n as [|n IH]; intros t Hlen.
  - destruct t; [|simpl in Hlen; lia]. simpl. split; eauto.
  - destruct t as [|c rest]; [simpl; split; eauto|].
    simpl in Hlen. simpl.
    destruct (is_unescaped c) eqn:Hu.
    + assert (is_trailing_surrogate (cu_val c) = false
              /\ is_leading_surrogate (cu_val c) = false) as [-> ->].
      { unfold is_unescaped, is_uri_alpha, is_decimal_digit, uri_mark in Hu.
        unfold is_trailing_surrogate, is_leading_surrogate. simpl in Hu.
        split; apply andb_false_iff; lia. }
      rewrite fmap_is_Some. apply IH. lia.
    + destruct (is_trailing_surrogate (cu_val c)); [split; [by intros [? ?]|done]|].
      destruct (is_leading_surrogate (cu_val c)).
      * destruct rest as [|c2 rest']; [split; [by intros [? ?]|done]|].
        destruct (is_trailing_surrogate (cu_val c2)); simpl.
        -- rewrite fmap_is_Some. apply IH. simpl in Hlen. lia.
        -- split; [by intros [? ?]|done].
      * rewrite fmap_is_Some. apply IH. lia.
Qed.

(** *** [encodeURIComponent] can be read back *)

Lemma cu_val_percent : cu_val percent = 37.
Proof. reflexivity. Qed.

Lemma hex_digit_val (d : Z) :
  0 <= d < 16 -> cu_val (hex_digit d) = if d <? 10 then 48 + d else 55 + d.
Proof.
  intros Hd. unfold hex_digit. apply cu_val_chr_of_Z.
  destruct (d <? 10) eqn:E; lia.
Qed.

Lemma hex_digit_inj (d d' : Z) :
  0 <= d < 16 -> 0 <= d' < 16 -> hex_digit d = hex_digit d' -> d = d'.
Proof.
  intros Hd Hd' E. apply (f_equal cu_val) in E.
  rewrite !hex_digit_val in E by done.
  destruct (d <? 10) eqn:E1, (d' <? 10) eqn:E2; lia.
Qed.

Lemma hex_digit_unescaped (d : Z) : 0 <= d < 16 -> is_unescaped (hex_digit d) = true.
Proof.
  intros Hd. unfold is_unescaped. rewrite hex_digit_val by done.
  unfold is_uri_alpha, is_decimal_digit.
  destruct (d <? 10) eqn:E.
  - assert ((48 <=? 48 + d) && (48 + d <=? 57) = true) as ->
      by (apply andb_true_iff; lia).
    by rewrite orb_true_r.
  - assert ((65 <=? 55 + d) && (55 + d <=? 90) = true) as ->
      by (apply andb_true_iff; lia).
    reflexivity.
Qed.

Lemma percent_octet_app_inj (b b' : Z) (r r' : jsstring) :
  0 <= b < 256 -> 0 <= b' < 256 ->
  percent_octet b ++ r = percent_octet b' ++ r' -> b = b' /\ r = r'.
Proof.
  intros Hb Hb'. unfold percent_octet. cbn [app]. intros E.
  assert (hex_digit (b / 16) = hex_digit (b' / 16)) as E1 by congruence.
  assert (hex_digit (b mod 16) = hex_digit (b' mod 16)) as E2 by congruence.
  assert (r = r') as E3 by congruence.
  apply hex_digit_inj in E1; [|Z.div_mod_to_equations; lia..].
  apply hex_digit_inj in E2; [|Z.div_mod_to_equations; lia..].
  split; [|done]. revert E1 E2. Z.div_mod_to_equations. lia.
Qed.


(** The lengths of the encodings are told apart by the first octet. *)
Lemma utf8_octets_cases (cp : Z) :
  0 <= cp < 0x110000 ->
  (cp < 0x80 /\ utf8_octets cp = [cp])
  \/ (0x80 <= cp < 0x800
      /\ utf8_octets cp = [0xC0 + cp / 0x40; 0x80 + cp mod 0x40])
  \/ (0x800 <= cp < 0x10000
      /\ utf8_octets cp =
           [0xE0 + cp / 0x1000; 0x80 + (cp / 0x40) mod 0x40; 0x80 + cp mod 0x40])
  \/ (0x10000 <= cp
      /\ utf8_octets cp =
           [0xF0 + cp / 0x40000; 0x80 + (cp / 0x1000) mod 0x40;
            0x80 + (cp / 0x40) mod 0x40; 0x80 + cp mod 0x40]).
Proof.
  intros Hcp. unfold utf8_octets.
  destruct (cp <? 0x80) eqn:E1; [left; split; [lia|done]|].
  destruct (cp <? 0x800) eqn:E2; [right; left; split; [lia|done]|].
  destruct (cp <? 0x10000) eqn:E3; [right; right; left; split; [lia|done]|].
  right; right; right. split; [lia|done].
Qed.

Lemma utf8_octets_range (cp : Z) :
  0 <= cp < 0x110000 -> Forall octet (utf8_octets cp).
Proof.
  intros Hcp. unfold octet.
  destruct (utf8_octets_cases cp Hcp) as [[H ->]|[[H ->]|[[H ->]|[H ->]]]];
    repeat constructor; Z.div_mod_to_equations; lia.
Qed.

Ltac octet_inj H :=
  apply percent_octet_app_inj in H;
  [|unfold octet; Z.div_mod_to_equations; lia..].

Lemma percent_utf8_app_inj (cp cp' : Z) (r r' : jsstring) :
  0 <= cp < 0x110000 -> 0 <= cp' < 0x110000 ->
  percent_octets (utf8_octets cp) ++ r = percent_octets (utf8_octets cp') ++ r' ->
  cp = cp' /\ r = r'.
Proof.
  intros Hcp Hcp' E. unfold percent_octets in E.
  destruct (utf8_octets_cases cp Hcp) as [[H Hu]|[[H Hu]|[[H Hu]|[H Hu]]]];
    destruct (utf8_octets_cases cp' Hcp') as [[H' Hu']|[[H' Hu']|[[H' Hu']|[H' Hu']]]];
    rewrite Hu, Hu' in E; cbn [flat_map] in E;
    rewrite <- ?app_assoc in E; rewrite ?app_nil_l in E;
    octet_inj E; destruct E as [E0 E];
    try (exfalso; revert E0; Z.div_mod_to_equations; lia).
  - done.
  - octet_inj E. destruct E as [E1 E]. split; [|done].
    revert E0 E1. Z.div_mod_to_equations. lia.
  - octet_inj E. destruct E as [E1 E]. octet_inj E. destruct E as [E2 E].
    split; [|done]. revert E0 E1 E2. Z.div_mod_to_equations. lia.
  - octet_inj E. destruct E as [E1 E]. octet_inj E. destruct E as [E2 E].
    octet_inj E. destruct E as [E3 E].
    split; [|done]. revert E0 E1 E2 E3. Z.div_mod_to_equations. lia.
Qed.

Lemma percent_utf8_head (cp : Z) :
  exists tail, percent_octets (utf8_octets cp) = percent :: tail.
Proof.
  unfold utf8_octets, percent_octets.
  destruct (cp <? 0x80); [|destruct (cp <? 0x800); [|destruct (cp <? 0x10000)]];
    simpl; eauto.
Qed.

Lemma percent_utf8_chars (cp : Z) :
  0 <= cp < 0x110000 ->
  Forall (fun c => is_unescaped c = true \/ c = percent)
    (percent_octets (utf8_octets cp)).
Proof.
  intros Hcp. pose proof (utf8_octets_range cp Hcp) as Hr.
  unfold percent_octets. induction Hr as [|b bs Hb _ IH]; [constructor|].
  simpl. unfold octet in Hb.
  constructor; [by right|].
  constructor; [left; apply hex_digit_unescaped; Z.div_mod_to_equations; lia|].
  constructor; [left; apply hex_digit_unescaped; Z.div_mod_to_equations; lia|].
  exact IH.
Qed.

Lemma is_unescaped_not_percent (c : code_unit) : is_unescaped c = true -> c <> percent.
Proof. intros Hu ->. discriminate. Qed.


Lemma reads_range c rest cp tail : reads c rest cp tail -> 0 <= cp < 0x110000.
Proof.
  intros [[-> _]|(c2 & _ & Hl & Ht & ->)].
  - pose proof (cu_val_range c). lia.
  - unfold is_leading_surrogate, is_trailing_surrogate in *.
    unfold UTF16SurrogatePairToCodePoint. lia.
Qed.

Lemma reads_length c rest cp tail : reads c rest cp tail -> (length tail <= length rest)%nat.
Proof. intros [[_ ->]|(c2 & -> & _)]; simpl; lia. Qed.

Lemma reads_inj c rest c' rest' cp tail :
  reads c rest cp tail -> reads c' rest' cp tail -> c :: rest = c' :: rest'.
Proof.
  intros [[-> ->]|(c2 & -> & Hl & Ht & ->)] [[E ->]|(c2' & -> & Hl' & Ht' & E)].
  - by rewrite (cu_val_inj _ _ E).
  - pose proof (cu_val_range c).
    unfold is_leading_surrogate, is_trailing_surrogate,
      UTF16SurrogatePairToCodePoint in *. lia.
  - pose proof (cu_val_range c').
    unfold is_leading_surrogate, is_trailing_surrogate,
      UTF16SurrogatePairToCodePoint in *. lia.
  - unfold is_leading_surrogate, is_trailing_surrogate,
      UTF16SurrogatePairToCodePoint in *.
    assert (cu_val c = cu_val c') as E1 by lia.
    assert (cu_val c2 = cu_val c2') as E2 by lia.
    by rewrite (cu_val_inj _ _ E1), (cu_val_inj _ _ E2).
Qed.

Lemma encodeURIComponent_cons (c : code_unit) (rest e : jsstring) :
  encodeURIComponent (c :: rest) = Some e ->
  (is_unescaped c = true
   /\ exists e1, encodeURIComponent rest = Some e1 /\ e = c :: e1)
  \/ (exists cp tail e1,
        reads c rest cp tail
        /\ encodeURIComponent tail = Some e1
        /\ e = percent_octets (utf8_octets cp) ++ e1).
Proof.
  simpl. destruct (is_unescaped c).
  - intros He. left. split; [done|].
    destruct (encodeURIComponent rest) as [e1|] eqn:He1; [|discriminate].
    injection He as <-. eauto.
  - destruct (is_trailing_surrogate (cu_val c)); [discriminate|].
    destruct (is_leading_surrogate (cu_val c)) eqn:Hl.
    + destruct rest as [|c2 rest']; [discriminate|].
      destruct (is_trailing_surrogate (cu_val c2)) eqn:Ht; [|discriminate].
      destruct (encodeURIComponent rest') as [e1|] eqn:He1; [|discriminate].
      intros [= <-]. right. eexists _, rest', e1.
      split; [right; eauto 10|done].
    + destruct (encodeURIComponent rest) as [e1|] eqn:He1; [|discriminate].
      intros [= <-]. right. eexists _, rest, e1. split; [by left|done].
Qed.

(** The encoded string determines the string. *)
Lemma encodeURIComponent_inj (s s' e : jsstring) :
  encodeURIComponent s = Some e -> encodeURIComponent s' = Some e -> s = s'.
Proof.
  remember (length s) as n eqn:Hn.
  assert (length s <= n)%nat as Hlen by lia. clear Hn.
  revert s s' e Hlen. induction n as [|n IH]; intros s s' e Hlen Hs Hs'.
  - destruct s; [|simpl in Hlen; lia]. injection Hs as <-.
    destruct s' as [|c' r']; [done|].
    apply encodeURIComponent_cons in Hs'
      as [(_ & e1 & _ & E)|(cp & tail & e1 & _ & _ & E)]; [discriminate|].
    destruct (percent_utf8_head cp) as [t Ht]. rewrite Ht in E. discriminate.
  - destruct s as [|c r].
    { injection Hs as <-. destruct s' as [|c' r']; [done|].
      apply encodeURIComponent_cons in Hs'
        as [(_ & e1 & _ & E)|(cp & tail & e1 & _ & _ & E)]; [discriminate|].
      destruct (percent_utf8_head cp) as [t Ht]. rewrite Ht in E. discriminate. }
    simpl in Hlen.
    destruct s' as [|c' r'].
    { injection Hs' as <-.
      apply encodeURIComponent_cons in Hs
        as [(_ & e1 & _ & E)|(cp & tail & e1 & _ & _ & E)]; [discriminate|].
      destruct (percent_utf8_head cp) as [t Ht]. rewrite Ht in E. discriminate. }
    apply encodeURIComponent_cons in Hs
      as [(Hu & e1 & He1 & ->)|(cp & tail & e1 & Hr & He1 & ->)];
    apply encodeURIComponent_cons in Hs'
      as [(Hu' & e1' & He1' & E)|(cp' & tail' & e1' & Hr' & He1' & E)].
    + injection E as -> ->. f_equal. apply (IH r r' e1'); [lia|done..].
    + destruct (percent_utf8_head cp') as [t Ht]. rewrite Ht in E.
      injection E as -> _. by destruct (is_unescaped_not_percent _ Hu).
    + destruct (percent_utf8_head cp) as [t Ht]. rewrite Ht in E.
      injection E as <- _. by destruct (is_unescaped_not_percent _ Hu').
    + apply percent_utf8_app_inj in E as [-> ->];
        [|by eapply reads_range..].
      assert (tail = tail') as <-.
      { apply (IH tail tail' e1'); [|done..].
        pose proof (reads_length _ _ _ _ Hr). lia. }
      by apply (reads_inj _ _ _ _ cp' tail).
Qed.

(** The encoded string is made of unescaped characters and of "%". *)
Lemma encodeURIComponent_chars (s e : jsstring) :
  encodeURIComponent s = Some e ->
  Forall (fun c => is_unescaped c = true \/ c = percent) e.
Proof.
  remember (length s) as n eqn:Hn.
  assert (length s <= n)%nat as Hlen by lia. clear Hn.
  revert s e Hlen. induction n as [|n IH]; intros s e Hlen Hs.
  - destruct s; [|simpl in Hlen; lia]. injection Hs as <-. constructor.
  - destruct s as [|c r]; [injection Hs as <-; constructor|].
    simpl in Hlen.
    apply encodeURIComponent_cons in Hs
      as [(Hu & e1 & He1 & ->)|(cp & tail & e1 & Hr & He1 & ->)].
    + constructor; [by left|]. apply (IH r); [lia|done].
    + apply Forall_app. split.
      * apply percent_utf8_chars. by eapply reads_range.
      * apply (IH tail); [|done]. pose proof (reads_length _ _ _ _ Hr). lia.
Qed.

End JSFacts.

(** ** The relay socket URL *)

Module VoiceSessionFacts.
Import JS JSFacts VoiceSession Samples.

Lemma buildRelayWsUrl_defined (info : SessionInfo) :
  is_Some (buildRelayWsUrl info) <-> is_well_formed (token info) = true.
Proof.
  rewrite <- encodeURIComponent_defined. unfold buildRelayWsUrl.
  destruct (encodeURIComponent (token info)); simpl; split; eauto;
    by intros [? ?].
Qed.

(** C8. For every SessionInfo, [buildRelayWsUrl] yields the relay base URL
    with at most one trailing slash removed, followed by "/s/", the
    sessionId, "?t=" and the URL-encoded token; it yields such a URL
    whenever the token can be URL-encoded, that is, whenever it holds no
    unpaired surrogate. *)
Theorem buildRelayWsUrl_shape (info : SessionInfo) :
  buildRelayWsUrl info = described_relay_ws_url info
  /\ (is_well_formed (token info) = true ->
      exists t, encodeURIComponent (token info) = Some t
        /\ buildRelayWsUrl info =
             Some (without_one_trailing_slash (relayUrl info) ++ js "/s/"
                     ++ sessionId info ++ js "?t=" ++ t)).
Proof.
  assert (buildRelayWsUrl info = described_relay_ws_url info) as Hshape.
  { unfold buildRelayWsUrl, described_relay_ws_url.
    rewrite replace_slash_at_end_described.
    by destruct (encodeURIComponent (token info)). }
  split; [exact Hshape|].
  intros Hwf. apply encodeURIComponent_defined in Hwf as [t Ht].
  exists t. split; [exact Ht|].
  rewrite Hshape. unfold described_relay_ws_url. by rewrite Ht.
Qed.

Lemma buildRelayWsUrl_shape_witness :
  exists t,
    encodeURIComponent (token sample_info) = Some t
    /\ buildRelayWsUrl sample_info
       = Some (without_one_trailing_slash (relayUrl sample_info) ++ js "/s/"
                 ++ sessionId sample_info ++ js "?t=" ++ t).
Proof.
  apply (proj2 (buildRelayWsUrl_shape sample_info)). reflexivity.
Defined.

Lemma app_length_neq (a b rest : jsstring) :
  length a <> length b -> a ++ rest <> b ++ rest.
Proof.
  intros Hlen E. apply Hlen.
  apply (f_equal (@length code_unit)) in E. rewrite !length_app in E. lia.
Qed.

(** C9. When relayUrl does not end in "/", appending one "/" to it leaves
    the result of [buildRelayWsUrl] unchanged; of two or more appended
    slashes only one is stripped, and the result differs from the one for
    the bare relayUrl. *)
Theorem buildRelayWsUrl_trailing_slash (info : SessionInfo) :
  ends_with_slash (relayUrl info) = false ->
  buildRelayWsUrl (with_relayUrl info (relayUrl info ++ [slash]))
    = buildRelayWsUrl info
  /\ forall n, (2 <= n)%nat ->
       replace_slash_at_end (relayUrl info ++ repeat slash n)
         = relayUrl info ++ repeat slash (n - 1)
       /\ (is_Some (buildRelayWsUrl info) ->
           buildRelayWsUrl (with_relayUrl info (relayUrl info ++ repeat slash n))
             <> buildRelayWsUrl info).
Proof.
  intros Hlast. split.
  - unfold buildRelayWsUrl. simpl.
    by rewrite replace_slash_at_end_snoc, replace_slash_at_end_other.
  - intros n Hn.
    assert (replace_slash_at_end (relayUrl info ++ repeat slash n)
            = relayUrl info ++ repeat slash (n - 1)) as Hstrip.
    { destruct n as [|n]; [lia|].
      replace (S n - 1)%nat with n by lia.
      change (repeat slash (S n)) with (slash :: repeat slash n).
      rewrite repeat_cons, app_assoc. apply replace_slash_at_end_snoc. }
    split; [exact Hstrip|].
    intros [u Hu]. rewrite Hu. revert Hu. unfold buildRelayWsUrl. simpl.
    rewrite Hstrip, (replace_slash_at_end_other _ Hlast).
    destruct (encodeURIComponent (token info)) as [t|]; simpl; [|discriminate].
    intros [= <-] [= E]. revert E.
    apply app_length_neq. rewrite length_app, repeat_length. lia.
Qed.

Lemma buildRelayWsUrl_trailing_slash_witness :
  buildRelayWsUrl
    (with_relayUrl sample_info (relayUrl sample_info ++ [slash]))
    = buildRelayWsUrl sample_info
  /\ buildRelayWsUrl
       (with_relayUrl sample_info (relayUrl sample_info ++ repeat slash 2))
       <> buildRelayWsUrl sample_info.
Proof.
  destruct (buildRelayWsUrl_trailing_slash sample_info eq_refl) as [H1 H2].
  split; [exact H1|].
  destruct (H2 2%nat (le_n 2)) as [_ H3]. apply H3. by eexists.
Defined.

End VoiceSessionFacts.

(** ** Insertion of a transcript at the caret *)

Module TranscriptInjectorFacts.
Import JS TranscriptInjector Samples MoreSamples.



Section Setter.

Variable engine : InputType -> jsstring -> jsstring.


Lemma has_selection_accepts (c : ElementClass) (v : jsstring) :
  has_selection c = true -> setter_throws c v = false.
Proof. by destruct c as [[]| |]. Qed.


(** An element that is neither a text control nor editable is left alone. *)
Lemma insertAtCaret_not_editable (t : jsstring) (doc : Document) (el : Element) :
  activeElement doc = Some el ->
  class el = OtherHTMLElement -> is_editable el = false ->
  insertAtCaret engine t doc = (doc, Returned).
Proof.
  intros H Hc He. unfold insertAtCaret, is_text_control.
  rewrite H, He, Hc. by rewrite andb_false_r.
Qed.

(** On a text control with a selection the value written is the old
    prefix, the text and the old suffix, as the element sanitizes them,
    and the caret is set after the text, or at the end of the value when
    that comes first. *)
Lemma insertAtCaret_text_control (t : jsstring) (doc : Document) (el : Element)
    (start end_ : nat) :
  activeElement doc = Some el ->
  has_selection (class el) = true ->
  selectionStart el = Num start -> selectionEnd el = Num end_ ->
  insertAtCaret engine t doc =
    ({| activeElement :=
          Some {| class := class el; contenteditable := contenteditable el;
                  value :=
                    sanitize engine (class el)
                      (firstn start (value el) ++ t ++ skipn end_ (value el));
                  selectionStart :=
                    Num (Nat.min (start + length t)
                           (length (sanitize engine (class el)
                                      (firstn start (value el) ++ t
                                         ++ skipn end_ (value el)))));
                  selectionEnd :=
                    Num (Nat.min (start + length t)
                           (length (sanitize engine (class el)
                                      (firstn start (value el) ++ t
                                         ++ skipn end_ (value el))))) |};
        log := log doc ++ [InputEvent] |}, Returned).
Proof.
  intros H Hc Hs He. unfold insertAtCaret. rewrite H.
  assert (is_text_control el = true) as ->.
  { unfold is_text_control. rewrite Hs.
    by destruct (class el) as [ty| |]. }
  unfold set_value. rewrite (has_selection_accepts _ _ Hc).
  unfold setSelectionRange, substring_to, substring_from.
  cbn [selectionStart selectionEnd class contenteditable value].
  by rewrite Hs, He.
Qed.



End Setter.


End TranscriptInjectorFacts.

(** ** The popup component *)

Module PhoneMicPopupFacts.
Import JS JSFacts PhoneMicPopup Samples.

Lemma connectRelay_session (c : bool) (info : SessionInfo) (st : Popup) :
  session (connectRelay c info st).1 = session st.
Proof.
  unfold connectRelay. destruct (relay_socket_url info); [destruct c|]; reflexivity.
Qed.

(** A run of [createSession] that got the relay's answer installs a
    session made from it. *)
Lemma createSession_installs (relayBase : jsstring) (env : CreateEnv) (st : Popup)
    (code : Z) (data : SessionResponse) :
  fetch_outcome env = FetchResolved true code (Some data) ->
  session (createSession relayBase env st).1 =
    Some {| sessionId := r_sessionId data; token := r_token data;
            relayUrl := relayUrl_or (r_relayUrl data) relayBase;
            expiresAt := now env + SESSION_TTL_MS |}.
Proof.
  intros Hf. unfold createSession. rewrite Hf. simpl.
  destruct (pairing_url _ _ _); [|reflexivity].
  destruct (qr_outcome env); [reflexivity|].
  match goal with |- context [connectRelay ?c ?i ?s] =>
    pose proof (connectRelay_session c i s) as Hc;
    destruct (connectRelay c i s) as [st' fx] end.
  simpl in *. exact Hc.
Qed.

(** Any other run of [createSession] leaves the session cell as it was. *)
Lemma createSession_otherwise (relayBase : jsstring) (env : CreateEnv) (st : Popup) :
  (forall code data, fetch_outcome env <> FetchResolved true code (Some data)) ->
  session (createSession relayBase env st).1 = session st.
Proof.
  intros Hf. unfold createSession.
  destruct (fetch_outcome env) as [|ok code body]; [reflexivity|].
  destruct ok; [|reflexivity]. destruct body as [data|]; [|reflexivity].
  by destruct (Hf code data).
Qed.

Section Messages.

Context {object : Type}.
Variable object_to_string : object -> option jsstring.
Variable number_to_string : Z -> jsstring.

Local Abbreviation onmessage := (onmessage object_to_string number_to_string).
Local Abbreviation step := (step object_to_string number_to_string).
Local Abbreviation run := (run object_to_string number_to_string).

Lemma onmessage_session (data : option (Parsed object)) (time : Z)
    (tabs : option (list Tab)) (st : Popup) :
  session (onmessage data time tabs st).1 = session st.
Proof.
  unfold PhoneMicPopup.onmessage. destruct data as [msg|]; [|reflexivity].
  destruct (is_transcript msg); [|reflexivity].
  destruct (ToString _ _ _); [|reflexivity].
  by destruct (first_tab_id tabs).
Qed.

(** No action but [createSession] touches a session that is held, except
    to end it. *)
Lemma step_keeps_session (st : Popup) (a : Action object) (info : SessionInfo) :
  is_create a = false -> session st = Some info ->
  session (step st a).1 = Some info \/ session (step st a).1 = None.
Proof.
  intros Ha Hs. destruct a; simpl in *; try discriminate; try (by left);
    try (by right).
  left. by rewrite onmessage_session.
Qed.

Lemma run_without_session (st : Popup) (actions : list (Action object)) :
  Forall (fun a => is_create a = false) actions ->
  session st = None -> session (run st actions) = None.
Proof.
  intros Hall. revert st. induction Hall as [|a rest Ha _ IH]; intros st Hs;
    [exact Hs|].
  simpl. apply IH. destruct a; simpl in *; try discriminate; try done.
  by rewrite onmessage_session.
Qed.

Lemma run_keeps_session (st : Popup) (actions : list (Action object))
    (info : SessionInfo) :
  Forall (fun a => is_create a = false) actions ->
  session st = Some info ->
  session (run st actions) = Some info \/ session (run st actions) = None.
Proof.
  intros Hall. revert st. induction Hall as [|a rest Ha Hrest IH]; intros st Hs;
    [by left|].
  simpl. destruct (step_keeps_session st a info Ha Hs) as [H|H].
  - by apply IH.
  - right. by apply run_without_session.
Qed.

(** Every session the component holds was made by a run of
    [createSession], with the expiry computed in that run. *)
Lemma run_session_origin (actions : list (Action object)) (st : Popup)
    (info : SessionInfo) :
  session (run st actions) = Some info ->
  session st = Some info
  \/ exists relayBase env,
       In (CreateSession relayBase env) actions
       /\ expiresAt info = now env + SESSION_TTL_MS.
Proof.
  revert st. induction actions as [|a rest IH]; intros st Hrun; [by left|].
  simpl in Hrun. apply IH in Hrun as [Hnow | (rb & env & Hin & He)].
  - destruct a as [rb env| | | | | | |data time tabs]; simpl in Hnow;
      try (by left).
    + destruct (fetch_outcome env) as [|ok code body] eqn:Hf.
      { left. rewrite <- Hnow. symmetry. apply createSession_otherwise.
        intros ? ?. by rewrite Hf. }
      destruct ok, body as [data|];
        try (left; rewrite <- Hnow; symmetry; apply createSession_otherwise;
             intros ? ?; by rewrite Hf).
      rewrite (createSession_installs rb env st code data Hf) in Hnow.
      right. exists rb, env. split; [by left|]. by injection Hnow as <-.
    + left. by rewrite onmessage_session in Hnow.
  - right. exists rb, env. split; [by right|exact He].
Qed.

End Messages.

(** C5. The life time of a session is fixed, between 30 and 60 minutes; a
    session made by [createSession] at the instant issuedAt has
    expiresAt = issuedAt + TTL, and the component never holds a session of
    another make; whatever the component does afterwards, short of creating
    a new session, it holds that very session, expiresAt included, or
    none. *)
Theorem session_expiry_fixed :
  30 * 60 * 1000 <= SESSION_TTL_MS <= 60 * 60 * 1000
  /\ (forall relayBase env st code data,
        fetch_outcome env = FetchResolved true code (Some data) ->
        exists info,
          session (createSession relayBase env st).1 = Some info
          /\ sessionId info = r_sessionId data
          /\ token info = r_token data
          /\ expiresAt info = now env + SESSION_TTL_MS)
  /\ (forall (object : Type) (ots : object -> option jsstring) (nts : Z -> jsstring)
             (actions : list (Action object)) (info : SessionInfo),
        session (run ots nts initial actions) = Some info ->
        exists relayBase env,
          In (CreateSession relayBase env) actions
          /\ expiresAt info = now env + SESSION_TTL_MS)
  /\ (forall (object : Type) (ots : object -> option jsstring) (nts : Z -> jsstring)
             (st : Popup) (actions : list (Action object)) (info : SessionInfo),
        Forall (fun a => is_create a = false) actions ->
        session st = Some info ->
        forall info', session (run ots nts st actions) = Some info' ->
                      info' = info /\ expiresAt info' = expiresAt info).
Proof.
  split; [unfold SESSION_TTL_MS; lia|]. split; [|split].
  - intros relayBase env st code data Hf. eexists.
    split; [by apply (createSession_installs _ _ _ code data)|]. by simpl.
  - intros object ots nts actions info Hrun.
    by destruct (run_session_origin ots nts actions initial info Hrun).
  - intros object ots nts st actions info Hall Hs info' Hrun.
    destruct (run_keeps_session ots nts st actions info Hall Hs) as [H|H];
      rewrite H in Hrun; [|discriminate].
    by injection Hrun as <-.
Qed.

Lemma session_expiry_fixed_witness :
  (exists info,
     session (createSession (js "https://relay.example") sample_env initial).1
       = Some info
     /\ sessionId info = js "abc"
     /\ token info = js "a.b.c"
     /\ expiresAt info = 1700000000000 + SESSION_TTL_MS)
  /\ forall info',
       session
         (run (fun _ : Empty_set => None) (fun _ => [])
            (createSession (js "https://relay.example") sample_env initial).1
            [SocketOpen; SocketMessage None 1700000000500 None; SocketClose])
         = Some info' ->
       expiresAt info' = 1700000000000 + SESSION_TTL_MS.
Proof.
  destruct session_expiry_fixed as (_ & Hcreate & _ & Hkeep). split.
  - apply (Hcreate (js "https://relay.example") sample_env initial 201 _ eq_refl).
  - intros info' Hrun.
    destruct (Hkeep Empty_set (fun _ => None) (fun _ => [])
                (createSession (js "https://relay.example") sample_env initial).1
                [SocketOpen; SocketMessage None 1700000000500 None; SocketClose]
                {| sessionId := js "abc"; token := js "a.b.c";
                   relayUrl := js "wss://relay.example/";
                   expiresAt := 1700000000000 + SESSION_TTL_MS |}
                ltac:(repeat constructor) eq_refl info' Hrun) as [_ ->].
    reflexivity.
Defined.

(** *** The pairing URL *)


Lemma component_char_not_ampersand (c : code_unit) :
  is_unescaped c = true \/ c = percent -> c <> ampersand.
Proof. intros [Hu| ->] E; [subst c|]; discriminate. Qed.

Lemma encodeURIComponent_no_ampersand (s e : jsstring) :
  encodeURIComponent s = Some e -> Forall (fun c => c <> ampersand) e.
Proof.
  intros He. eapply Forall_impl; [by eapply encodeURIComponent_chars|].
  apply component_char_not_ampersand.
Qed.

(** A string is cut at its first "&" in one way only. *)
Lemma cut_at_ampersand (a a' x x' : jsstring) :
  Forall (fun c => c <> ampersand) a -> Forall (fun c => c <> ampersand) a' ->
  a ++ ampersand :: x = a' ++ ampersand :: x' -> a = a' /\ x = x'.
Proof.
  intros Ha. revert a'. induction Ha as [|c a Hc Ha IH]; intros a' Ha' E.
  - destruct Ha' as [|c' a' Hc' Ha']; simpl in E.
    + by injection E as ->.
    + by injection E as <- _.
  - destruct Ha' as [|c' a' Hc' Ha']; simpl in E.
    + by injection E as -> _.
    + injection E as -> E. destruct (IH a' Ha' E) as [-> ->]. done.
Qed.

Lemma pairing_url_inv (info : SessionInfo) (lang mdl url : jsstring) :
  pairing_url info lang mdl = Some url ->
  exists s t l m,
    encodeURIComponent (sessionId info) = Some s
    /\ encodeURIComponent (token info) = Some t
    /\ encodeURIComponent lang = Some l
    /\ encodeURIComponent mdl = Some m
    /\ url = js "https://voice.paymore.app?s=" ++ s ++ js "&t=" ++ t
               ++ js "&lang=" ++ l ++ js "&model=" ++ m.
Proof.
  unfold pairing_url.
  destruct (encodeURIComponent (sessionId info)) as [s|]; [|discriminate].
  destruct (encodeURIComponent (token info)) as [t|]; [|discriminate].
  destruct (encodeURIComponent lang) as [l|]; [|discriminate].
  destruct (encodeURIComponent mdl) as [m|]; [|discriminate].
  simpl. intros [= <-]. by exists s, t, l, m.
Qed.

(** The pairing URL determines the session id and the token it was made
    from. *)
Lemma pairing_url_inj (info info' : SessionInfo) (lang lang' mdl mdl' url : jsstring) :
  pairing_url info lang mdl = Some url ->
  pairing_url info' lang' mdl' = Some url ->
  sessionId info' = sessionId info /\ token info' = token info.
Proof.
  intros H H'.
  apply pairing_url_inv in H as (s & t & l & m & Hs & Ht & Hl & Hm & ->).
  apply pairing_url_inv in H' as (s' & t' & l' & m' & Hs' & Ht' & Hl' & Hm' & E).
  apply app_inv_head in E.
  change (js "&t=" ++ ?x) with (ampersand :: js "t=" ++ x) in E.
  apply cut_at_ampersand in E as [-> E];
    [|by eapply encodeURIComponent_no_ampersand..].
  apply app_inv_head in E.
  change (js "&lang=" ++ ?x) with (ampersand :: js "lang=" ++ x) in E.
  apply cut_at_ampersand in E as [-> _];
    [|by eapply encodeURIComponent_no_ampersand..].
  split; by eapply encodeURIComponent_inj.
Qed.

(** A run of [createSession] ends waiting for the phone exactly when every
    step of it went through. *)
Lemma createSession_success (relayBase : jsstring) (env : CreateEnv) (st : Popup) :
  status (createSession relayBase env st).1 = WaitingForPhone ->
  exists code data url qr fx,
    fetch_outcome env = FetchResolved true code (Some data)
    /\ qr_outcome env = QrResolved qr
    /\ pairing_url
         {| sessionId := r_sessionId data; token := r_token data;
            relayUrl := relayUrl_or (r_relayUrl data) relayBase;
            expiresAt := now env + SESSION_TTL_MS |}
         (language st) (model st) = Some url
    /\ (createSession relayBase env st).2 =
         [Fetch (sessions_url relayBase) (language st) (model st);
          GenerateQr url 256] ++ fx.
Proof.
  unfold createSession.
  destruct (fetch_outcome env) as [|ok code body]; [discriminate|].
  destruct ok; [|discriminate]. destruct body as [data|]; [|discriminate].
  simpl. destruct (pairing_url _ _ _) as [url|] eqn:Hurl; [|discriminate].
  destruct (qr_outcome env) as [|qr]; [discriminate|].
  match goal with |- context [connectRelay ?c ?i ?s] =>
    destruct (connectRelay c i s) as [st' fx] end.
  intros _. exists code, data, url, qr, fx. done.
Qed.

(** C7. Whenever [createSession] succeeds, the URL it hands to the QR
    generator is the pairing page followed by the URL-encoded sessionId and
    token (and the language and model) of the session it installed, and
    that URL encodes them: any session whose pairing URL is this one has
    the same sessionId and the same token. *)
Theorem pairing_url_encodes_session (relayBase : jsstring) (env : CreateEnv)
    (st : Popup) :
  status (createSession relayBase env st).1 = WaitingForPhone ->
  exists info url s t l m,
    session (createSession relayBase env st).1 = Some info
    /\ In (GenerateQr url 256) (createSession relayBase env st).2
    /\ encodeURIComponent (sessionId info) = Some s
    /\ encodeURIComponent (token info) = Some t
    /\ encodeURIComponent (language st) = Some l
    /\ encodeURIComponent (model st) = Some m
    /\ url = js "https://voice.paymore.app?s=" ++ s ++ js "&t=" ++ t
               ++ js "&lang=" ++ l ++ js "&model=" ++ m
    /\ forall info' lang' mdl',
         pairing_url info' lang' mdl' = Some url ->
         sessionId info' = sessionId info /\ token info' = token info.
Proof.
  intros Hok.
  destruct (createSession_success relayBase env st Hok)
    as (code & data & url & qr & fx & Hf & Hq & Hurl & Hfx).
  pose proof (pairing_url_inv _ _ _ _ Hurl) as (s & t & l & m & Hs & Ht & Hl & Hm & Hu).
  eexists _, url, s, t, l, m.
  split; [by apply (createSession_installs _ _ _ code data)|].
  split; [rewrite Hfx; right; by left|].
  do 4 (split; [done|]). split; [done|].
  intros info' lang' mdl' H'. by eapply pairing_url_inj.
Qed.

Lemma pairing_url_encodes_session_witness :
  exists info url,
    session (createSession (js "https://relay.example") sample_env initial).1
      = Some info
    /\ In (GenerateQr url 256)
         (createSession (js "https://relay.example") sample_env initial).2
    /\ url = js "https://voice.paymore.app?s=abc&t=a.b.c&lang=en-US&model=gemini-2.5-pro"
    /\ forall info' lang' mdl',
         pairing_url info' lang' mdl' = Some url ->
         sessionId info' = sessionId info /\ token info' = token info.
Proof.
  destruct (pairing_url_encodes_session (js "https://relay.example") sample_env
              initial eq_refl)
    as (info & url & s & t & l & m & Hi & Hin & Hs & Ht & Hl & Hm & Hu & Hinj).
  exists info, url. split; [exact Hi|]. split; [exact Hin|]. split; [|exact Hinj].
  injection Hi as <-. simpl in Hs, Ht, Hl, Hm.
  injection Hs as <-. injection Ht as <-. injection Hl as <-. injection Hm as <-.
  exact Hu.
Defined.

(** *** What [onmessage] forwards to the content script *)







End PhoneMicPopupFacts.

(** ** The relay *)

Module RelayFacts.
Import JS Relay RelayDelivery Samples MoreSamples.

(** *** Token service *)

Section TokenService.

Context {Signature : Type} `{EqDecision Signature}.
Variable sign : Claims -> Signature.
Variable serialize : Claims -> Signature -> jsstring.
Variable parse : jsstring -> option (Claims * Signature).

(** [verify] accepts exactly the well-formed, rightly signed credentials
    whose expiry lies ahead. *)
Lemma verify_verified (time : Z) (credential : jsstring) (s : jsstring) (e : Z) :
  verify sign parse time credential = Verified s e <->
  exists signature,
    parse credential = Some ({| sid := s; exp := e |}, signature)
    /\ signature = sign {| sid := s; exp := e |} /\ time < e.
Proof.
  unfold verify. split.
  - destruct (parse credential) as [[[s' e'] signature]|]; [|discriminate].
    case_bool_decide as Hsig; [|discriminate]. simpl.
    destruct (e' <=? time) eqn:He; [discriminate|].
    intros [= -> ->]. exists signature. split; [done|]. split; [done|lia].
  - intros (signature & -> & -> & He).
    rewrite bool_decide_eq_true_2 by done. simpl.
    destruct (e <=? time) eqn:He'; [lia|done].
Qed.

(** A credential that was issued verifies until its expiry, provided the
    wire format can be read back. *)
Lemma verify_issue (sessionId : jsstring) (issuedAt ttl time : Z) :
  (forall c g, parse (serialize c g) = Some (c, g)) ->
  time < issuedAt + ttl ->
  verify sign parse time (issue sign serialize sessionId issuedAt ttl)
    = Verified sessionId (issuedAt + ttl).
Proof.
  intros Hparse Ht. apply verify_verified. unfold issue.
  eexists. split; [apply Hparse|]. split; [done|lia].
Qed.

(** C4. [verify] answers Invalid for a credential whose structure is
    malformed, for one whose signature does not match, and for one whose
    expiry is at or before the current time: the instant expiresAt itself
    counts as expired. *)
Theorem verify_invalid (time : Z) (credential : jsstring) :
  malformed parse credential
  \/ signature_mismatch sign parse credential
  \/ expired parse time credential ->
  verify sign parse time credential = Invalid.
Proof.
  unfold malformed, signature_mismatch, expired, verify.
  intros [-> | [(claims & signature & -> & Hsig) | (claims & signature & -> & He)]].
  - reflexivity.
  - by rewrite bool_decide_eq_false_2.
  - case_bool_decide; [|reflexivity].
    destruct (exp claims <=? time) eqn:He'; [reflexivity|lia].
Qed.

End TokenService.

Lemma verify_invalid_witness :
  verify toy_sign toy_parse 1000 (js "abc") = Invalid.
Proof.
  apply (verify_invalid toy_sign toy_parse 1000 (js "abc")).
  right; right. exists {| sid := js "abc"; exp := 1000 |}, 1003.
  split; [reflexivity|]. simpl. lia.
Defined.

(** Before the expiry the same credential verifies. *)
Example verify_before_expiry :
  verify toy_sign toy_parse 999 (js "abc") = Verified (js "abc") 1000.
Proof. reflexivity. Qed.

(** The relay stamps a transcript only when the producer sent no [ts]. *)
Lemma stamp_keeps_supplied (time : Z) (i : bool) (t : jsstring) (ts : Z) :
  stamp time i t (Some ts) = {| interim := i; text := t; timestampMs := ts |}.
Proof. reflexivity. Qed.

Lemma stamp_fills_absent (time : Z) (i : bool) (t : jsstring) :
  stamp time i t None = {| interim := i; text := t; timestampMs := time |}.
Proof. reflexivity. Qed.

(** *** Membership *)

Lemma member_Some (id : ConnId) (room : Room) (c : Connection) :
  member id room = Some c -> In c room /\ conn_id c = id.
Proof.
  unfold member. intros H. apply find_some in H as [Hin Hid].
  split; [done|]. by apply Nat.eqb_eq.
Qed.

Lemma member_None (id : ConnId) (room : Room) :
  member id room = None <-> ~ In id (map conn_id room).
Proof.
  unfold member. induction room as [|c room IH]; simpl; [tauto|].
  unfold has_id at 1. destruct (Nat.eqb_spec (conn_id c) id) as [E|E].
  - split; [discriminate|]. intros Hn. destruct Hn. by left.
  - rewrite IH. tauto.
Qed.

Lemma member_app (id : ConnId) (r1 r2 : Room) :
  member id (r1 ++ r2) =
    match member id r1 with Some c => Some c | None => member id r2 end.
Proof.
  unfold member. induction r1 as [|c r1 IH]; simpl; [done|].
  by destruct (has_id id c).
Qed.

Lemma member_remove (id j : ConnId) (room : Room) :
  member id (remove j room) = if Nat.eqb id j then None else member id room.
Proof.
  unfold member, remove, has_id. induction room as [|c room IH]; simpl.
  - by destruct (Nat.eqb id j).
  - destruct (Nat.eqb_spec (conn_id c) j) as [E|E]; simpl.
    + rewrite IH. destruct (Nat.eqb_spec id j) as [E'|E']; [done|].
      destruct (Nat.eqb_spec (conn_id c) id); [lia|done].
    + destruct (Nat.eqb_spec (conn_id c) id) as [E'|E'].
      * destruct (Nat.eqb_spec id j); [lia|done].
      * exact IH.
Qed.

Lemma remove_ids (j : ConnId) (room : Room) :
  map conn_id (remove j room) `sublist_of` map conn_id room.
Proof.
  unfold remove. induction room as [|c room IH]; simpl; [constructor|].
  destruct (negb (has_id j c)); simpl; by constructor.
Qed.

(** *** At most one producer *)

Lemma producers_app (r1 r2 : Room) :
  producers (r1 ++ r2) = (producers r1 + producers r2)%nat.
Proof. unfold producers. by rewrite List.filter_app, length_app. Qed.

Lemma has_producer_false (room : Room) :
  has_producer room = false -> producers room = 0%nat.
Proof.
  unfold has_producer, producers. induction room as [|c room IH]; [done|].
  simpl. destruct (is_producer c); [discriminate|]. exact IH.
Qed.

Lemma producers_remove (j : ConnId) (room : Room) :
  (producers (remove j room) <= producers room)%nat.
Proof.
  unfold producers, remove. induction room as [|c room IH]; [done|].
  simpl. destruct (has_id j c), (is_producer c) eqn:Hp; simpl; rewrite ?Hp; simpl; lia.
Qed.

Lemma producers_fan_out (capacity : nat) (ev : TranscriptEvent) (room : Room) :
  producers (fan_out capacity ev room).1 = producers room.
Proof.
  unfold producers. induction room as [|c room IH]; [done|].
  simpl. destruct (fan_out capacity ev room) as [rest' closed]. simpl in IH.
  unfold is_producer at 2. destruct (conn_role c) eqn:Hr; simpl.
  - unfold is_producer at 1. rewrite Hr. simpl. by rewrite IH.
  - destruct (enqueue capacity (outbound c) ev); simpl; [|exact IH].
    unfold is_producer at 1. simpl. rewrite Hr. exact IH.
Qed.

Lemma producers_flush (id : ConnId) (q : list ServerMessage) (room : Room) :
  producers (map (fun d => if has_id id d then set_outbound q d else d) room)
    = producers room.
Proof.
  unfold producers. induction room as [|c room IH]; [done|].
  simpl. replace (is_producer (if has_id id c then set_outbound q c else c))
    with (is_producer c) by (by destruct (has_id id c)).
  destruct (is_producer c); simpl; by rewrite IH.
Qed.

Lemma room_step_producers (capacity : nat) (s : jsstring) (room : Room)
    (cmd : Command) :
  (producers room <= 1)%nat ->
  (producers (room_step capacity s room cmd).1 <= 1)%nat.
Proof.
  intros Hinv. destruct cmd as [id role v|id frame time rate|id|id|]; simpl.
  - unfold on_connect. destruct (member id room); [done|].
    destruct (authenticate s v); [done|].
    unfold join. destruct role.
    + destruct (has_producer room) eqn:Hp; [done|].
      cbn [fst]. rewrite producers_app, (has_producer_false _ Hp).
      cbv. lia.
    + cbn [fst]. rewrite producers_app.
      change (producers [_]) with 0%nat. lia.
  - unfold on_frame. destruct (member id room) as [c|]; [|done].
    destruct frame as [| |[|i t ts]]; simpl;
      try (pose proof (producers_remove id room); lia); try done.
    destruct (conn_role c); [|done].
    destruct rate; simpl; try done.
    + pose proof (producers_fan_out capacity (stamp time i t ts) room) as Hf.
      destruct (fan_out capacity (stamp time i t ts) room). simpl in *. lia.
    + pose proof (producers_remove id room). lia.
  - unfold on_flush. destruct (member id room) as [c|]; [|done].
    destruct (outbound c); [done|]. simpl. by rewrite producers_flush.
  - destruct (member id room); [|done]. simpl.
    pose proof (producers_remove id room). lia.
  - unfold producers. simpl. lia.
Qed.

Lemma hub_step_producers (capacity : nat) (hub : gmap jsstring Room)
    (c : jsstring * Command) :
  map_Forall (fun _ room => (producers room <= 1)%nat) hub ->
  map_Forall (fun _ room => (producers room <= 1)%nat) (hub_step capacity hub c).1.
Proof.
  intros Hinv. destruct c as [s cmd]. unfold hub_step.
  assert (producers (default [] (hub !! s)) <= 1)%nat as H0.
  { destruct (hub !! s) as [room|] eqn:E; simpl; [by apply (Hinv s)|].
    unfold producers. simpl. lia. }
  pose proof (room_step_producers capacity s _ cmd H0) as H1.
  destruct (room_step capacity s (default [] (hub !! s)) cmd) as [room' evs].
  simpl in *. destruct room' as [|d room'].
  - by apply map_Forall_delete.
  - by apply map_Forall_insert_2.
Qed.

Lemma hub_run_producers (capacity : nat) (cmds : list (jsstring * Command))
    (hub : gmap jsstring Room) :
  map_Forall (fun _ room => (producers room <= 1)%nat) hub ->
  map_Forall (fun _ room => (producers room <= 1)%nat) (hub_run capacity hub cmds).
Proof.
  revert hub. induction cmds as [|c cmds IH]; intros hub Hinv; [done|].
  simpl. apply IH. by apply hub_step_producers.
Qed.

(** C1. At every instant every room of the table holds at most one
    producer.  A second connection that asks for the producer role of an
    occupied room is closed with the code producer-slot-occupied; the room
    is left exactly as it was, so that whatever follows, the original
    producer's messages included, is handled as if the attempt had not
    been made. *)
Theorem one_producer_per_room (capacity : nat) :
  (forall cmds s room,
     hub_run capacity ∅ cmds !! s = Some room -> (producers room <= 1)%nat)
  /\ (forall s room id e,
        has_producer room = true -> member id room = None ->
        room_step capacity s room (Connect id Producer (Verified s e))
          = (room, [Closed id ProducerSlotOccupied])
        /\ forall cmds,
             room_run capacity s
               (room_step capacity s room (Connect id Producer (Verified s e))).1 cmds
             = room_run capacity s room cmds).
Proof.
  split.
  - intros cmds s room Hlook.
    by apply (hub_run_producers capacity cmds ∅ (map_Forall_empty _) s room).
  - intros s room id e Hp Hm.
    assert (room_step capacity s room (Connect id Producer (Verified s e))
            = (room, [Closed id ProducerSlotOccupied])) as Hstep.
    { simpl. unfold on_connect, authenticate, join. rewrite Hm.
      rewrite bool_decide_eq_true_2 by done. by rewrite Hp. }
    split; [exact Hstep|]. intros cmds. by rewrite Hstep.
Qed.

Lemma one_producer_per_room_witness :
  room_step 2%nat (js "abc") sample_room
    (Connect 3%nat Producer (Verified (js "abc") 1000))
    = (sample_room, [Closed 3%nat ProducerSlotOccupied])
  /\ forall cmds,
       room_run 2%nat (js "abc")
         (room_step 2%nat (js "abc") sample_room
            (Connect 3%nat Producer (Verified (js "abc") 1000))).1 cmds
       = room_run 2%nat (js "abc") sample_room cmds.
Proof.
  destruct (one_producer_per_room 2%nat) as [_ H].
  apply (H (js "abc") sample_room 3%nat 1000); reflexivity.
Defined.

(** *** Outbound queues *)

Lemma transcripts_app (q1 q2 : list ServerMessage) :
  transcripts (q1 ++ q2) = transcripts q1 ++ transcripts q2.
Proof. apply omap_app. Qed.

Lemma finals_app (l1 l2 : list TranscriptEvent) :
  finals (l1 ++ l2) = finals l1 ++ finals l2.
Proof. apply List.filter_app. Qed.

Lemma finals_interim (ev : TranscriptEvent) (l : list TranscriptEvent) :
  interim ev = true -> finals (ev :: l) = finals l.
Proof. intros H. unfold finals, is_final. simpl. by rewrite H. Qed.

(** The message dropped is the oldest interim transcript of the queue. *)
Lemma drop_oldest_interim_Some (q q' : list ServerMessage) :
  drop_oldest_interim q = Some q' ->
  exists l old r,
    q = l ++ ServerTranscript old :: r /\ q' = l ++ r
    /\ interim old = true /\ Forall (fun m => is_interim m = false) l.
Proof.
  revert q'. induction q as [|m q IH]; intros q'; [discriminate|].
  simpl. destruct (is_interim m) eqn:Hm.
  - intros [= <-]. destruct m as [| |old]; try discriminate.
    exists [], old, q. by repeat split.
  - destruct (drop_oldest_interim q) as [q1|]; [|discriminate].
    intros [= <-]. destruct (IH q1 eq_refl) as (l & old & r & -> & -> & Ho & Hl).
    exists (m :: l), old, r. repeat split; [done|]. by constructor.
Qed.

Lemma drop_oldest_interim_None (q : list ServerMessage) :
  drop_oldest_interim q = None -> Forall (fun m => is_interim m = false) q.
Proof.
  induction q as [|m q IH]; [constructor|].
  simpl. destruct (is_interim m) eqn:Hm; [discriminate|].
  destruct (drop_oldest_interim q); [discriminate|].
  intros _. constructor; [done|]. by apply IH.
Qed.

Section Queue.

Variable capacity : nat.

Lemma enqueue_queued (q q' : list ServerMessage) (ev : TranscriptEvent) :
  enqueue capacity q ev = Queued q' ->
  transcripts q' `sublist_of` transcripts q ++ [ev]
  /\ finals (transcripts q') = finals (transcripts q ++ [ev]).
Proof.
  unfold enqueue. destruct (length q <? capacity)%nat.
  - intros [= <-]. by rewrite transcripts_app.
  - destruct (drop_oldest_interim q) as [q1|] eqn:Hd.
    + intros [= <-].
      apply drop_oldest_interim_Some in Hd as (l & old & r & -> & -> & Ho & _).
      rewrite !transcripts_app. simpl. rewrite <- !app_assoc. split.
      * apply sublist_app; [done|]. by apply sublist_cons.
      * rewrite !finals_app. by rewrite (finals_interim old).
    + destruct (interim ev) eqn:Hi; [|discriminate]. intros [= <-]. split.
      * by apply sublist_inserts_r.
      * rewrite finals_app. rewrite (finals_interim ev []) by done.
        by rewrite app_nil_r.
Qed.

Lemma enqueue_overflow (q : list ServerMessage) (ev : TranscriptEvent) :
  enqueue capacity q ev = Overflow ->
  interim ev = false /\ (capacity <= length q)%nat
  /\ Forall (fun m => is_interim m = false) q.
Proof.
  unfold enqueue. destruct (Nat.ltb_spec (length q) capacity); [discriminate|].
  destruct (drop_oldest_interim q) eqn:Hd; [discriminate|].
  destruct (interim ev); [discriminate|]. intros _.
  split; [done|]. split; [done|]. by apply drop_oldest_interim_None.
Qed.

(** *** Fan-out *)

Lemma fan_out_ids (ev : TranscriptEvent) (room : Room) :
  map conn_id (fan_out capacity ev room).1 `sublist_of` map conn_id room.
Proof.
  induction room as [|c room IH]; simpl; [constructor|].
  destruct (fan_out capacity ev room) as [rest' closed]. simpl in IH.
  destruct (conn_role c); simpl; [by constructor|].
  destruct (enqueue capacity (outbound c) ev); simpl; by constructor.
Qed.

Lemma fan_out_closed (ev : TranscriptEvent) (room : Room) :
  Forall (fun e => exists j, e = Closed j BackpressureOverflow)
    (fan_out capacity ev room).2.
Proof.
  induction room as [|c room IH]; simpl; [constructor|].
  destruct (fan_out capacity ev room) as [rest' closed]. simpl in IH.
  destruct (conn_role c); simpl; [done|].
  destruct (enqueue capacity (outbound c) ev); simpl; [done|].
  constructor; [eauto|done].
Qed.

Lemma fan_out_member (ev : TranscriptEvent) (room : Room) (id : ConnId) :
  NoDup (map conn_id room) ->
  member id (fan_out capacity ev room).1 =
    match member id room with
    | None => None
    | Some c =>
        match conn_role c with
        | Producer => Some c
        | Consumer =>
            match enqueue capacity (outbound c) ev with
            | Queued q => Some (set_outbound q c)
            | Overflow => None
            end
        end
    end.
Proof.
  induction room as [|c room IH]; intros Hnd; [done|].
  simpl in Hnd. apply NoDup_cons in Hnd as [Hc Hnd]. specialize (IH Hnd).
  simpl. destruct (fan_out capacity ev room) as [rest' closed]. simpl in IH.
  unfold member in *. simpl.
  destruct (has_id id c) eqn:Hid.
  - destruct (conn_role c); simpl; [by rewrite Hid|].
    destruct (enqueue capacity (outbound c) ev); simpl.
    + unfold has_id in *. simpl. by rewrite Hid.
    + rewrite IH. apply Nat.eqb_eq in Hid. subst id.
      rewrite list_elem_of_In in Hc. apply member_None in Hc.
      unfold member in Hc. by rewrite Hc.
  - destruct (conn_role c); simpl; [by rewrite Hid|].
    destruct (enqueue capacity (outbound c) ev); simpl; [|done].
    unfold has_id in *. simpl. by rewrite Hid.
Qed.

End Queue.

(** *** Observations *)

Lemma observe_closed (id : ConnId) (evs : list Event)
    (seen : list TranscriptEvent * list TranscriptEvent) :
  Forall (fun e => exists j code, e = Closed j code) evs ->
  fold_left (observe id) evs seen = seen.
Proof.
  intros H. induction H as [|e evs (j & code & ->) _ IH]; [done|]. exact IH.
Qed.

Lemma observe_delivered (id j : ConnId) (q : list ServerMessage)
    (seen : list TranscriptEvent * list TranscriptEvent) :
  fold_left (observe id) (map (Delivered j) q) seen =
    if Nat.eqb j id then (seen.1, seen.2 ++ transcripts q) else seen.
Proof.
  revert seen. induction q as [|m q IH]; intros [B D]; simpl.
  - destruct (Nat.eqb j id); [|done]. by rewrite app_nil_r.
  - rewrite IH. destruct m as [| |ev]; simpl; try done.
    destruct (Nat.eqb j id); [|done]. simpl. by rewrite <- app_assoc.
Qed.


Lemma observe_drain (id : ConnId) (room : Room)
    (seen : list TranscriptEvent * list TranscriptEvent) :
  fold_left (observe id) (flat_map drain room) seen
    = (seen.1, seen.2 ++ queued_for id room).
Proof.
  revert seen. induction room as [|c room IH]; intros [B D]; simpl.
  - by rewrite app_nil_r.
  - unfold drain at 1. rewrite !fold_left_app, observe_delivered. simpl.
    unfold has_id. destruct (Nat.eqb (conn_id c) id); rewrite IH; simpl; [|done].
    by rewrite <- app_assoc.
Qed.

Lemma queued_for_pending (id : ConnId) (room : Room) :
  NoDup (map conn_id room) -> queued_for id room = pending id room.
Proof.
  unfold queued_for, pending, member.
  induction room as [|c room IH]; intros Hnd; [done|].
  simpl in Hnd. apply NoDup_cons in Hnd as [Hc Hnd]. simpl.
  destruct (has_id id c) eqn:Hid; [|by apply IH].
  apply Nat.eqb_eq in Hid. subst id.
  rewrite list_elem_of_In in Hc. clear IH Hnd.
  assert (flat_map
            (fun d => if has_id (conn_id c) d then transcripts (outbound d) else [])
            room = []) as ->; [|by rewrite app_nil_r].
  induction room as [|d room IH]; [done|]. simpl in *.
  unfold has_id at 1. destruct (Nat.eqb_spec (conn_id d) (conn_id c)) as [E|E].
  - destruct Hc. by left.
  - apply IH. tauto.
Qed.

(** *** The invariant of a run *)

Lemma consistent_same (id : ConnId) (room room' : Room)
    (seen : list TranscriptEvent * list TranscriptEvent) :
  member id room' = member id room ->
  consistent id room seen -> consistent id room' seen.
Proof.
  unfold consistent, pending, is_consumer_of. by intros ->.
Qed.

Lemma consistent_gone (id : ConnId) (room room' : Room)
    (seen : list TranscriptEvent * list TranscriptEvent) :
  member id room' = None ->
  consistent id room seen -> consistent id room' seen.
Proof.
  unfold consistent, pending, is_consumer_of. intros -> [Hsub _].
  rewrite app_nil_r. split.
  - etrans; [|exact Hsub]. by apply sublist_inserts_r.
  - by intros (c & ? & _).
Qed.

Lemma consistent_more (id : ConnId) (room room' : Room) (ev : TranscriptEvent)
    (B D : list TranscriptEvent) :
  member id room' = member id room ->
  ~ is_consumer_of id room ->
  consistent id room (B, D) -> consistent id room' (B ++ [ev], D).
Proof.
  unfold consistent, pending, is_consumer_of. intros -> Hnc [Hsub _]. simpl in *.
  split; [by apply sublist_inserts_r|]. intros H. by destruct Hnc.
Qed.

Lemma consistent_gone_more (id : ConnId) (room room' : Room) (ev : TranscriptEvent)
    (B D : list TranscriptEvent) :
  member id room' = None ->
  consistent id room (B, D) -> consistent id room' (B ++ [ev], D).
Proof.
  intros Hm Hc. apply (consistent_gone id room room' _ Hm) in Hc.
  eapply consistent_more; [done| |exact Hc].
  unfold is_consumer_of. rewrite Hm. by intros (c & ? & _).
Qed.

Lemma consistent_remove (id j : ConnId) (room : Room)
    (seen : list TranscriptEvent * list TranscriptEvent) :
  consistent id room seen -> consistent id (remove j room) seen.
Proof.
  intros Hc. pose proof (member_remove id j room) as Hm.
  destruct (Nat.eqb id j).
  - by eapply consistent_gone.
  - by eapply consistent_same.
Qed.

Lemma member_flush (id j : ConnId) (q : list ServerMessage) (room : Room) :
  member id (map (fun d => if has_id j d then set_outbound q d else d) room)
    = (fun d => if has_id j d then set_outbound q d else d) <$> member id room.
Proof.
  unfold member. induction room as [|c room IH]; [done|].
  simpl. replace (has_id id (if has_id j c then set_outbound q c else c))
    with (has_id id c) by (by destruct (has_id j c)).
  by destruct (has_id id c).
Qed.

Lemma flush_ids (j : ConnId) (q : list ServerMessage) (room : Room) :
  map conn_id (map (fun d => if has_id j d then set_outbound q d else d) room)
    = map conn_id room.
Proof.
  induction room as [|c room IH]; [done|]. simpl. rewrite IH.
  by destruct (has_id j c).
Qed.

Lemma remove_NoDup (j : ConnId) (room : Room) :
  NoDup (map conn_id room) -> NoDup (map conn_id (remove j room)).
Proof. intros Hnd. exact (sublist_NoDup _ _ Hnd (remove_ids j room)). Qed.

Section Run.

Variable capacity : nat.
Variable s : jsstring.

Lemma room_step_NoDup (room : Room) (cmd : Command) :
  NoDup (map conn_id room) ->
  NoDup (map conn_id (room_step capacity s room cmd).1).
Proof.
  intros Hnd. destruct cmd as [j role v|j frame time rate|j|j|]; simpl.
  - unfold on_connect. destruct (member j room) eqn:Hm; [done|].
    destruct (authenticate s v); [done|].
    assert (NoDup (map conn_id
                     (room ++ [{| conn_id := j; conn_role := role;
                                  outbound := [Ready] |}]))) as Hnew.
    { rewrite map_app. simpl. apply NoDup_app. split; [done|].
      split; [|apply NoDup_singleton].
      intros x Hx Hx'. apply list_elem_of_singleton in Hx'. subst x.
      apply member_None in Hm. apply Hm. by apply list_elem_of_In. }
    unfold join. destruct role; [destruct (has_producer room)|]; done.
  - unfold on_frame. destruct (member j room) as [c|]; [|done].
    destruct frame as [| |[|i t ts]]; simpl;
      try (by apply remove_NoDup); try done.
    destruct (conn_role c); [|by simpl].
    destruct rate; simpl; try done.
    + pose proof (fan_out_ids capacity (stamp time i t ts) room) as Hf.
      destruct (fan_out capacity (stamp time i t ts) room). simpl in *.
      exact (sublist_NoDup _ _ Hnd Hf).
    + by apply remove_NoDup.
  - unfold on_flush. destruct (member j room) as [c|]; [|done].
    destruct (outbound c); [done|]. simpl. by rewrite flush_ids.
  - destruct (member j room); [|done]. simpl. by apply remove_NoDup.
  - constructor.
Qed.

Lemma room_step_consistent (id : ConnId) (room : Room) (cmd : Command)
    (seen : list TranscriptEvent * list TranscriptEvent) :
  NoDup (map conn_id room) ->
  consistent id room seen ->
  consistent id (room_step capacity s room cmd).1
    (fold_left (observe id) (room_step capacity s room cmd).2 seen).
Proof.
  intros Hnd Hc. destruct seen as [B D].
  destruct cmd as [j role v|j frame time rate|j|j|]; simpl.
  - (* Connect *)
    unfold on_connect. destruct (member j room) eqn:Hm; [done|].
    destruct (authenticate s v); [done|].
    assert (consistent id
              (room ++ [{| conn_id := j; conn_role := role; outbound := [Ready] |}])
              (if Nat.eqb j id then ([], []) else (B, D))) as Hnew.
    { destruct (Nat.eqb_spec j id) as [->|Hne].
      - unfold consistent, pending. rewrite member_app, Hm.
        unfold member, has_id. simpl. rewrite Nat.eqb_refl. simpl.
        split; [constructor|done].
      - eapply consistent_same; [|exact Hc].
        rewrite member_app. destruct (member id room); [done|].
        unfold member, has_id. simpl.
        by destruct (Nat.eqb_spec j id). }
    unfold join. destruct role; [destruct (has_producer room)|]; done.
  - (* Frame *)
    unfold on_frame. destruct (member j room) as [c|] eqn:Hm; [|done].
    destruct frame as [| |[|i t ts]]; simpl;
      try (by apply consistent_remove); try done.
    destruct (conn_role c) eqn:Hrole; [|by simpl].
    destruct rate; simpl; try done; [|by apply consistent_remove].
    set (ev := stamp time i t ts).
    pose proof (fan_out_member capacity ev room id Hnd) as Hmem.
    pose proof (fan_out_closed capacity ev room) as Hclosed.
    destruct (fan_out capacity ev room) as [room' closed]. simpl in *.
    rewrite observe_closed
      by (eapply Forall_impl; [exact Hclosed|]; intros ? [? ->]; eauto).
    destruct (member id room) as [d|] eqn:Hd;
      [|by eapply consistent_gone_more].
    destruct (conn_role d) eqn:Hrd.
    { eapply consistent_more; [by rewrite Hd| |exact Hc].
      unfold is_consumer_of. rewrite Hd. intros (? & [= <-] & ?). congruence. }
    destruct (enqueue capacity (outbound d) ev) as [q|] eqn:Hq;
      [|by eapply consistent_gone_more].
    apply enqueue_queued in Hq as [Hsub Hfin].
    destruct Hc as [Hc1 Hc2]. unfold consistent, pending in *.
    rewrite Hmem. rewrite Hd in Hc1, Hc2. simpl in *. split.
    + etrans; [apply sublist_app; [reflexivity|exact Hsub]|].
      rewrite app_assoc. by apply sublist_app.
    + intros _. rewrite finals_app, Hfin, <- finals_app, app_assoc, finals_app.
      rewrite Hc2 by (exists d; by rewrite Hd). by rewrite finals_app.
  - (* Flush *)
    unfold on_flush. destruct (member j room) as [c|] eqn:Hm; [|done].
    destruct (outbound c) as [|m q] eqn:Hout; [done|]. cbn [fst snd fold_left].
    pose proof (member_flush id j q room) as Hmem.
    destruct (Nat.eqb_spec j id) as [->|Hne].
    + rewrite Hm in Hmem. simpl in Hmem.
      destruct (member_Some _ _ _ Hm) as [_ Hid].
      assert (has_id id c = true) as Hh by (by apply Nat.eqb_eq).
      rewrite Hh in Hmem.
      destruct Hc as [Hc1 Hc2]. unfold consistent, pending, is_consumer_of in *.
      rewrite Hmem. rewrite Hm, Hout in Hc1, Hc2.
      destruct m as [|code message|ev]; simpl in *; rewrite ?Nat.eqb_refl;
        simpl; rewrite <- ?app_assoc; (split; [done|]);
        intros (d & [= <-] & Hr); apply Hc2; by exists c.
    + assert (observe id (B, D) (Delivered j m) = (B, D)) as ->.
      { destruct m as [| |ev]; simpl; try done.
        by destruct (Nat.eqb_spec j id). }
      eapply consistent_same; [|exact Hc].
      rewrite Hmem. destruct (member id room) as [d|] eqn:Hd; [|done].
      destruct (member_Some _ _ _ Hd) as [_ Hid]. simpl.
      unfold has_id. rewrite Hid. by destruct (Nat.eqb_spec id j); [lia|].
  - (* Disconnect *)
    destruct (member j room); [|done]. simpl. by apply consistent_remove.
  - (* Expire *)
    rewrite observe_drain, (queued_for_pending _ _ Hnd). simpl.
    destruct Hc as [Hc1 _]. unfold consistent, pending, is_consumer_of, member.
    simpl. rewrite app_nil_r. split; [done|]. by intros (? & ? & _).
Qed.

Lemma room_run_consistent (id : ConnId) (cmds : list Command) (room : Room)
    (seen : list TranscriptEvent * list TranscriptEvent) :
  NoDup (map conn_id room) ->
  consistent id room seen ->
  consistent id (room_run capacity s room cmds).1
    (fold_left (observe id) (room_run capacity s room cmds).2 seen).
Proof.
  revert room seen. induction cmds as [|cmd cmds IH]; intros room seen Hnd Hc;
    [done|].
  simpl.
  pose proof (room_step_NoDup room cmd Hnd) as Hnd'.
  pose proof (room_step_consistent id room cmd seen Hnd Hc) as Hc'.
  destruct (room_step capacity s room cmd) as [room1 evs1]. simpl in *.
  specialize (IH room1 _ Hnd' Hc').
  destruct (room_run capacity s room1 cmds) as [room2 evs2]. simpl in *.
  by rewrite fold_left_app.
Qed.

Lemma room_run_from_empty (id : ConnId) (cmds : list Command) :
  consistent id (room_run capacity s [] cmds).1
    (observed id (room_run capacity s [] cmds).2).
Proof.
  apply room_run_consistent; [constructor|].
  unfold consistent, pending, is_consumer_of, member. simpl.
  split; [constructor|done].
Qed.

End Run.

(** *** Delivery *)

Section Delivery.

Variable capacity : nat.
Variable s : jsstring.

Lemma has_room_member (room : Room) (id : ConnId) (c : Connection) :
  has_room capacity room = true -> member id room = Some c ->
  (length (outbound c) < capacity)%nat.
Proof.
  intros Hr Hm. apply member_Some in Hm as [Hin _].
  unfold has_room in Hr. rewrite forallb_forall in Hr.
  apply Nat.ltb_lt. by apply Hr.
Qed.

Lemma enqueue_has_room (q : list ServerMessage) (ev : TranscriptEvent) :
  (length q < capacity)%nat ->
  enqueue capacity q ev = Queued (q ++ [ServerTranscript ev]).
Proof.
  intros H. unfold enqueue.
  by destruct (Nat.ltb_spec (length q) capacity); [|lia].
Qed.

Lemma exact_same (id : ConnId) (room room' : Room)
    (seen : list TranscriptEvent * list TranscriptEvent) :
  member id room' = member id room -> exact id room seen -> exact id room' seen.
Proof. unfold exact, pending, is_consumer_of. by intros ->. Qed.

Lemma exact_gone (id : ConnId) (room' : Room)
    (seen : list TranscriptEvent * list TranscriptEvent) :
  member id room' = None -> exact id room' seen.
Proof. unfold exact, is_consumer_of. by intros -> (c & ? & _). Qed.

Lemma exact_remove (id j : ConnId) (room : Room)
    (seen : list TranscriptEvent * list TranscriptEvent) :
  exact id room seen -> exact id (remove j room) seen.
Proof.
  intros He. pose proof (member_remove id j room) as Hm.
  destruct (Nat.eqb id j); [by apply exact_gone|by eapply exact_same].
Qed.

Lemma room_step_exact (id : ConnId) (room : Room) (cmd : Command)
    (seen : list TranscriptEvent * list TranscriptEvent) :
  NoDup (map conn_id room) ->
  has_room capacity room = true ->
  exact id room seen ->
  exact id (room_step capacity s room cmd).1
    (fold_left (observe id) (room_step capacity s room cmd).2 seen).
Proof.
  intros Hnd Hroom He. destruct seen as [B D].
  destruct cmd as [j role v|j frame time rate|j|j|]; simpl.
  - (* Connect *)
    unfold on_connect. destruct (member j room) eqn:Hm; [done|].
    destruct (authenticate s v); [done|].
    assert (exact id
              (room ++ [{| conn_id := j; conn_role := role; outbound := [Ready] |}])
              (if Nat.eqb j id then ([], []) else (B, D))) as Hnew.
    { destruct (Nat.eqb_spec j id) as [->|Hne].
      - unfold exact, pending. rewrite member_app, Hm.
        unfold member, has_id. simpl. by rewrite Nat.eqb_refl.
      - eapply exact_same; [|exact He].
        rewrite member_app. destruct (member id room); [done|].
        unfold member, has_id. simpl.
        by destruct (Nat.eqb_spec j id). }
    unfold join. destruct role; [destruct (has_producer room)|]; done.
  - (* Frame *)
    unfold on_frame. destruct (member j room) as [c|] eqn:Hm; [|done].
    destruct frame as [| |[|i t ts]]; simpl;
      try (by apply exact_remove); try done.
    destruct (conn_role c) eqn:Hrole; [|by simpl].
    destruct rate; simpl; try done; [|by apply exact_remove].
    set (ev := stamp time i t ts).
    pose proof (fan_out_member capacity ev room id Hnd) as Hmem.
    pose proof (fan_out_closed capacity ev room) as Hclosed.
    destruct (fan_out capacity ev room) as [room' closed]. simpl in *.
    rewrite observe_closed
      by (eapply Forall_impl; [exact Hclosed|]; intros ? [? ->]; eauto).
    destruct (member id room) as [d|] eqn:Hd; [|by apply exact_gone].
    destruct (conn_role d) eqn:Hrd.
    { unfold exact, is_consumer_of. rewrite Hmem.
      intros (? & [= <-] & ?). congruence. }
    rewrite (enqueue_has_room _ _ (has_room_member room id d Hroom Hd)) in Hmem.
    unfold exact, pending in *. rewrite Hmem. rewrite Hd in He. simpl in *.
    intros _. rewrite transcripts_app, app_assoc. simpl. f_equal.
    apply He. exists d. by rewrite Hd.
  - (* Flush *)
    unfold on_flush. destruct (member j room) as [c|] eqn:Hm; [|done].
    destruct (outbound c) as [|m q] eqn:Hout; [done|]. cbn [fst snd fold_left].
    pose proof (member_flush id j q room) as Hmem.
    destruct (Nat.eqb_spec j id) as [->|Hne].
    + rewrite Hm in Hmem. simpl in Hmem.
      destruct (member_Some _ _ _ Hm) as [_ Hid].
      assert (has_id id c = true) as Hh by (by apply Nat.eqb_eq).
      rewrite Hh in Hmem.
      unfold exact, pending, is_consumer_of in *.
      rewrite Hmem. rewrite Hm, Hout in He.
      intros (d & [= <-] & Hr). simpl in Hr.
      assert (D ++ transcripts (m :: q) = B) as Hall
          by (apply He; by exists c).
      destruct m as [|code message|ev]; simpl in *; rewrite ?Nat.eqb_refl;
        simpl; by rewrite <- ?app_assoc.
    + assert (observe id (B, D) (Delivered j m) = (B, D)) as ->.
      { destruct m as [| |ev]; simpl; try done.
        by destruct (Nat.eqb_spec j id). }
      eapply exact_same; [|exact He].
      rewrite Hmem. destruct (member id room) as [d|] eqn:Hd; [|done].
      destruct (member_Some _ _ _ Hd) as [_ Hid]. simpl.
      unfold has_id. rewrite Hid. by destruct (Nat.eqb_spec id j); [lia|].
  - (* Disconnect *)
    destruct (member j room); [|done]. simpl. by apply exact_remove.
  - (* Expire *)
    by apply exact_gone.
Qed.

Lemma room_run_exact (id : ConnId) (cmds : list Command) (room : Room)
    (seen : list TranscriptEvent * list TranscriptEvent) :
  NoDup (map conn_id room) ->
  never_full capacity s room cmds = true ->
  exact id room seen ->
  exact id (room_run capacity s room cmds).1
    (fold_left (observe id) (room_run capacity s room cmds).2 seen).
Proof.
  revert room seen.
  induction cmds as [|cmd cmds IH]; intros room seen Hnd Hfull He; [done|].
  simpl in *. apply andb_true_iff in Hfull as [Hroom Hfull].
  pose proof (room_step_NoDup capacity s room cmd Hnd) as Hnd'.
  pose proof (room_step_exact id room cmd seen Hnd Hroom He) as He'.
  destruct (room_step capacity s room cmd) as [room1 evs1]. simpl in *.
  specialize (IH room1 _ Hnd' Hfull He').
  destruct (room_run capacity s room1 cmds) as [room2 evs2]. simpl in *.
  by rewrite fold_left_app.
Qed.

Lemma room_run_NoDup (room : Room) (cmds : list Command) :
  NoDup (map conn_id room) ->
  NoDup (map conn_id (room_run capacity s room cmds).1).
Proof.
  revert room. induction cmds as [|cmd cmds IH]; intros room Hnd; [done|].
  simpl. pose proof (room_step_NoDup capacity s room cmd Hnd) as Hnd'.
  destruct (room_step capacity s room cmd) as [room1 evs1]. simpl in *.
  specialize (IH room1 Hnd').
  by destruct (room_run capacity s room1 cmds).
Qed.

Lemma room_run_app (room : Room) (a b : list Command) :
  room_run capacity s room (a ++ b) =
    ((room_run capacity s (room_run capacity s room a).1 b).1,
     (room_run capacity s room a).2
       ++ (room_run capacity s (room_run capacity s room a).1 b).2).
Proof.
  revert room. induction a as [|cmd a IH]; intros room; simpl.
  - by destruct (room_run capacity s room b).
  - destruct (room_step capacity s room cmd) as [room1 evs1].
    rewrite IH. destruct (room_run capacity s room1 a) as [room2 evs2]. simpl.
    by rewrite app_assoc.
Qed.

Lemma deliveries_app (id : ConnId) (a b : list Event) :
  deliveries id (a ++ b) = deliveries id a ++ deliveries id b.
Proof. apply omap_app. Qed.

Lemma deliveries_closed (id : ConnId) (evs : list Event) :
  Forall (fun e => exists j, e = Closed j BackpressureOverflow) evs ->
  deliveries id evs = [].
Proof. induction 1 as [|e evs [j ->] _ IH]; [done|exact IH]. Qed.

Lemma set_outbound_same (c : Connection) : set_outbound (outbound c) c = c.
Proof. by destruct c. Qed.

(** The writes of the producer are queued for a consumer one behind the
    other, as long as its queue takes them. *)
Lemma frames_run (p id : ConnId) (writes : list Write) (room : Room)
    (cp c : Connection) :
  NoDup (map conn_id room) ->
  member p room = Some cp -> conn_role cp = Producer ->
  member id room = Some c -> conn_role c = Consumer ->
  (length (outbound c) + length writes <= capacity)%nat ->
  member id (room_run capacity s room (map (frame_of p) writes)).1
    = Some (set_outbound (outbound c ++ map stamped writes) c)
  /\ deliveries id (room_run capacity s room (map (frame_of p) writes)).2 = []
  /\ NoDup (map conn_id (room_run capacity s room (map (frame_of p) writes)).1).
Proof.
  revert room c. induction writes as [|w writes IH];
    intros room c Hnd Hp Hrp Hc Hrc Hlen.
  - simpl. by rewrite app_nil_r, set_outbound_same.
  - set (ev := stamp (w_time w) (w_interim w) (w_text w) (w_ts w)).
    assert (room_step capacity s room (frame_of p w)
            = ((fan_out capacity ev room).1,
               Broadcast ev :: (fan_out capacity ev room).2)) as Hstep.
    { unfold frame_of. cbn [room_step]. unfold on_frame. rewrite Hp, Hrp.
      fold ev. by destruct (fan_out capacity ev room). }
    cbn [map room_run]. rewrite Hstep.
    pose proof (fan_out_member capacity ev room id Hnd) as Hmem.
    pose proof (fan_out_member capacity ev room p Hnd) as Hmemp.
    pose proof (fan_out_closed capacity ev room) as Hclosed.
    pose proof (fan_out_ids capacity ev room) as Hids.
    destruct (fan_out capacity ev room) as [room1 closed]. simpl in *.
    rewrite Hc, Hrc, enqueue_has_room in Hmem by lia.
    rewrite Hp, Hrp in Hmemp.
    destruct (IH room1 (set_outbound (outbound c ++ [ServerTranscript ev]) c)
                (sublist_NoDup _ _ Hnd Hids) Hmemp Hrp Hmem Hrc)
      as (H1 & H2 & H3).
    { simpl. rewrite length_app. simpl. lia. }
    destruct (room_run capacity s room1 (map (frame_of p) writes))
      as [room2 evs2]. simpl in *.
    split; [|split; [|done]].
    + rewrite H1. unfold set_outbound, stamped at 2. simpl.
      by rewrite <- app_assoc.
    + change (Broadcast ev :: closed ++ evs2)
        with ([Broadcast ev] ++ closed ++ evs2).
      rewrite !deliveries_app, H2, (deliveries_closed id closed Hclosed).
      done.
Qed.

(** The socket of a connection takes the messages of its queue, the
    oldest first, until none is left. *)
Lemma flushes_run (id : ConnId) (q : list ServerMessage) (room : Room)
    (c : Connection) :
  NoDup (map conn_id room) ->
  member id room = Some c -> outbound c = q ->
  deliveries id (room_run capacity s room (repeat (Flush id) (length q))).2 = q
  /\ member id (room_run capacity s room (repeat (Flush id) (length q))).1
     = Some (set_outbound [] c).
Proof.
  revert room c. induction q as [|m q IH]; intros room c Hnd Hc Hout.
  - simpl. split; [done|]. by rewrite Hc, <- Hout, set_outbound_same.
  - assert (room_step capacity s room (Flush id)
            = (map (fun d => if has_id id d then set_outbound q d else d) room,
               [Delivered id m])) as Hstep.
    { cbn [room_step]. unfold on_flush. by rewrite Hc, Hout. }
    cbn [length repeat room_run]. rewrite Hstep.
    pose proof (member_flush id id q room) as Hmem.
    rewrite Hc in Hmem. simpl in Hmem.
    destruct (member_Some _ _ _ Hc) as [_ Hid].
    assert (has_id id c = true) as Hh by (by apply Nat.eqb_eq).
    rewrite Hh in Hmem.
    destruct (IH _ (set_outbound q c)
                (eq_ind_r (fun l => NoDup l) Hnd (flush_ids id q room))
                Hmem eq_refl) as [H1 H2].
    destruct (room_run capacity s _ (repeat (Flush id) (length q)))
      as [room2 evs2]. simpl in *.
    unfold deliveries. simpl. rewrite Nat.eqb_refl.
    split; [by f_equal|exact H2].
Qed.

End Delivery.

(** *** Order of delivery, and finals under backpressure *)

Lemma enqueue_cases (capacity : nat) (q q' : list ServerMessage)
    (ev : TranscriptEvent) :
  enqueue capacity q ev = Queued q' ->
  q' = q ++ [ServerTranscript ev]
  \/ (exists l old r,
        q = l ++ ServerTranscript old :: r /\ interim old = true
        /\ Forall (fun m => is_interim m = false) l
        /\ q' = l ++ r ++ [ServerTranscript ev])
  \/ (interim ev = true /\ q' = q).
Proof.
  unfold enqueue. destruct (length q <? capacity)%nat; [intros [= <-]; by left|].
  destruct (drop_oldest_interim q) as [q1|] eqn:Hd.
  - intros [= <-]. right. left.
    apply drop_oldest_interim_Some in Hd as (l & old & r & -> & -> & Ho & Hl).
    exists l, old, r. by rewrite <- app_assoc.
  - destruct (interim ev); [|discriminate]. intros [= <-]. by right; right.
Qed.

Lemma fan_out_overflow (capacity : nat) (ev : TranscriptEvent) (room : Room)
    (c : Connection) :
  In c room -> conn_role c = Consumer ->
  enqueue capacity (outbound c) ev = Overflow ->
  In (Closed (conn_id c) BackpressureOverflow) (fan_out capacity ev room).2.
Proof.
  intros Hin Hrole Hq. induction room as [|d room IH]; [done|].
  simpl. destruct (fan_out capacity ev room) as [rest' closed]. simpl in IH.
  destruct Hin as [->|Hin].
  - rewrite Hrole, Hq. by left.
  - destruct (conn_role d); simpl; [by apply IH|].
    destruct (enqueue capacity (outbound d) ev); simpl; [by apply IH|].
    right. by apply IH.
Qed.

(** Only a transcript of the producer that the rate limiter lets through is
    broadcast, stamped on receipt. *)
Lemma room_step_broadcast (capacity : nat) (s : jsstring) (room : Room)
    (cmd : Command) (ev : TranscriptEvent) :
  In (Broadcast ev) (room_step capacity s room cmd).2 ->
  exists id c i t ts time,
    cmd = Frame id (Message (ClientTranscript i t ts)) time Allowed
    /\ member id room = Some c /\ conn_role c = Producer
    /\ ev = stamp time i t ts.
Proof.
  destruct cmd as [j role v|j frame time rate|j|j|]; simpl.
  - unfold on_connect. destruct (member j room); [by intros [|[]]|].
    destruct (authenticate s v); [by intros [|[]]|].
    destruct (join j role room); by intros [|[]].
  - unfold on_frame. destruct (member j room) as [c|] eqn:Hm; [|by intros [|[]]].
    destruct frame as [| |[|i t ts]]; try (by intros [|[]]); [by intros []|].
    destruct (conn_role c) eqn:Hrole; [|by intros [|[]]].
    destruct rate; try (by intros [|[]]).
    pose proof (fan_out_closed capacity (stamp time i t ts) room) as Hclosed.
    destruct (fan_out capacity (stamp time i t ts) room) as [room' closed].
    simpl in *. intros [[= <-]|Hin].
    + by exists j, c, i, t, ts, time.
    + rewrite Forall_forall in Hclosed.
      by destruct (Hclosed _ (proj2 (list_elem_of_In _ _) Hin)) as [? ?].
  - unfold on_flush. destruct (member j room) as [c|]; [|by intros []].
    destruct (outbound c); [by intros []|by intros [|[]]].
  - destruct (member j room); [by intros [|[]]|by intros []].
  - unfold on_expire, drain. simpl. rewrite in_flat_map.
    intros (c & _ & Hin). apply in_app_iff in Hin as [Hin|[|[]]]; [|done].
    apply in_map_iff in Hin as (m & ? & _). done.
Qed.

(** C2. In every run of a room, whatever the number of consumers, the
    transcripts delivered to a connection are, in the order of their
    delivery, a subsequence of the transcripts the producer had broadcast
    since that connection joined, in the order of their broadcast; and so
    are they followed by the transcripts still queued for it.  They are
    all of them, with none missing: in a run that never meets a full
    queue, what was delivered to a joined consumer followed by what is
    queued for it is exactly what was broadcast since it joined.  And
    what the producer writes does arrive: when the producer of a room
    writes transcripts that the queue of a joined consumer can take, and
    the socket of that consumer then takes as many messages as its queue
    holds, the messages it takes are those the queue held before followed
    by the transcripts written, each stamped, in the order written, and
    the queue is left empty. *)
Theorem transcripts_delivered_in_order (capacity : nat) (s : jsstring) :
  (forall cmds id,
     delivered_to id (room_run capacity s [] cmds).2
       `sublist_of` broadcast_since id (room_run capacity s [] cmds).2
     /\ delivered_to id (room_run capacity s [] cmds).2
          ++ pending id (room_run capacity s [] cmds).1
        `sublist_of` broadcast_since id (room_run capacity s [] cmds).2)
  /\ (forall cmds id,
        never_full capacity s [] cmds = true ->
        is_consumer_of id (room_run capacity s [] cmds).1 ->
        delivered_to id (room_run capacity s [] cmds).2
          ++ pending id (room_run capacity s [] cmds).1
        = broadcast_since id (room_run capacity s [] cmds).2)
  /\ (forall joins p id c writes,
        is_producer_of p (room_run capacity s [] joins).1 ->
        member id (room_run capacity s [] joins).1 = Some c ->
        conn_role c = Consumer ->
        (length (outbound c) + length writes <= capacity)%nat ->
        deliveries id
          (room_run capacity s (room_run capacity s [] joins).1
             (map (frame_of p) writes
                ++ repeat (Flush id) (length (outbound c) + length writes))).2
        = outbound c ++ map stamped writes
        /\ pending id
             (room_run capacity s (room_run capacity s [] joins).1
                (map (frame_of p) writes
                   ++ repeat (Flush id) (length (outbound c) + length writes))).1
           = []
        /\ is_consumer_of id
             (room_run capacity s (room_run capacity s [] joins).1
                (map (frame_of p) writes
                   ++ repeat (Flush id) (length (outbound c) + length writes))).1).
Proof.
  split; [|split].
  - intros cmds id.
    destruct (room_run_from_empty capacity s id cmds) as [Hsub _].
    split; [|exact Hsub].
    etrans; [|exact Hsub]. by apply sublist_inserts_r.
  - intros cmds id Hfull Hcons.
    apply (room_run_exact capacity s id cmds [] ([], [])); try done.
    constructor.
  - intros joins p id c writes (cp & Hp & Hrp) Hc Hrc Hlen.
    assert (NoDup (map conn_id (room_run capacity s [] joins).1)) as Hnd
        by (apply room_run_NoDup; constructor).
    set (room := (room_run capacity s [] joins).1) in *.
    rewrite room_run_app. cbn [fst snd].
    destruct (frames_run capacity s p id writes room cp c Hnd Hp Hrp Hc Hrc Hlen)
      as (Hq & Hnone & Hnd').
    replace (length (outbound c) + length writes)%nat
      with (length (outbound c ++ map stamped writes))
      by (by rewrite length_app, length_map).
    destruct (flushes_run capacity s id (outbound c ++ map stamped writes) _ _
                Hnd' Hq eq_refl) as [Hall Hleft].
    rewrite deliveries_app, Hnone, Hall. split; [done|].
    unfold pending, is_consumer_of. rewrite Hleft. split; [done|].
    eexists. split; [done|]. exact Hrc.
Qed.

Lemma transcripts_delivered_in_order_witness :
  (delivered_to 2%nat (room_run 4 (js "abc") [] sample_mixed_run).2
     ++ pending 2%nat (room_run 4 (js "abc") [] sample_mixed_run).1
   = broadcast_since 2%nat (room_run 4 (js "abc") [] sample_mixed_run).2)
  /\ deliveries 2%nat
       (room_run 4 (js "abc") (room_run 4 (js "abc") [] sample_joins).1
          (map (frame_of 1%nat) sample_writes
             ++ repeat (Flush 2%nat)
                  (length (outbound sample_consumer) + length sample_writes))).2
     = outbound sample_consumer ++ map stamped sample_writes.
Proof.
  destruct (transcripts_delivered_in_order 4 (js "abc")) as (_ & Hexact & Harrive).
  split.
  - apply Hexact; [reflexivity|].
    exists {| conn_id := 2%nat; conn_role := Consumer;
              outbound := [ServerTranscript
                             {| interim := false; text := js "hey";
                                timestampMs := 7 |}] |}.
    split; reflexivity.
  - apply (Harrive sample_joins 1%nat 2%nat sample_consumer sample_writes).
    + exists {| conn_id := 1%nat; conn_role := Producer; outbound := [Ready] |}.
      split; reflexivity.
    + reflexivity.
    + reflexivity.
    + simpl. lia.
Defined.

(** C3. A queue that takes a transcript keeps every message it held, or
    drops exactly one interim transcript, the oldest it held, or, holding
    none, drops the incoming interim: never a final.  A consumer whose
    queue cannot take a final is closed with the backpressure code.  Hence,
    in every run, all the finals broadcast since a consumer joined have
    been delivered to it or are queued for it, as long as it is a member
    of the room. *)
Theorem finals_never_dropped (capacity : nat) (s : jsstring) :
  (forall q ev q',
     enqueue capacity q ev = Queued q' ->
     q' = q ++ [ServerTranscript ev]
     \/ (exists l old r,
           q = l ++ ServerTranscript old :: r /\ interim old = true
           /\ Forall (fun m => is_interim m = false) l
           /\ q' = l ++ r ++ [ServerTranscript ev])
     \/ (interim ev = true /\ q' = q))
  /\ (forall ev room c,
        In c room -> conn_role c = Consumer ->
        enqueue capacity (outbound c) ev = Overflow ->
        interim ev = false
        /\ In (Closed (conn_id c) BackpressureOverflow) (fan_out capacity ev room).2)
  /\ (forall cmds id,
        is_consumer_of id (room_run capacity s [] cmds).1 ->
        finals (delivered_to id (room_run capacity s [] cmds).2
                  ++ pending id (room_run capacity s [] cmds).1)
          = finals (broadcast_since id (room_run capacity s [] cmds).2)).
Proof.
  split; [intros q ev q'; apply enqueue_cases|]. split.
  - intros ev room c Hin Hrole Hq. split.
    + by apply enqueue_overflow in Hq as [? _].
    + by apply fan_out_overflow.
  - intros cmds id Hcons.
    destruct (room_run_from_empty capacity s id cmds) as [_ Hfin].
    by apply Hfin.
Qed.

Lemma finals_never_dropped_witness :
  (exists l old r,
     [Ready; ServerTranscript (sample_interim "he" 7)]
       = l ++ ServerTranscript old :: r
     /\ interim old = true
     /\ Forall (fun m => is_interim m = false) l
     /\ [Ready; ServerTranscript (sample_final "hey" 12)]
        = l ++ r ++ [ServerTranscript (sample_final "hey" 12)])
  /\ finals (delivered_to 2%nat (room_run 2%nat (js "abc") [] sample_run).2
               ++ pending 2%nat (room_run 2%nat (js "abc") [] sample_run).1)
     = finals (broadcast_since 2%nat (room_run 2%nat (js "abc") [] sample_run).2).
Proof.
  destruct (finals_never_dropped 2%nat (js "abc")) as (Hq & _ & Hrun). split.
  - destruct (Hq [Ready; ServerTranscript (sample_interim "he" 7)]
                (sample_final "hey" 12)
                [Ready; ServerTranscript (sample_final "hey" 12)] eq_refl)
      as [H|[H|[H _]]]; [discriminate|exact H|discriminate].
  - apply (Hrun sample_run 2%nat).
    eexists. split; reflexivity.
Defined.

(** The sample run: the second producer is turned away, the two interims
    give way to newer transcripts, and the consumer receives the finals in
    the order of their broadcast. *)
Example sample_run_trace :
  (room_run 2%nat (js "abc") [] sample_run).2 =
    [Joined 1%nat Producer; Joined 2%nat Consumer;
     Closed 3%nat ProducerSlotOccupied;
     Broadcast (sample_interim "h" 10);
     Broadcast (sample_interim "he" 7);
     Broadcast (sample_final "hey" 12);
     Delivered 2%nat Ready;
     Delivered 2%nat (ServerTranscript (sample_final "hey" 12));
     Broadcast (sample_final "you" 13)]
  /\ pending 2%nat (room_run 2%nat (js "abc") [] sample_run).1 = [sample_final "you" 13].
Proof. split; reflexivity. Qed.

(** A consumer that does not drain its queue is closed by the first final
    that finds the queue full of messages that may not be dropped. *)
Example sample_overflow :
  (room_run 1%nat (js "abc") []
     [Connect 1%nat Producer (Verified (js "abc") 1000);
      Connect 2%nat Consumer (Verified (js "abc") 1000);
      Frame 1%nat (Message (ClientTranscript false (js "hey") None)) 12 Allowed]).2
  = [Joined 1%nat Producer; Joined 2%nat Consumer;
     Broadcast (sample_final "hey" 12);
     Closed 2%nat BackpressureOverflow].
Proof. reflexivity. Qed.

End RelayFacts.

(** ** More on the relay socket URL *)

Module VoiceSessionMore.
Import JS JSText JSFacts VoiceSession Samples.

Lemma component_char_not_question_mark (c : code_unit) :
  is_unescaped c = true \/ c = percent -> c <> question_mark.
Proof. intros [Hu| ->] E; [subst c|]; discriminate. Qed.

(** A string is cut at the first occurrence of a character in one way. *)
Lemma cut_at_first (q : code_unit) (a a' x x' : jsstring) :
  Forall (fun c => c <> q) a -> Forall (fun c => c <> q) a' ->
  a ++ q :: x = a' ++ q :: x' -> a = a' /\ x = x'.
Proof.
  intros Ha. revert a'. induction Ha as [|c a Hc Ha IH]; intros a' Ha' E.
  - destruct Ha' as [|c' a' Hc' Ha']; simpl in E.
    + by injection E as ->.
    + by injection E as <- _.
  - destruct Ha' as [|c' a' Hc' Ha']; simpl in E.
    + by injection E as -> _.
    + injection E as -> E. destruct (IH a' Ha' E) as [-> ->]. done.
Qed.

(** And at the last occurrence as well. *)
Lemma cut_at_last (q : code_unit) (a a' x x' : jsstring) :
  Forall (fun c => c <> q) x -> Forall (fun c => c <> q) x' ->
  a ++ q :: x = a' ++ q :: x' -> a = a' /\ x = x'.
Proof.
  intros Hx Hx' E. apply (f_equal (@rev code_unit)) in E.
  rewrite !rev_app_distr in E. simpl in E. rewrite <- !app_assoc in E.
  simpl in E. apply cut_at_first in E as [E1 E2].
  - split.
    + by rewrite <- (rev_involutive a), E2, rev_involutive.
    + by rewrite <- (rev_involutive x), E1, rev_involutive.
  - apply Forall_forall. intros c Hc. apply list_elem_of_In, in_rev in Hc.
    rewrite Forall_forall in Hx. by apply Hx, list_elem_of_In.
  - apply Forall_forall. intros c Hc. apply list_elem_of_In, in_rev in Hc.
    rewrite Forall_forall in Hx'. by apply Hx', list_elem_of_In.
Qed.

Lemma buildRelayWsUrl_inv (info : SessionInfo) (u : jsstring) :
  buildRelayWsUrl info = Some u ->
  exists t,
    encodeURIComponent (token info) = Some t
    /\ u = (replace_slash_at_end (relayUrl info) ++ js "/s/" ++ sessionId info)
             ++ question_mark :: js "t=" ++ t.
Proof.
  unfold buildRelayWsUrl.
  destruct (encodeURIComponent (token info)) as [t|]; [|discriminate].
  simpl. intros [= <-]. exists t. split; [done|].
  by rewrite <- !app_assoc.
Qed.

(** X1. The URL of [buildRelayWsUrl] determines the token: two sessions
    with the same URL have the same token, and the same address before
    the query. *)
Theorem buildRelayWsUrl_token_inj (info info' : SessionInfo) (u : jsstring) :
  buildRelayWsUrl info = Some u ->
  buildRelayWsUrl info' = Some u ->
  token info = token info'
  /\ replace_slash_at_end (relayUrl info) ++ js "/s/" ++ sessionId info
     = replace_slash_at_end (relayUrl info') ++ js "/s/" ++ sessionId info'.
Proof.
  intros H H'.
  apply buildRelayWsUrl_inv in H as (t & Ht & ->).
  apply buildRelayWsUrl_inv in H' as (t' & Ht' & E).
  assert (forall s e, encodeURIComponent s = Some e ->
            Forall (fun c => c <> question_mark) (js "t=" ++ e)) as Hfree.
  { intros s e He. apply Forall_app. split; [by repeat constructor|].
    eapply Forall_impl; [by eapply encodeURIComponent_chars|].
    apply component_char_not_question_mark. }
  apply cut_at_last in E as [E1 E2]; [|by eapply Hfree..].
  split; [|done]. apply app_inv_head in E2. subst t'.
  by eapply encodeURIComponent_inj.
Qed.

Lemma buildRelayWsUrl_token_inj_witness :
  token sample_info = token (with_relayUrl sample_info (js "wss://relay.example/")).
Proof.
  apply (buildRelayWsUrl_token_inj sample_info
           (with_relayUrl sample_info (js "wss://relay.example/"))
           (js "wss://relay.example/s/abc?t=a.b%2Fc")); reflexivity.
Defined.

Lemma ends_with_slash_app (a x : jsstring) :
  x <> [] -> ends_with_slash (a ++ x) = ends_with_slash x.
Proof.
  intros Hx. unfold ends_with_slash.
  destruct x as [|c x] using rev_ind; [done|].
  by rewrite app_assoc, !last_snoc.
Qed.

(** X2. The sessionId goes into the URL as it is: a session id that holds
    "/s/" gives the URL of a shorter session id on a longer base. *)
Theorem buildRelayWsUrl_sessionId_verbatim (r x y tok : jsstring) (e e' : Z) :
  ends_with_slash r = false -> x <> [] -> ends_with_slash x = false ->
  buildRelayWsUrl
    {| sessionId := x ++ js "/s/" ++ y; token := tok; relayUrl := r;
       expiresAt := e |}
  = buildRelayWsUrl
      {| sessionId := y; token := tok; relayUrl := r ++ js "/s/" ++ x;
         expiresAt := e' |}.
Proof.
  intros Hr Hx Hx'. unfold buildRelayWsUrl. cbn [relayUrl sessionId token].
  rewrite (replace_slash_at_end_other r Hr).
  rewrite (replace_slash_at_end_other (r ++ js "/s/" ++ x)).
  - destruct (encodeURIComponent tok) as [t|]; [|done].
    cbn [mbind option_bind]. by rewrite <- !app_assoc.
  - rewrite app_assoc, ends_with_slash_app; done.
Qed.

Lemma buildRelayWsUrl_sessionId_verbatim_witness :
  buildRelayWsUrl
    {| sessionId := js "a/s/b"; token := js "t"; relayUrl := js "wss://r";
       expiresAt := 0 |}
  = buildRelayWsUrl
      {| sessionId := js "b"; token := js "t"; relayUrl := js "wss://r/s/a";
         expiresAt := 1 |}.
Proof.
  apply (buildRelayWsUrl_sessionId_verbatim (js "wss://r") (js "a") (js "b")
           (js "t") 0 1); [reflexivity|discriminate|reflexivity].
Defined.

End VoiceSessionMore.

(** ** The content script *)

Module ContentScriptFacts.
Import JS JSText JSFacts ContentScript MoreSamples.

(** *** Prefixes, suffixes and matches *)

Lemma starts_with_spec (p s : jsstring) :
  starts_with p s = true <-> exists r, s = p ++ r.
Proof.
  revert s. induction p as [|c p IH]; intros s; simpl.
  - split; eauto.
  - destruct s as [|d s].
    + split; [discriminate|]. by intros [r ?].
    + rewrite andb_true_iff, code_unit_eqb_eq, IH. split.
      * intros [-> [r ->]]. by exists r.
      * intros [r [= -> ->]]. eauto.
Qed.

Lemma ends_with_spec (p s : jsstring) :
  ends_with p s = true <-> exists a, s = a ++ p.
Proof.
  unfold ends_with. rewrite starts_with_spec. split.
  - intros [r Hr]. exists (rev r).
    by rewrite <- (rev_involutive s), Hr, rev_app_distr, rev_involutive.
  - intros [a ->]. exists (rev a). by rewrite rev_app_distr.
Qed.

Lemma test_from_spec (at_head : jsstring -> bool) (s : jsstring) :
  test_from at_head s = true <-> exists a b, s = a ++ b /\ at_head b = true.
Proof.
  induction s as [|c s IH]; simpl.
  - rewrite orb_false_r. split.
    + intros H. by exists [], [].
    + intros (a & b & E & H). symmetry in E.
      apply app_eq_nil in E as [-> ->]. done.
  - rewrite orb_true_iff, IH. split.
    + intros [H|(a & b & -> & H)]; [by exists [], (c :: s)|].
      by exists (c :: a), b.
    + intros (a & b & E & H). destruct a as [|d a]; simpl in E.
      * left. by subst b.
      * injection E as -> ->. right. eauto.
Qed.

(** *** Disabled sites *)

Lemma site_covers_spec (currentDomain site : jsstring) :
  site_covers currentDomain site = true <->
  currentDomain = site \/ exists sub, currentDomain = sub ++ dot :: site.
Proof.
  unfold site_covers.
  rewrite orb_true_iff, bool_decide_eq_true, ends_with_spec. done.
Qed.

Lemma site_covers_tail (pre site : jsstring) :
  pre <> [] -> last pre <> Some dot -> site_covers (pre ++ site) site = false.
Proof.
  intros Hpre Hlast. apply not_true_is_false. rewrite site_covers_spec.
  intros [E|[sub E]].
  - apply (f_equal (@length code_unit)) in E. rewrite length_app in E.
    destruct pre; [done|]. simpl in E. lia.
  - change (sub ++ dot :: site) with (sub ++ [dot] ++ site) in E.
    rewrite app_assoc in E. apply app_inv_tail in E. subst pre.
    by rewrite last_snoc in Hlast.
Qed.

(** X3. The extension counts as disabled on the current domain exactly
    when the list holds the domain itself or a parent of it, that is, a
    site the domain ends with after a dot; a missing list disables
    nothing, and a site that is a mere tail of the domain (no dot before
    it) does not cover it. *)
Theorem isCurrentlyDisabled_spec (currentDomain : jsstring)
    (disabledSites : option (list jsstring)) :
  (isCurrentlyDisabled currentDomain disabledSites = true <->
   exists sites site,
     disabledSites = Some sites /\ In site sites
     /\ (currentDomain = site \/ exists sub, currentDomain = sub ++ dot :: site))
  /\ (forall pre site,
        pre <> [] -> last pre <> Some dot ->
        isCurrentlyDisabled (pre ++ site) (Some [site]) = false).
Proof.
  split.
  - unfold isCurrentlyDisabled. rewrite existsb_exists. split.
    + intros (site & Hin & Hc). destruct disabledSites as [sites|]; [|done].
      exists sites, site. by rewrite <- site_covers_spec.
    + intros (sites & site & -> & Hin & Hc). exists site.
      by rewrite site_covers_spec.
  - intros pre site Hpre Hlast. unfold isCurrentlyDisabled. simpl.
    by rewrite site_covers_tail.
Qed.

Lemma isCurrentlyDisabled_spec_witness :
  isCurrentlyDisabled (js "shop.example.com") (Some [js "example.com"]) = true
  /\ isCurrentlyDisabled (js "notexample.com") (Some [js "example.com"]) = false.
Proof.
  split.
  - apply (proj1 (isCurrentlyDisabled_spec (js "shop.example.com")
                    (Some [js "example.com"]))).
    exists [js "example.com"], (js "example.com").
    split; [reflexivity|]. split; [by left|]. right. by exists (js "shop").
  - apply (proj2 (isCurrentlyDisabled_spec (js "") None) (js "not")
             (js "example.com")); discriminate.
Defined.


(** *** Excluded URLs *)

Lemma pm_popup_at_spec (b : jsstring) :
  pm_popup_at b = true <->
  exists sep rest,
    b = sep :: js "pm_popup=1" ++ rest
    /\ (sep = question_mark \/ sep = ampersand)
    /\ match rest with d :: _ => is_digit d = false | [] => True end.
Proof.
  unfold pm_popup_at. destruct b as [|c b].
  - split; [discriminate|]. by intros (? & ? & ? & _).
  - rewrite !andb_true_iff, orb_true_iff, !code_unit_eqb_eq, starts_with_spec.
    rewrite negb_true_iff. split.
    + intros [[Hc [rest ->]] Hd]. exists c, rest. split; [done|].
      split; [done|]. change (skipn 10 (js "pm_popup=1" ++ rest)) with rest in Hd.
      by destruct rest.
    + intros (sep & rest & [= -> ->] & Hsep & Hd).
      split; [split; [done|by exists rest]|].
      change (skipn 10 (js "pm_popup=1" ++ rest)) with rest.
      by destruct rest.
Qed.

Lemma literal_ci_at_spec (p b : jsstring) :
  literal_ci_at p b = true <->
  exists m rest,
    b = m ++ rest /\ Forall2 (fun c d => canonicalize c = canonicalize d) p m.
Proof.
  revert b. induction p as [|c p IH]; intros b; simpl.
  - split; [intros _; by exists [], b|done].
  - destruct b as [|d b].
    + split; [discriminate|]. intros (m & rest & E & H).
      inversion H; subst. discriminate.
    + rewrite andb_true_iff, Z.eqb_eq, IH. split.
      * intros [Hc (m & rest & -> & H)]. exists (d :: m), rest.
        split; [done|]. by constructor.
      * intros (m & rest & E & H). inversion H as [|? d' ? m' Hc H']; subst.
        injection E as -> ->. split; [done|]. eauto.
Qed.

(** X5. A URL is excluded exactly when it holds "?pm_popup=1" or
    "&pm_popup=1" not followed by a digit, or holds, in any mix of upper
    and lower case, the text "paymore-extension.vercel.app". *)
Theorem isExcludedUrl_spec (url : jsstring) :
  isExcludedUrl url = true <->
  (exists a sep rest,
     url = a ++ sep :: js "pm_popup=1" ++ rest
     /\ (sep = question_mark \/ sep = ampersand)
     /\ match rest with d :: _ => is_digit d = false | [] => True end)
  \/ (exists a m rest,
        url = a ++ m ++ rest
        /\ Forall2 (fun c d => canonicalize c = canonicalize d)
             (js "paymore-extension.vercel.app") m).
Proof.
  unfold isExcludedUrl, EXCLUDE_URLS.
  destruct (test_from pm_popup_at url) eqn:H1.
  - split; [intros _|done]. left.
    apply test_from_spec in H1 as (a & b & -> & Hb).
    apply pm_popup_at_spec in Hb as (sep & rest & -> & Hsep & Hd).
    by exists a, sep, rest.
  - cbn [existsb]. rewrite orb_false_r, test_from_spec. split.
    + intros (a & b & -> & Hb). right.
      apply literal_ci_at_spec in Hb as (m & rest & -> & Hm). by exists a, m, rest.
    + intros [(a & sep & rest & -> & Hsep & Hd)|(a & m & rest & -> & Hm)].
      * assert (test_from pm_popup_at (a ++ sep :: js "pm_popup=1" ++ rest) = true)
          as H; [|congruence].
        apply test_from_spec. eexists a, _. split; [done|].
        apply pm_popup_at_spec. by exists sep, rest.
      * exists a, (m ++ rest). split; [done|].
        apply literal_ci_at_spec. by exists m, rest.
Qed.

(** On an excluded URL [showModal] does nothing. *)
Lemma showModal_excluded (href : jsstring) (root : bool) (st : Controller) :
  isExcludedUrl href = true -> showModal href root st = (st, []).
Proof. intros H. unfold showModal. by rewrite H. Qed.


Example isExcludedUrl_samples :
  isExcludedUrl (js "https://x.example/?pm_popup=1") = true
  /\ isExcludedUrl (js "https://x.example/?a=1&pm_popup=1&b=2") = true
  /\ isExcludedUrl (js "https://x.example/?pm_popup=10") = false
  /\ isExcludedUrl (js "https://PayMore-Extension.Vercel.APP/tools") = true
  /\ isExcludedUrl (js "https://x.example/") = false.
Proof. repeat split; reflexivity. Qed.

(** *** Headings *)






(** *** White space *)

Lemma collapse_from_well_spaced (in_run : bool) (s : jsstring) :
  well_spaced in_run (collapse_from in_run s) = true.
Proof.
  revert in_run. induction s as [|c s IH]; intros in_run; [done|].
  simpl. destruct (is_white_space c) eqn:Hc.
  - destruct in_run; [apply IH|]. simpl.
    change (is_white_space space) with true. simpl. apply IH.
  - simpl. rewrite Hc. apply IH.
Qed.

Lemma collapse_from_fixed (after_space : bool) (s : jsstring) :
  well_spaced after_space s = true -> collapse_from after_space s = s.
Proof.
  revert after_space. induction s as [|c s IH]; intros a; [done|].
  simpl. destruct (is_white_space c) eqn:Hc.
  - rewrite !andb_true_iff, code_unit_eqb_eq, negb_true_iff.
    intros [[-> ->] Hs]. by rewrite (IH true Hs).
  - intros Hs. by rewrite (IH false Hs).
Qed.

Lemma collapse_from_black (in_run : bool) (s : jsstring) :
  List.filter is_black (collapse_from in_run s) = List.filter is_black s.
Proof.
  revert in_run. induction s as [|c s IH]; intros in_run; [done|].
  simpl. unfold is_black at 2. destruct (is_white_space c) eqn:Hc; simpl.
  - destruct in_run; [apply IH|]. simpl. apply IH.
  - unfold is_black at 1. rewrite Hc. simpl. f_equal. apply IH.
Qed.

Lemma collapse_from_length (in_run : bool) (s : jsstring) :
  (length (collapse_from in_run s) <= length s)%nat.
Proof.
  revert in_run. induction s as [|c s IH]; intros in_run; [done|].
  pose proof (IH true). pose proof (IH false).
  simpl. destruct (is_white_space c); [destruct in_run|]; simpl; lia.
Qed.

Lemma well_spaced_firstn (n : nat) (after_space : bool) (s : jsstring) :
  well_spaced after_space s = true -> well_spaced after_space (firstn n s) = true.
Proof.
  revert after_space s. induction n as [|n IH]; intros a s; [done|].
  destruct s as [|c s]; [done|]. simpl.
  destruct (is_white_space c).
  - rewrite !andb_true_iff. intros [H Hs]. split; [done|]. by apply IH.
  - apply IH.
Qed.

Lemma well_spaced_weaken (s : jsstring) :
  well_spaced true s = true -> well_spaced false s = true.
Proof.
  destruct s as [|c s]; [done|]. simpl.
  destruct (is_white_space c); [|done].
  rewrite !andb_true_iff. by intros [[_ ?] _].
Qed.

(** X6. Replacing the runs of white space by single spaces leaves a text
    in which every white-space character is a space with no white space
    next to it, keeps the other characters as they are and in their order,
    never lengthens the text, and changes nothing when done again. *)
Theorem collapse_white_space_normal (s : jsstring) :
  well_spaced false (collapse_white_space s) = true
  /\ List.filter is_black (collapse_white_space s) = List.filter is_black s
  /\ (length (collapse_white_space s) <= length s)%nat
  /\ collapse_white_space (collapse_white_space s) = collapse_white_space s.
Proof.
  unfold collapse_white_space.
  split; [apply collapse_from_well_spaced|].
  split; [apply collapse_from_black|].
  split; [apply collapse_from_length|].
  apply collapse_from_fixed, collapse_from_well_spaced.
Qed.

(** X7. The excerpt and the selection of the page context are bounded: the
    excerpt is the first 20000 code units at most of the collapsed inner
    text, itself free of runs of white space, and the selection the first
    4000 at most of the selected text; without a body text or a selection
    they are empty. *)
Theorem page_context_bounded (page : Page) :
  Z.of_nat (length (context_excerpt page)) <= 20000
  /\ context_excerpt page `prefix_of` collapse_white_space (or_empty (innerText page))
  /\ well_spaced false (context_excerpt page) = true
  /\ Z.of_nat (length (context_selection page)) <= 4000
  /\ context_selection page `prefix_of` or_empty (selected page)
  /\ (innerText page = None -> context_excerpt page = [])
  /\ (selected page = None -> context_selection page = []).
Proof.
  unfold context_excerpt, context_selection, slice_to.
  split; [rewrite length_take; unfold maxChars; lia|].
  split; [apply prefix_take|].
  split; [apply well_spaced_firstn, collapse_from_well_spaced|].
  split; [rewrite length_take; lia|].
  split; [apply prefix_take|].
  split; intros ->; unfold or_empty, collapse_white_space;
    cbn [collapse_from]; apply firstn_nil.
Qed.

Lemma page_context_bounded_witness :
  context_excerpt sample_page = [] /\ context_selection sample_page = [].
Proof.
  split.
  - apply (proj1 (proj2 (proj2 (proj2 (proj2 (proj2
             (page_context_bounded sample_page))))))).
    reflexivity.
  - apply (proj2 (proj2 (proj2 (proj2 (proj2 (proj2
             (page_context_bounded sample_page))))))).
    reflexivity.
Defined.

(** *** The controller tool *)

Section Controller.

Context {number : Type}.
Variable over_press : number -> bool.
Variable over_axis : number -> bool.

Local Abbreviation handle := (handle over_press over_axis).
Local Abbreviation run := (run over_press over_axis).
Local Abbreviation on_poll := (on_poll over_press over_axis).

Ltac settle := repeat split; simpl; try done; try (intuition discriminate).

Lemma showModal_keeps (href : jsstring) (root : bool) (st : Controller) :
  lastControllerPopupAt (showModal href root st).1 = lastControllerPopupAt st
  /\ gamepadAccessDenied (showModal href root st).1 = gamepadAccessDenied st
  /\ lastActive (showModal href root st).1 = lastActive st
  /\ autoShow (showModal href root st).1 = autoShow st
  /\ ~ In OpenInSidebar (showModal href root st).2.
Proof.
  unfold showModal. destruct (isExcludedUrl href); [settle|].
  destruct root; [settle|]. destruct (negb (modalInjected st)); settle.
Qed.

Lemma hideModal_keeps (time : Z) (root : bool) (st : Controller) :
  lastControllerPopupAt (hideModal time root st).1 = lastControllerPopupAt st
  /\ gamepadAccessDenied (hideModal time root st).1 = gamepadAccessDenied st
  /\ lastActive (hideModal time root st).1 = lastActive st
  /\ autoShow (hideModal time root st).1 = autoShow st
  /\ ~ In OpenInSidebar (hideModal time root st).2.
Proof.
  unfold hideModal. destruct root; settle.
Qed.

(** What one event does to the instant of the last opening. *)
Lemma handle_opening (st : Controller) (e : Event number) :
  match opened_at (e, (handle st e).2) with
  | Some t =>
      lastControllerPopupAt (handle st e).1 = t
      /\ 5000 < t - lastControllerPopupAt st
      /\ (handle st e).2 = [OpenInSidebar]
  | None =>
      lastControllerPopupAt (handle st e).1 = lastControllerPopupAt st
      /\ ~ In OpenInSidebar (handle st e).2
  end.
Proof.
  destruct e as [v|href root|time root|connectedAt time tabActive
                 |time tabActive b1 b2|visible time root|time root
                 |domain sites time root container]; simpl.
  - settle.
  - destruct (showModal_keeps href root (set_manualOpen true st))
      as (H1 & _ & _ & _ & H2). done.
  - destruct (hideModal_keeps time root (set_manualOpen false st))
      as (H1 & _ & _ & _ & H2). done.
  - destruct (tabActive && (5000 <? time - lastControllerPopupAt st)) eqn:Ho;
      simpl; [|settle].
    apply andb_true_iff in Ho as [_ Ho]. repeat split. lia.
  - unfold ContentScript.on_poll.
    destruct (safeGetGamepads (gamepadAccessDenied st) b1) as [denied1 pads1].
    destruct (safeGetGamepads denied1 b2) as [denied2 pads2].
    match goal with |- context [if ?c then [OpenInSidebar] else []] =>
      destruct c eqn:Ho end; simpl; [|settle].
    apply andb_true_iff in Ho as [_ Ho]. repeat split. lia.
  - destruct (negb visible && modalVisible st); [|settle].
    destruct (hideModal_keeps time root st) as (H1 & _ & _ & _ & H2). done.
  - destruct (modalVisible st); [|settle].
    destruct (hideModal_keeps time root st) as (H1 & _ & _ & _ & H2). done.
  - destruct (isCurrentlyDisabled domain sites); [|settle].
    destruct (hideModal_keeps time root st) as (H1 & _ & _ & _ & H2).
    destruct (hideModal time root st) as [st' fx]. simpl in *.
    split; [done|]. rewrite in_app_iff. intros [?|Hin]; [done|].
    destruct container; [by destruct Hin|done].
Qed.

Lemma openings_cons (entry : Event number * list Effect)
    (log : list (Event number * list Effect)) :
  openings (entry :: log) =
    match opened_at entry with
    | Some t => t :: openings log
    | None => openings log
    end.
Proof. reflexivity. Qed.

Lemma run_cons (st : Controller) (e : Event number) (events : list (Event number)) :
  run st (e :: events) =
    ((run (handle st e).1 events).1,
     (e, (handle st e).2) :: (run (handle st e).1 events).2).
Proof.
  cbn [ContentScript.run].
  destruct (ContentScript.handle over_press over_axis st e) as [st1 fx].
  cbn [fst snd].
  by destruct (ContentScript.run over_press over_axis st1 events).
Qed.

Lemma run_spaced (events : list (Event number)) (st : Controller) :
  spaced 5000 (lastControllerPopupAt st) (openings (run st events).2)
  /\ Forall (fun entry => In OpenInSidebar entry.2 -> is_Some (opened_at entry))
       (run st events).2.
Proof.
  revert st. induction events as [|e events IH]; intros st; [by split|].
  rewrite run_cons. cbn [fst snd]. rewrite openings_cons.
  pose proof (handle_opening st e) as He.
  destruct (IH (handle st e).1) as [IH1 IH2].
  destruct (opened_at (e, (handle st e).2)) as [t|] eqn:Ht.
  - destruct He as (Hlast & Hgap & _). rewrite Hlast in IH1.
    split; [by split|]. constructor; [|done]. intros _. by rewrite Ht.
  - destruct He as (Hlast & Hnone). rewrite Hlast in IH1.
    split; [done|]. constructor; [|done]. by intros ?.
Qed.

(** X9. However the events fall, the script asks for the controller tool
    at most once in any 5 seconds: each request comes more than 5000 ms
    after the one before it, by the very clock readings of the events, and
    no request is made outside the gamepad connection and the polling
    loop. *)
Theorem controller_tool_spaced (events : list (Event number)) :
  spaced 5000 0 (openings (run ContentScript.initial events).2)
  /\ Forall (fun entry => In OpenInSidebar entry.2 -> is_Some (opened_at entry))
       (run ContentScript.initial events).2.
Proof. apply (run_spaced events ContentScript.initial). Qed.

Lemma safeGetGamepads_denied (b : Browser number) :
  safeGetGamepads true b = (true, []).
Proof. reflexivity. Qed.

Lemma handle_denied (st : Controller) (e : Event number) :
  gamepadAccessDenied st = true ->
  gamepadAccessDenied (handle st e).1 = true
  /\ lastActive (handle st e).1 = lastActive st.
Proof.
  intros Hd.
  destruct e as [v|href root|time root|connectedAt time tabActive
                 |time tabActive b1 b2|visible time root|time root
                 |domain sites time root container]; simpl.
  - done.
  - destruct (showModal_keeps href root (set_manualOpen true st))
      as (_ & H1 & H2 & _). by rewrite H1, H2.
  - destruct (hideModal_keeps time root (set_manualOpen false st))
      as (_ & H1 & H2 & _). by rewrite H1, H2.
  - done.
  - unfold ContentScript.on_poll. rewrite Hd. by simpl.
  - destruct (negb visible && modalVisible st); [|done].
    destruct (hideModal_keeps time root st) as (_ & H1 & H2 & _).
    by rewrite H1, H2.
  - destruct (modalVisible st); [|done].
    destruct (hideModal_keeps time root st) as (_ & H1 & H2 & _).
    by rewrite H1, H2.
  - destruct (isCurrentlyDisabled domain sites); [|done].
    destruct (hideModal_keeps time root st) as (_ & H1 & H2 & _).
    destruct (hideModal time root st) as [st' fx]. simpl in *.
    by rewrite H1, H2.
Qed.

(** X10. Once the access to the gamepads was found denied it stays so:
    however the script runs on, it reads no gamepad again and records no
    further activity. *)
Theorem gamepad_denial_latched (events : list (Event number)) (st : Controller) :
  gamepadAccessDenied st = true ->
  gamepadAccessDenied (run st events).1 = true
  /\ lastActive (run st events).1 = lastActive st
  /\ forall b : Browser number, safeGetGamepads (gamepadAccessDenied (run st events).1) b
                                = (true, []).
Proof.
  revert st. induction events as [|e events IH]; intros st Hd.
  - simpl. rewrite Hd. by repeat split.
  - rewrite run_cons. cbn [fst snd].
    destruct (handle_denied st e Hd) as [H1 H2].
    destruct (IH (handle st e).1 H1) as (IH1 & IH2 & IH3).
    split; [done|]. split; [congruence|done].
Qed.

Lemma handle_without_root (st : Controller) (e : Event number) :
  found_root e = false ->
  modalVisible st = false -> userDismissed st = false -> lastDismissedAt st = 0 ->
  modalVisible (handle st e).1 = false
  /\ userDismissed (handle st e).1 = false
  /\ lastDismissedAt (handle st e).1 = 0
  /\ (forall b, ~ In (RootDisplay b) (handle st e).2).
Proof.
  intros Hr Hv Hu Hl.
  destruct e as [v|href root|time root|connectedAt time tabActive
                 |time tabActive b1 b2|visible time root|time root
                 |domain sites time root container]; simpl in *; subst.
  - settle.
  - unfold showModal. destruct (isExcludedUrl href); [settle|].
    destruct (negb (modalInjected _)); settle.
  - settle.
  - destruct (tabActive && _); settle.
  - unfold ContentScript.on_poll.
    destruct (safeGetGamepads (gamepadAccessDenied st) b1) as [denied1 pads1].
    destruct (safeGetGamepads denied1 b2) as [denied2 pads2].
    match goal with |- context [if ?c then [OpenInSidebar] else []] =>
      destruct c end; settle.
  - rewrite Hv, andb_false_r. settle.
  - rewrite Hv. settle.
  - destruct (isCurrentlyDisabled domain sites); [destruct container|]; settle.
Qed.

(** X11. As long as the page holds no element with the id of the modal
    (the script itself inserts none), the modal is never shown nor
    dismissed: no display is ever set, and the dismissal that would hold
    back the automatic opening is never recorded. *)
Theorem modal_never_shown_without_root (events : list (Event number)) :
  Forall (fun e => found_root e = false) events ->
  modalVisible (run ContentScript.initial events).1 = false
  /\ userDismissed (run ContentScript.initial events).1 = false
  /\ lastDismissedAt (run ContentScript.initial events).1 = 0
  /\ Forall (fun entry => forall b, ~ In (RootDisplay b) entry.2)
       (run ContentScript.initial events).2.
Proof.
  assert (forall st,
            Forall (fun e => found_root e = false) events ->
            modalVisible st = false -> userDismissed st = false ->
            lastDismissedAt st = 0 ->
            modalVisible (run st events).1 = false
            /\ userDismissed (run st events).1 = false
            /\ lastDismissedAt (run st events).1 = 0
            /\ Forall (fun entry => forall b, ~ In (RootDisplay b) entry.2)
                 (run st events).2) as Hgen.
  { induction events as [|e events IH]; intros st Hall Hv Hu Hl; [by repeat split|].
    apply Forall_cons in Hall as [He Hall]. rewrite run_cons. cbn [fst snd].
    destruct (handle_without_root st e He Hv Hu Hl) as (H1 & H2 & H3 & H4).
    destruct (IH (handle st e).1 Hall H1 H2 H3) as (I1 & I2 & I3 & I4).
    repeat split; try done. by constructor. }
  intros Hall. by apply Hgen.
Qed.

Lemma handle_autoShow_off (st : Controller) (e : Event number) :
  is_storage_loaded e = false -> autoShow st = false ->
  autoShow (handle st e).1 = false
  /\ (In OpenInSidebar (handle st e).2 -> is_gamepad_connected e = true).
Proof.
  intros He Ha.
  destruct e as [v|href root|time root|connectedAt time tabActive
                 |time tabActive b1 b2|visible time root|time root
                 |domain sites time root container]; simpl in *.
  - done.
  - destruct (showModal_keeps href root (set_manualOpen true st))
      as (_ & _ & _ & H1 & H2). by rewrite H1.
  - destruct (hideModal_keeps time root (set_manualOpen false st))
      as (_ & _ & _ & H1 & H2). by rewrite H1.
  - done.
  - unfold ContentScript.on_poll.
    destruct (safeGetGamepads (gamepadAccessDenied st) b1) as [denied1 pads1].
    destruct (safeGetGamepads denied1 b2) as [denied2 pads2]. simpl.
    rewrite Ha. settle.
  - destruct (negb visible && modalVisible st); [|settle].
    destruct (hideModal_keeps time root st) as (_ & _ & _ & H1 & H2).
    by rewrite H1.
  - destruct (modalVisible st); [|settle].
    destruct (hideModal_keeps time root st) as (_ & _ & _ & H1 & H2).
    by rewrite H1.
  - destruct (isCurrentlyDisabled domain sites); [|settle].
    destruct (hideModal_keeps time root st) as (_ & _ & _ & H1 & H2).
    destruct (hideModal time root st) as [st' fx]. simpl in *.
    split; [congruence|]. rewrite in_app_iff. intros [?|Hin]; [done|].
    destruct container; [by destruct Hin|done].
Qed.

(** X12. With the automatic opening switched off, the polling loop never
    asks for the controller tool; the listener of gamepad connections
    does not consult the switch, and is the only one that still asks. *)
Theorem autoShow_off_polls_nothing (events : list (Event number)) (st : Controller) :
  autoShow st = false ->
  Forall (fun e => is_storage_loaded e = false) events ->
  Forall (fun entry => In OpenInSidebar entry.2 -> is_gamepad_connected entry.1 = true)
    (run st events).2
  /\ (forall connectedAt time,
        5000 < time - lastControllerPopupAt st ->
        (handle st (GamepadConnected connectedAt time true)).2 = [OpenInSidebar]).
Proof.
  intros Ha Hall. split.
  - revert st Ha. induction Hall as [|e events He Hall IH]; intros st Ha;
      [constructor|].
    rewrite run_cons. cbn [fst snd].
    destruct (handle_autoShow_off st e He Ha) as [H1 H2].
    specialize (IH (handle st e).1 H1). by constructor.
  - intros connectedAt time Hgap. simpl.
    destruct (5000 <? time - lastControllerPopupAt st) eqn:E; [done|lia].
Qed.

End Controller.

Lemma gamepad_denial_latched_witness :
  gamepadAccessDenied
    (run sample_over_press sample_over_axis sample_denied sample_events).1 = true
  /\ lastActive
       (run sample_over_press sample_over_axis sample_denied sample_events).1
     = lastActive sample_denied
  /\ forall b : Browser Z,
       safeGetGamepads
         (gamepadAccessDenied
            (run sample_over_press sample_over_axis sample_denied sample_events).1) b
       = (true, []).
Proof.
  apply (gamepad_denial_latched sample_over_press sample_over_axis
           sample_events sample_denied).
  reflexivity.
Defined.

Lemma modal_never_shown_without_root_witness :
  modalVisible
    (run sample_over_press sample_over_axis ContentScript.initial sample_events).1
  = false
  /\ userDismissed
       (run sample_over_press sample_over_axis ContentScript.initial sample_events).1
     = false
  /\ lastDismissedAt
       (run sample_over_press sample_over_axis ContentScript.initial sample_events).1
     = 0
  /\ Forall (fun entry => forall b, ~ In (RootDisplay b) entry.2)
       (run sample_over_press sample_over_axis ContentScript.initial sample_events).2.
Proof.
  apply (modal_never_shown_without_root sample_over_press sample_over_axis
           sample_events).
  repeat constructor.
Defined.

Lemma autoShow_off_polls_nothing_witness :
  Forall (fun entry => In OpenInSidebar entry.2 -> is_gamepad_connected entry.1 = true)
    (run sample_over_press sample_over_axis sample_switched_off sample_events).2
  /\ (forall connectedAt time,
        5000 < time - lastControllerPopupAt sample_switched_off ->
        (handle sample_over_press sample_over_axis sample_switched_off
           (GamepadConnected connectedAt time true)).2 = [OpenInSidebar]).
Proof.
  apply (autoShow_off_polls_nothing sample_over_press sample_over_axis
           sample_events sample_switched_off).
  - reflexivity.
  - repeat constructor.
Defined.

(** *** The unread counter *)

Lemma round_to_double_exact (z : Z) :
  Z.abs z <= 2 ^ 53 -> round_to_double z = z.
Proof.
  intros Hz. unfold round_to_double.
  by destruct (Z.leb_spec (Z.abs z) (2 ^ 53)); [|lia].
Qed.

(** Beyond 2^53 the nearest double is at least 2^52 away from 0. *)
Lemma round_to_double_large (z : Z) :
  2 ^ 53 < z -> 2 ^ 52 <= round_to_double z.
Proof.
  intros Hz. unfold round_to_double.
  destruct (Z.leb_spec (Z.abs z) (2 ^ 53)) as [|_]; [lia|].
  replace (Z.abs z) with z by lia. replace (Z.sgn z) with 1 by lia.
  assert (53 <= Z.log2 z) as Hlog by (apply Z.log2_le_pow2; lia).
  set (e := Z.log2 z - 52).
  assert (0 < 2 ^ e) as Hulp by (apply Z.pow_pos_nonneg; lia).
  assert (2 ^ 52 <= z / 2 ^ e) as Hq.
  { apply Z.div_le_lower_bound; [done|].
    rewrite Z.mul_comm, <- Z.pow_add_r by lia.
    replace (52 + e) with (Z.log2 z) by lia.
    apply Z.log2_spec. lia. }
  assert (1 <= 2 ^ e) by lia.
  set (q := z / 2 ^ e) in *. set (r := z mod 2 ^ e).
  destruct (2 * r <? 2 ^ e); [nia|].
  destruct (2 ^ e <? 2 * r); [nia|].
  destruct (Z.even q); nia.
Qed.

Lemma next_unread_exact (n : Z) :
  - 2 ^ 53 <= n -> next_unread n = Z.min 99 (n + 1).
Proof.
  intros Hn. unfold next_unread.
  destruct (Z.le_gt_cases (n + 1) (2 ^ 53)) as [Hle|Hgt].
  - rewrite round_to_double_exact; [done|lia].
  - pose proof (round_to_double_large (n + 1) Hgt). lia.
Qed.

Lemma unread_after_next (attentions : nat) (n : Z) :
  - 2 ^ 53 <= n ->
  unread_after (S attentions) n = Z.min 99 (n + Z.of_nat (S attentions)).
Proof.
  revert n. induction attentions as [|k IH]; intros n Hn.
  - simpl. rewrite next_unread_exact by done. lia.
  - change (unread_after (S (S k)) n) with (unread_after (S k) (next_unread n)).
    rewrite next_unread_exact by done. rewrite IH by lia. lia.
Qed.

(** X4. After one or more attention messages the unread counter never
    shows more than 99, whatever integer was stored before; when that
    integer is not below -2^53, so that the sums of the engine are exact,
    the counter is the stored count plus the number of messages, capped
    at 99. *)
Theorem unread_after_capped (attentions : nat) (n : Z) :
  (0 < attentions)%nat ->
  unread_after attentions n <= 99
  /\ (- 2 ^ 53 <= n ->
      unread_after attentions n = Z.min 99 (n + Z.of_nat attentions)).
Proof.
  intros Hk. destruct attentions as [|k]; [lia|]. split.
  - clear Hk. revert n. induction k as [|k IH]; intros n.
    + simpl. unfold next_unread. lia.
    + change (unread_after (S (S k)) n) with (unread_after (S k) (next_unread n)).
      apply IH.
  - apply unread_after_next.
Qed.

Lemma unread_after_capped_witness :
  unread_after 120 0 <= 99
  /\ unread_after 120 0 = Z.min 99 (0 + Z.of_nat 120).
Proof.
  destruct (unread_after_capped 120 0 ltac:(lia)) as [Hcap Hsum].
  split; [exact Hcap|]. apply Hsum. lia.
Defined.

(** Below -2^53 the sum is rounded: from -9007199254740994 the counter
    goes to -9007199254740992, two up instead of one. *)
Example next_unread_rounds :
  next_unread (-9007199254740994) = -9007199254740992.
Proof. reflexivity. Qed.

End ContentScriptFacts.

(** ** More on the popup component *)

Module PhoneMicPopupMore.
Import JS JSText JSFacts PhoneMicPopup PhoneMicPopupFacts PopupInvariants.
Import PopupPhases Samples MoreSamples.

(** X13. The socket of [connectRelay] is opened on the very URL that
    [buildRelayWsUrl] gives for the session; when that URL cannot be built
    (the token holds an unpaired surrogate) or the constructor refuses it,
    no socket is opened and the status tells so. *)
Theorem connectRelay_opens_relay_url (info : SessionInfo) (st : Popup) :
  relay_socket_url info = VoiceSession.buildRelayWsUrl info
  /\ (forall u,
        VoiceSession.buildRelayWsUrl info = Some u ->
        connectRelay true info st = (setWsRef (Some u) st, [NewWebSocket u]))
  /\ (forall constructs,
        VoiceSession.buildRelayWsUrl info = None \/ constructs = false ->
        connectRelay constructs info st = (setStatus FailedToConnectRelay st, [])).
Proof.
  assert (relay_socket_url info = VoiceSession.buildRelayWsUrl info) as Hurl.
  { unfold relay_socket_url, VoiceSession.buildRelayWsUrl.
    destruct (encodeURIComponent (token info)); simpl; [|done].
    by rewrite <- !app_assoc. }
  split; [done|]. unfold connectRelay. rewrite Hurl. split.
  - by intros u ->.
  - intros constructs [-> | ->]; [done|].
    by destruct (VoiceSession.buildRelayWsUrl info).
Qed.

Lemma connectRelay_opens_relay_url_witness :
  connectRelay true sample_info initial
  = (setWsRef (Some (js "wss://relay.example/s/abc?t=a.b%2Fc")) initial,
     [NewWebSocket (js "wss://relay.example/s/abc?t=a.b%2Fc")]).
Proof.
  apply (proj1 (proj2 (connectRelay_opens_relay_url sample_info initial))).
  reflexivity.
Defined.

(** X14. When the relay's answer cannot be used (the request fails, the
    answer is not OK, or its body is not JSON), [createSession] leaves
    the session, the QR code, the socket and the preview as they were,
    reports the failure in the status, and has sent nothing but the
    request. *)
Theorem createSession_early_failure (relayBase : jsstring) (env : CreateEnv)
    (st : Popup) :
  (forall code data, fetch_outcome env <> FetchResolved true code (Some data)) ->
  same_cells st (createSession relayBase env st).1
  /\ (exists why, status (createSession relayBase env st).1 = FailedToCreateSession why)
  /\ (createSession relayBase env st).2
     = [Fetch (sessions_url relayBase) (language st) (model st)].
Proof.
  intros Hf. unfold createSession, same_cells.
  destruct (fetch_outcome env) as [|ok code body]; [simpl; eauto 10|].
  destruct ok; [|simpl; eauto 10].
  destruct body as [data|]; [|simpl; eauto 10].
  by destruct (Hf code data).
Qed.

Lemma createSession_early_failure_witness :
  same_cells initial (createSession sample_relay_base sample_refused_env initial).1
  /\ (exists why,
        status (createSession sample_relay_base sample_refused_env initial).1
        = FailedToCreateSession why)
  /\ (createSession sample_relay_base sample_refused_env initial).2
     = [Fetch (sessions_url sample_relay_base) (language initial) (model initial)].
Proof.
  apply (createSession_early_failure sample_relay_base sample_refused_env initial).
  intros code data. discriminate.
Defined.

(** X15. When the relay has answered but the pairing URL cannot be built
    or the QR generator fails, the new session is held all the same,
    though the status reports a failure: no QR code is stored and no
    socket is opened. *)
Theorem createSession_late_failure (relayBase : jsstring) (env : CreateEnv)
    (st : Popup) (code : Z) (data : SessionResponse) :
  fetch_outcome env = FetchResolved true code (Some data) ->
  status (createSession relayBase env st).1 <> WaitingForPhone ->
  (exists info,
     session (createSession relayBase env st).1 = Some info
     /\ sessionId info = r_sessionId data /\ token info = r_token data)
  /\ qrDataUrl (createSession relayBase env st).1 = qrDataUrl st
  /\ wsRef (createSession relayBase env st).1 = wsRef st
  /\ (exists why, status (createSession relayBase env st).1 = FailedToCreateSession why)
  /\ (forall u, ~ In (NewWebSocket u) (createSession relayBase env st).2).
Proof.
  intros Hf. unfold createSession. rewrite Hf. simpl.
  destruct (pairing_url _ _ _) as [url|].
  - destruct (qr_outcome env) as [|qr].
    + intros _. simpl. split; [eauto|]. repeat split; eauto.
      intros u [|[|[]]]; discriminate.
    + match goal with |- context [connectRelay ?c ?i ?s] =>
        destruct (connectRelay c i s) as [st' fx] end.
      by intros [].
  - intros _. simpl. split; [eauto|]. repeat split; eauto.
    intros u [|[]]; discriminate.
Qed.

Lemma createSession_late_failure_witness :
  (exists info,
     session (createSession sample_relay_base sample_no_qr_env initial).1 = Some info
     /\ sessionId info = js "abc" /\ token info = js "a.b.c")
  /\ qrDataUrl (createSession sample_relay_base sample_no_qr_env initial).1 = None
  /\ wsRef (createSession sample_relay_base sample_no_qr_env initial).1 = None
  /\ (exists why,
        status (createSession sample_relay_base sample_no_qr_env initial).1
        = FailedToCreateSession why)
  /\ (forall u,
        ~ In (NewWebSocket u)
            (createSession sample_relay_base sample_no_qr_env initial).2).
Proof.
  apply (createSession_late_failure sample_relay_base sample_no_qr_env initial
           201 sample_response).
  - reflexivity.
  - discriminate.
Defined.

Local Ltac close_case :=
  simpl; repeat split;
  try done;
  try (intros ? Hin; simpl in Hin; intuition discriminate);
  try (intros; simplify_eq; congruence).

(** X21. [createSession] never ends with the status "Failed to connect
    relay": when the socket cannot be constructed, the status that
    [connectRelay] sets is overwritten, and the component waits for the
    phone with the QR code shown though it opened no socket. *)
Theorem createSession_hides_relay_failure (relayBase : jsstring) (env : CreateEnv)
    (st : Popup) :
  ws_constructs env = false ->
  status (createSession relayBase env st).1 <> FailedToConnectRelay
  /\ wsRef (createSession relayBase env st).1 = wsRef st
  /\ (forall u, ~ In (NewWebSocket u) (createSession relayBase env st).2)
  /\ (forall code data url qr,
        fetch_outcome env = FetchResolved true code (Some data) ->
        pairing_url
          {| sessionId := r_sessionId data; token := r_token data;
             relayUrl := relayUrl_or (r_relayUrl data) relayBase;
             expiresAt := now env + SESSION_TTL_MS |}
          (language st) (model st) = Some url ->
        qr_outcome env = QrResolved qr ->
        status (createSession relayBase env st).1 = WaitingForPhone
        /\ qrDataUrl (createSession relayBase env st).1 = Some qr).
Proof.
  intros Hws. unfold createSession. rewrite Hws.
  destruct (fetch_outcome env) as [|ok code body] eqn:Hf; [close_case|].
  destruct ok; simpl; [|close_case].
  destruct body as [data|]; [|close_case].
  destruct (pairing_url _ _ _) as [url|] eqn:Hp; [|close_case].
  destruct (qr_outcome env) as [|qr] eqn:Hq; [close_case|].
  unfold connectRelay. destruct (relay_socket_url _); close_case.
Qed.

Lemma createSession_hides_relay_failure_witness :
  status (createSession sample_relay_base sample_no_socket_env initial).1
  = WaitingForPhone
  /\ qrDataUrl (createSession sample_relay_base sample_no_socket_env initial).1
     = Some (js "data:image/png;base64,AAAA")
  /\ wsRef (createSession sample_relay_base sample_no_socket_env initial).1 = None.
Proof.
  destruct (createSession_hides_relay_failure sample_relay_base
              sample_no_socket_env initial eq_refl) as (_ & Hw & _ & H).
  destruct (H 201 sample_response
              (js "https://voice.paymore.app?s=abc&t=a.b.c&lang=en-US&model=gemini-2.5-pro")
              (js "data:image/png;base64,AAAA") eq_refl eq_refl eq_refl)
    as [Hs Hq].
  split; [exact Hs|]. split; [exact Hq|exact Hw].
Defined.

(** X22. Ending the session right after it was created closes the very
    socket that [createSession] opened, and nothing else; what is left is
    the idle component, with only the language and the model kept. *)
Theorem endSession_closes_opened_socket (relayBase : jsstring) (env : CreateEnv)
    (st : Popup) :
  status (createSession relayBase env st).1 = WaitingForPhone ->
  ws_constructs env = true ->
  exists u,
    In (NewWebSocket u) (createSession relayBase env st).2
    /\ (endSession (createSession relayBase env st).1).2 = [CloseWebSocket u]
    /\ (endSession (createSession relayBase env st).1).1
       = {| session := None; qrDataUrl := None; status := Idle;
            language := language st; model := model st; preview := [];
            wsRef := None |}.
Proof.
  unfold createSession. intros Hs Hws. rewrite Hws in *.
  destruct (fetch_outcome env) as [|ok code body]; [discriminate|].
  destruct ok; [|discriminate]. destruct body as [data|]; [|discriminate].
  simpl in *. destruct (pairing_url _ _ _) as [url|] eqn:Hurl; [|discriminate].
  destruct (qr_outcome env) as [|qr]; [discriminate|].
  unfold connectRelay, relay_socket_url in *.
  apply pairing_url_inv in Hurl as (s & t & l & m & _ & Ht & _). simpl in Ht.
  simpl. rewrite Ht. simpl. eexists. split; [right; right; by left|]. done.
Qed.

Lemma endSession_closes_opened_socket_witness :
  exists u,
    In (NewWebSocket u) (createSession sample_relay_base sample_env initial).2
    /\ (endSession (createSession sample_relay_base sample_env initial).1).2
       = [CloseWebSocket u]
    /\ (endSession (createSession sample_relay_base sample_env initial).1).1
       = {| session := None; qrDataUrl := None; status := Idle;
            language := language initial; model := model initial; preview := [];
            wsRef := None |}.
Proof.
  apply (endSession_closes_opened_socket sample_relay_base sample_env initial);
    reflexivity.
Defined.

(** X23. The pairing URL determines all four values it was made from:
    the session id and the token, and also the language and the model. *)
Theorem pairing_url_determines_all (info info' : SessionInfo)
    (lang lang' mdl mdl' url : jsstring) :
  pairing_url info lang mdl = Some url ->
  pairing_url info' lang' mdl' = Some url ->
  sessionId info' = sessionId info /\ token info' = token info
  /\ lang' = lang /\ mdl' = mdl.
Proof.
  intros H H'.
  apply pairing_url_inv in H as (s & t & l & m & Hs & Ht & Hl & Hm & ->).
  apply pairing_url_inv in H' as (s' & t' & l' & m' & Hs' & Ht' & Hl' & Hm' & E).
  apply app_inv_head in E.
  change (js "&t=" ++ ?x) with (ampersand :: js "t=" ++ x) in E.
  apply cut_at_ampersand in E as [-> E];
    [|by eapply encodeURIComponent_no_ampersand..].
  apply app_inv_head in E.
  change (js "&lang=" ++ ?x) with (ampersand :: js "lang=" ++ x) in E.
  apply cut_at_ampersand in E as [-> E];
    [|by eapply encodeURIComponent_no_ampersand..].
  apply app_inv_head in E.
  change (js "&model=" ++ ?x) with (ampersand :: js "model=" ++ x) in E.
  apply cut_at_ampersand in E as [-> E];
    [|by eapply encodeURIComponent_no_ampersand..].
  apply app_inv_head in E. subst m'.
  repeat split; by eapply encodeURIComponent_inj.
Qed.

Lemma pairing_url_determines_all_witness :
  sessionId sample_info = sessionId sample_info
  /\ token sample_info = token sample_info
  /\ js "multi" = js "multi" /\ js "nova-3" = js "nova-3".
Proof.
  apply (pairing_url_determines_all sample_info sample_info
           (js "multi") (js "multi") (js "nova-3") (js "nova-3")
           (js "https://voice.paymore.app?s=abc&t=a.b%2Fc&lang=multi&model=nova-3"));
    reflexivity.
Defined.

(** Run without interruption, the parts of [createSession] make the
    function. *)
Lemma createSession_phases (relayBase : jsstring) (env : CreateEnv) (st : Popup) :
  createSession_uninterrupted relayBase env st = createSession relayBase env st.
Proof.
  unfold createSession_uninterrupted, createSession, createSession_start,
    createSession_fetched, createSession_qr.
  destruct (fetch_outcome env) as [|ok code body]; [done|].
  destruct ok; simpl; [|done]. destruct body as [data|]; [|done].
  destruct (pairing_url _ _ _) as [url|]; [|done].
  destruct (qr_outcome env) as [|qr]; [done|].
  by destruct (connectRelay _ _ _).
Qed.

(** X16. [createSession] takes no notice of what happens while it
    awaits.  When End Session is clicked while the QR code is awaited,
    the rest of [createSession] still stores the QR code, opens the
    socket and reports "Waiting for phone...": the component then shows
    a QR code and holds a socket without holding a session.  And whatever
    socket the component holds when that rest runs is replaced without
    being closed. *)
Theorem endSession_during_createSession (relayBase : jsstring) (env : CreateEnv)
    (st : Popup) (code : Z) (data : SessionResponse) (url qr : jsstring) :
  fetch_outcome env = FetchResolved true code (Some data) ->
  pairing_url
    {| sessionId := r_sessionId data; token := r_token data;
       relayUrl := relayUrl_or (r_relayUrl data) relayBase;
       expiresAt := now env + SESSION_TTL_MS |}
    (language st) (model st) = Some url ->
  qr_outcome env = QrResolved qr ->
  ws_constructs env = true ->
  exists u,
    relay_socket_url
      {| sessionId := r_sessionId data; token := r_token data;
         relayUrl := relayUrl_or (r_relayUrl data) relayBase;
         expiresAt := now env + SESSION_TTL_MS |} = Some u
    /\ createSession_ended_meanwhile relayBase env st
       = ({| session := None; qrDataUrl := Some qr; status := WaitingForPhone;
             language := language st; model := model st; preview := [];
             wsRef := Some u |},
          [Fetch (sessions_url relayBase) (language st) (model st);
           GenerateQr url 256]
          ++ match wsRef st with Some old => [CloseWebSocket old] | None => [] end
          ++ [NewWebSocket u])
    /\ ~ paired (createSession_ended_meanwhile relayBase env st).1
    /\ (forall held : Popup,
          createSession_qr
            {| sessionId := r_sessionId data; token := r_token data;
               relayUrl := relayUrl_or (r_relayUrl data) relayBase;
               expiresAt := now env + SESSION_TTL_MS |}
            (qr_outcome env) (ws_constructs env) held
          = (setStatus WaitingForPhone
               (setWsRef (Some u) (setQrDataUrl (Some qr) held)),
             [NewWebSocket u])).
Proof.
  intros Hf Hurl Hq Hws.
  pose proof Hurl as Hinv.
  apply pairing_url_inv in Hinv as (s & t & l & m & _ & Ht & _). simpl in Ht.
  assert (exists u,
            relay_socket_url
              {| sessionId := r_sessionId data; token := r_token data;
                 relayUrl := relayUrl_or (r_relayUrl data) relayBase;
                 expiresAt := now env + SESSION_TTL_MS |} = Some u) as [u Hu].
  { unfold relay_socket_url. simpl. rewrite Ht. simpl. eauto. }
  assert (createSession_ended_meanwhile relayBase env st
          = ({| session := None; qrDataUrl := Some qr; status := WaitingForPhone;
                language := language st; model := model st; preview := [];
                wsRef := Some u |},
             [Fetch (sessions_url relayBase) (language st) (model st);
              GenerateQr url 256]
             ++ match wsRef st with Some old => [CloseWebSocket old] | None => [] end
             ++ [NewWebSocket u])) as Hrun.
  { unfold createSession_ended_meanwhile, createSession_start,
      createSession_fetched, createSession_qr, connectRelay.
    rewrite Hf, Hq, Hws. cbn [negb]. cbn [language model setStatus].
    rewrite Hurl. cbn [endSession]. unfold endSession.
    rewrite Hu. clear. by destruct st as [? ? ? ? ? ? []]. }
  exists u. split; [exact Hu|]. split; [exact Hrun|]. split.
  - rewrite Hrun. unfold paired. simpl. intros Hp. apply Hp; [|done]. by left.
  - intros held. unfold createSession_qr, connectRelay.
    by rewrite Hq, Hws, Hu.
Qed.

Lemma endSession_during_createSession_witness :
  exists u,
    createSession_ended_meanwhile sample_relay_base sample_env initial
    = ({| session := None;
          qrDataUrl := Some (js "data:image/png;base64,AAAA");
          status := WaitingForPhone;
          language := language initial; model := model initial; preview := [];
          wsRef := Some u |},
       [Fetch (sessions_url sample_relay_base) (language initial) (model initial);
        GenerateQr
          (js "https://voice.paymore.app?s=abc&t=a.b.c&lang=en-US&model=gemini-2.5-pro")
          256]
       ++ match wsRef initial with Some old => [CloseWebSocket old] | None => [] end
       ++ [NewWebSocket u])
    /\ ~ paired (createSession_ended_meanwhile sample_relay_base sample_env initial).1.
Proof.
  destruct (endSession_during_createSession sample_relay_base sample_env initial
              201
              {| r_sessionId := js "abc"; r_token := js "a.b.c";
                 r_relayUrl := Some (js "wss://relay.example/") |}
              (js "https://voice.paymore.app?s=abc&t=a.b.c&lang=en-US&model=gemini-2.5-pro")
              (js "data:image/png;base64,AAAA")
              eq_refl eq_refl eq_refl eq_refl)
    as (u & _ & Hrun & Hunpaired & _).
  exists u. split; [exact Hrun|exact Hunpaired].
Defined.

Section Runs.

Context {object : Type}.
Variable object_to_string : object -> option jsstring.
Variable number_to_string : Z -> jsstring.

Local Abbreviation onmessage := (onmessage object_to_string number_to_string).
Local Abbreviation step := (step object_to_string number_to_string).
Local Abbreviation run := (run object_to_string number_to_string).

Lemma onmessage_cells (data : option (Parsed object)) (time : Z)
    (tabs : option (list Tab)) (st : Popup) :
  session (onmessage data time tabs st).1 = session st
  /\ qrDataUrl (onmessage data time tabs st).1 = qrDataUrl st
  /\ status (onmessage data time tabs st).1 = status st
  /\ language (onmessage data time tabs st).1 = language st
  /\ model (onmessage data time tabs st).1 = model st
  /\ wsRef (onmessage data time tabs st).1 = wsRef st.
Proof.
  unfold PhoneMicPopup.onmessage. destruct data as [msg|]; [|done].
  destruct (is_transcript msg); [|done].
  destruct (ToString _ _ _); [|done].
  by destruct (first_tab_id tabs).
Qed.

Lemma onmessage_effects (data : option (Parsed object)) (time : Z)
    (tabs : option (list Tab)) (st : Popup) :
  (onmessage data time tabs st).2 = []
  \/ exists i m, (onmessage data time tabs st).2 = [TabsSendMessage i m]
                 /\ ta_timestampMs m = time
                 /\ first_tab_id tabs = Some i.
Proof.
  unfold PhoneMicPopup.onmessage. destruct data as [msg|]; [|by left].
  destruct (is_transcript msg); [|by left].
  destruct (ToString _ _ _); [|by left].
  destruct (first_tab_id tabs) as [i|]; [|by left].
  right. by eexists _, _.
Qed.

(** X17. A message of the relay changes nothing of the component but the
    preview, and makes it send at most one message, to one tab, stamped
    with the time of its receipt. *)
Theorem onmessage_frame (data : option (Parsed object)) (time : Z)
    (tabs : option (list Tab)) (st : Popup) :
  session (onmessage data time tabs st).1 = session st
  /\ qrDataUrl (onmessage data time tabs st).1 = qrDataUrl st
  /\ status (onmessage data time tabs st).1 = status st
  /\ language (onmessage data time tabs st).1 = language st
  /\ model (onmessage data time tabs st).1 = model st
  /\ wsRef (onmessage data time tabs st).1 = wsRef st
  /\ ((onmessage data time tabs st).2 = []
      \/ exists i m, (onmessage data time tabs st).2 = [TabsSendMessage i m]
                     /\ ta_timestampMs m = time
                     /\ first_tab_id tabs = Some i).
Proof.
  destruct (onmessage_cells data time tabs st) as (H1 & H2 & H3 & H4 & H5 & H6).
  do 6 (split; [done|]). apply onmessage_effects.
Qed.

(** X18. A message that cannot be parsed, is not of type "transcript", or
    whose text cannot be turned into a string is dropped whole: not even
    the preview changes, and nothing is sent. *)
Theorem onmessage_ignores (data : option (Parsed object)) (time : Z)
    (tabs : option (list Tab)) (st : Popup) :
  data = None
  \/ (exists msg, data = Some msg
        /\ (is_transcript msg = false
            \/ ToString object_to_string number_to_string
                 (or_else (get msg "text") (Some (VString []))) = None)) ->
  onmessage data time tabs st = (st, []).
Proof.
  unfold PhoneMicPopup.onmessage.
  intros [-> | (msg & -> & [H|H])]; [done|by rewrite H|].
  destruct (is_transcript msg); [|done]. by rewrite H.
Qed.

Lemma first_tab_id_None (tabs : option (list Tab)) :
  first_tab_id tabs = None <->
  tabs = None \/ tabs = Some []
  \/ exists tab rest, tabs = Some (tab :: rest)
                      /\ (tab_id tab = None \/ tab_id tab = Some 0).
Proof.
  unfold first_tab_id. destruct tabs as [[|tab rest]|].
  - split; [by right; left|done].
  - destruct (tab_id tab) as [i|] eqn:Hi.
    + destruct (Z.eqb_spec i 0) as [->|Hne].
      * split; [intros _|done]. right; right. exists tab, rest. eauto.
      * split; [done|]. intros [|[|(tab' & rest' & [= <- <-] & [H|H])]];
          try done; rewrite Hi in H; congruence.
    + split; [intros _|done]. right; right. exists tab, rest. eauto.
  - split; [by left|done].
Qed.

(** X19. A message of the relay makes the component send nothing exactly
    when the message is dropped (it cannot be parsed, is not of type
    "transcript", or has a text that cannot be turned into a string) or
    the query gives no tabs, an empty list, or a first tab whose id is
    missing or 0.  The preview of a transcript that is not dropped is
    updated whether it is forwarded or not. *)
Theorem onmessage_without_tab (data : option (Parsed object)) (time : Z)
    (tabs : option (list Tab)) (st : Popup) :
  ((onmessage data time tabs st).2 = [] <->
   (data = None
    \/ exists msg, data = Some msg
         /\ (is_transcript msg = false
             \/ ToString object_to_string number_to_string
                  (or_else (get msg "text") (Some (VString []))) = None))
   \/ (tabs = None \/ tabs = Some []
       \/ exists tab rest, tabs = Some (tab :: rest)
                           /\ (tab_id tab = None \/ tab_id tab = Some 0)))
  /\ (forall msg text,
        data = Some msg -> is_transcript msg = true ->
        ToString object_to_string number_to_string
          (or_else (get msg "text") (Some (VString []))) = Some text ->
        preview (onmessage data time tabs st).1
        = if ToBoolean (get msg "interim") then text
          else preview st ++ js (String "010" EmptyString) ++ text).
Proof.
  rewrite <- first_tab_id_None. unfold PhoneMicPopup.onmessage. split.
  - destruct data as [msg|]; [|split; [by left; left|done]].
    destruct (is_transcript msg) eqn:Ht;
      [|split; [left; right; eauto|done]].
    destruct (ToString _ _ _) as [text|] eqn:Hs;
      [|split; [left; right; eauto|done]].
    destruct (first_tab_id tabs) as [i|]; [|split; [by right|done]].
    split; [done|].
    intros [[|(msg' & [= <-] & [|])]|]; congruence.
  - intros msg text -> Ht Hs. rewrite Ht, Hs.
    by destruct (first_tab_id tabs).
Qed.

(** X20. A transcript whose text is missing, null, empty, false or 0 is
    forwarded with the empty string for text, never with "undefined" or
    "null". *)
Theorem onmessage_falsy_text (msg : Parsed object) (time : Z)
    (tabs : option (list Tab)) (st : Popup) (i : Z) :
  is_transcript msg = true ->
  ToBoolean (get msg "text") = false ->
  first_tab_id tabs = Some i ->
  (onmessage (Some msg) time tabs st).2 =
    [TabsSendMessage i {| ta_interim := ToBoolean (get msg "interim");
                          ta_text := []; ta_timestampMs := time |}].
Proof.
  intros Ht Hf Hi. unfold PhoneMicPopup.onmessage, or_else.
  rewrite Ht, Hf. simpl. by rewrite Hi.
Qed.

(** X24. Of the actions of the mounted component only [endSession]
    closes a socket, and it is the one the component holds at that
    moment; ending the session once more closes nothing.  In particular
    [createSession] and the messages of the relay close no socket.  (The
    cleanup that runs when the component is unmounted is no action of
    the mounted component.) *)
Theorem socket_closed_only_by_endSession (st : Popup) (a : Action object)
    (u : jsstring) :
  In (CloseWebSocket u) (step st a).2 ->
  a = EndSession /\ wsRef st = Some u /\ wsRef (step st a).1 = None
  /\ (step (step st a).1 EndSession).2 = [].
Proof.
  destruct a as [rb env| | | | | | |data time tabs]; simpl.
  - intros Hin. exfalso. revert Hin. unfold createSession.
    destruct (fetch_outcome env) as [|ok code body]; [by intros [|[]]|].
    destruct ok; simpl; [|by intros [|[]]].
    destruct body as [data|]; [|by intros [|[]]].
    destruct (pairing_url _ _ _) as [url|]; [|by intros [|[]]].
    destruct (qr_outcome env) as [|qr]; [by intros [|[|[]]]|].
    unfold connectRelay. destruct (relay_socket_url _); [destruct (ws_constructs env)|];
      simpl; intros [|[|H]]; try done; by destruct H.
  - unfold endSession. destruct (wsRef st) as [v|]; simpl; [|done].
    by intros [[= ->]|[]].
  - done.
  - done.
  - done.
  - done.
  - done.
  - intros Hin. exfalso.
    destruct (onmessage_effects data time tabs st) as [E|(i & m & E & _)];
      unfold PhoneMicPopup.step in Hin; rewrite E in Hin;
      [done|by destruct Hin].
Qed.

End Runs.

Lemma socket_closed_only_by_endSession_witness :
  @EndSession Empty_set = EndSession
  /\ wsRef (createSession sample_relay_base sample_env initial).1
     = Some (js "wss://relay.example/s/abc?t=a.b.c")
  /\ wsRef
       (step (fun _ : Empty_set => None) (fun _ => [])
          (createSession sample_relay_base sample_env initial).1 EndSession).1 = None
  /\ (step (fun _ : Empty_set => None) (fun _ => [])
        (step (fun _ : Empty_set => None) (fun _ => [])
           (createSession sample_relay_base sample_env initial).1 EndSession).1
        EndSession).2 = [].
Proof.
  apply (socket_closed_only_by_endSession (fun _ : Empty_set => None) (fun _ => [])
           (createSession sample_relay_base sample_env initial).1 EndSession
           (js "wss://relay.example/s/abc?t=a.b.c")).
  left. reflexivity.
Defined.

Lemma onmessage_ignores_witness :
  onmessage (fun _ : Empty_set => None) (fun _ => []) None 10 sample_tabs initial
  = (initial, []).
Proof.
  apply (onmessage_ignores (fun _ : Empty_set => None) (fun _ => [])
           None 10 sample_tabs initial).
  left. reflexivity.
Defined.

Lemma onmessage_without_tab_witness :
  preview (onmessage (fun _ : Empty_set => None) (fun _ => [])
             (Some sample_message) 10 sample_tab_zero initial).1
  = js "hel"
  /\ (onmessage (fun _ : Empty_set => None) (fun _ => [])
        (Some sample_message) 10 sample_tab_zero initial).2 = [].
Proof.
  destruct (onmessage_without_tab (fun _ : Empty_set => None) (fun _ => [])
              (Some sample_message) 10 sample_tab_zero initial) as [Hsent Hpreview].
  split.
  - exact (Hpreview sample_message (js "hel") eq_refl eq_refl eq_refl).
  - apply Hsent. right. right. right.
    exists {| tab_id := Some 0 |}, []. split; [reflexivity|]. right. reflexivity.
Defined.

Lemma onmessage_falsy_text_witness :
  (onmessage (fun _ : Empty_set => None) (fun _ => [])
     (Some sample_silent_message) 10 sample_tabs initial).2 =
    [TabsSendMessage 7 {| ta_interim := ToBoolean (get sample_silent_message "interim");
                          ta_text := []; ta_timestampMs := 10 |}].
Proof.
  apply (onmessage_falsy_text (fun _ : Empty_set => None) (fun _ => [])
           sample_silent_message 10 sample_tabs initial 7);
    reflexivity.
Defined.

End PhoneMicPopupMore.

(** ** More on the transcript injector *)

Module TranscriptInjectorMore.
Import JS TranscriptInjector TranscriptInjectorFacts Samples MoreSamples.

Lemma firstn_past_prefix (a b c : jsstring) (n : nat) :
  n = length a ->
  firstn (n + length b) (a ++ b ++ c) = a ++ b
  /\ skipn (n + length b) (a ++ b ++ c) = c.
Proof.
  intros ->. rewrite app_assoc, <- length_app. split.
  - by rewrite take_app_length.
  - by rewrite drop_app_length.
Qed.

Section Setter.

Variable engine : InputType -> jsstring -> jsstring.

(** X25. Transcripts add up: when the element leaves what is written to
    it as it is, two messages handled one after the other on a textarea
    or an input with a selection leave the payload of the first followed
    by the payload of the second where the selection was, the caret after
    the second, and one input event each.  An interim text is thus never
    taken back by the text that follows it. *)
Theorem handleTranscriptMessage_twice (m1 m2 : TranscriptMessage) (doc : Document)
    (el : Element) (start end_ : nat) :
  activeElement doc = Some el ->
  has_selection (class el) = true ->
  selectionStart el = Num start -> selectionEnd el = Num end_ ->
  (start <= end_ <= length (value el))%nat ->
  sanitize engine (class el)
    (firstn start (value el) ++ to_insert m1 ++ skipn end_ (value el))
  = firstn start (value el) ++ to_insert m1 ++ skipn end_ (value el) ->
  sanitize engine (class el)
    (firstn start (value el) ++ to_insert m1 ++ to_insert m2
       ++ skipn end_ (value el))
  = firstn start (value el) ++ to_insert m1 ++ to_insert m2
      ++ skipn end_ (value el) ->
  handleTranscriptMessage engine m2 (handleTranscriptMessage engine m1 doc).1 =
    ({| activeElement :=
          Some {| class := class el; contenteditable := contenteditable el;
                  value := firstn start (value el) ++ to_insert m1 ++ to_insert m2
                             ++ skipn end_ (value el);
                  selectionStart := Num (start + length (to_insert m1)
                                         + length (to_insert m2));
                  selectionEnd := Num (start + length (to_insert m1)
                                       + length (to_insert m2)) |};
        log := log doc ++ [InputEvent; InputEvent] |}, Returned).
Proof.
  intros H Hc Hs He Hrange Hfix1 Hfix2. unfold handleTranscriptMessage.
  rewrite (insertAtCaret_text_control engine (to_insert m1) doc el start end_
             H Hc Hs He).
  cbn [fst]. rewrite Hfix1.
  assert (Nat.min (start + length (to_insert m1))
            (length (firstn start (value el) ++ to_insert m1
                       ++ skipn end_ (value el)))
          = (start + length (to_insert m1))%nat) as ->.
  { rewrite !length_app, length_take, length_drop. lia. }
  pose proof (firstn_past_prefix (firstn start (value el)) (to_insert m1)
                (skipn end_ (value el)) start) as [Hf Hd].
  { rewrite length_take. lia. }
  erewrite insertAtCaret_text_control; [|reflexivity|exact Hc|reflexivity..].
  cbn [class contenteditable value log activeElement].
  rewrite Hf, Hd, <- !app_assoc, Hfix2.
  assert (Nat.min (start + length (to_insert m1) + length (to_insert m2))
            (length (firstn start (value el) ++ to_insert m1 ++ to_insert m2
                       ++ skipn end_ (value el)))
          = (start + length (to_insert m1) + length (to_insert m2))%nat) as ->.
  { rewrite !length_app, length_take, length_drop. lia. }
  reflexivity.
Qed.

(** X26. On a focused element that is no input and no textarea the text is
    handed to the editing command exactly when the contenteditable
    attribute reads "" or "true", as written; with any other value of the
    attribute, or without it, nothing is done.  The element itself is
    never written to. *)
Theorem insertAtCaret_contenteditable (t : jsstring) (doc : Document) (el : Element) :
  activeElement doc = Some el ->
  class el = OtherHTMLElement ->
  (contenteditable el = Some [] \/ contenteditable el = Some (js "true") ->
   insertAtCaret engine t doc =
     ({| activeElement := Some el; log := log doc ++ [ExecInsertText t] |}, Returned))
  /\ (contenteditable el <> Some [] -> contenteditable el <> Some (js "true") ->
      insertAtCaret engine t doc = (doc, Returned)).
Proof.
  intros H Hc. unfold insertAtCaret, is_text_control, is_editable.
  rewrite H, Hc, andb_false_r. cbn [orb]. split.
  - intros [-> | ->].
    + by rewrite (bool_decide_eq_true_2 (@nil code_unit = [])).
    + rewrite (bool_decide_eq_true_2 (js "true" = js "true")) by done.
      by rewrite orb_true_r.
  - intros H1 H2. destruct (contenteditable el) as [v|]; [|done].
    rewrite (bool_decide_eq_false_2 (v = [])) by (intros ->; by apply H1).
    rewrite (bool_decide_eq_false_2 (v = js "true")) by (intros ->; by apply H2).
    done.
Qed.

(** X27. On an input to which the selection does not apply (its offsets
    read null) the call that should place the caret is never passed: an
    InvalidStateError leaves [insertAtCaret] and no input event is
    dispatched.  A file input refuses the write itself and stays as it
    was; any other input has by then taken the old value followed by the
    text, as it sanitizes them, which for the types whose value is a
    plain attribute (hidden, checkbox, radio and the buttons) is that
    very string. *)
Theorem insertAtCaret_without_selection (t : jsstring) (doc : Document) (el : Element)
    (type : InputType) :
  activeElement doc = Some el ->
  class el = HTMLInputElement type ->
  selectionStart el = Null -> selectionEnd el = Null ->
  exists el',
    insertAtCaret engine t doc
    = ({| activeElement := Some el'; log := log doc |}, InvalidStateError)
    /\ class el' = class el
    /\ (setter_throws (class el) (value el ++ t) = true -> el' = el)
    /\ (setter_throws (class el) (value el ++ t) = false ->
        value el' = sanitize engine (class el) (value el ++ t))
    /\ (plain_value type = true -> value el' = value el ++ t).
Proof.
  intros H Hc Hs He. unfold insertAtCaret, is_text_control.
  rewrite H, Hc, orb_true_r. unfold set_value, setSelectionRange.
  rewrite Hs, He, Hc. cbn [nullish].
  unfold substring_to, substring_from.
  rewrite firstn_all, skipn_all, app_nil_r.
  destruct (setter_throws (HTMLInputElement type) (value el ++ t)) eqn:Hthrows.
  - exists el. destruct doc as [a l]. simpl in *. subst a.
    repeat split; try done. by destruct type.
  - eexists. split; [reflexivity|]. cbn [class value].
    repeat split; try done. by destruct type.
Qed.

End Setter.

Lemma handleTranscriptMessage_twice_witness :
  handleTranscriptMessage sample_engine {| interim := Some false; text := js "hello" |}
    (handleTranscriptMessage sample_engine {| interim := Some true; text := js "hel" |}
       {| activeElement := Some sample_textarea; log := [] |}).1 =
    ({| activeElement :=
          Some {| class := HTMLTextAreaElement; contenteditable := None;
                  value := js "hellohelhello world";
                  selectionStart := Num 14; selectionEnd := Num 14 |};
        log := [InputEvent; InputEvent] |}, Returned).
Proof.
  apply (handleTranscriptMessage_twice sample_engine
           {| interim := Some true; text := js "hel" |}
           {| interim := Some false; text := js "hello" |}
           {| activeElement := Some sample_textarea; log := [] |}
           sample_textarea 5%nat 6%nat eq_refl eq_refl eq_refl eq_refl);
    [simpl; lia|reflexivity|reflexivity].
Defined.

Lemma insertAtCaret_contenteditable_witness :
  insertAtCaret sample_engine (js "hi")
    {| activeElement := Some (sample_div (Some "true")); log := [] |}
  = ({| activeElement := Some (sample_div (Some "true"));
        log := [ExecInsertText (js "hi")] |}, Returned)
  /\ insertAtCaret sample_engine (js "hi")
       {| activeElement := Some (sample_div (Some "plaintext-only")); log := [] |}
     = ({| activeElement := Some (sample_div (Some "plaintext-only")); log := [] |},
        Returned).
Proof.
  split.
  - apply (proj1 (insertAtCaret_contenteditable sample_engine (js "hi")
                    {| activeElement := Some (sample_div (Some "true")); log := [] |}
                    (sample_div (Some "true")) eq_refl eq_refl)).
    right. reflexivity.
  - apply (proj2 (insertAtCaret_contenteditable sample_engine (js "hi")
                    {| activeElement := Some (sample_div (Some "plaintext-only"));
                       log := [] |}
                    (sample_div (Some "plaintext-only")) eq_refl eq_refl));
      discriminate.
Defined.

Lemma insertAtCaret_without_selection_witness :
  exists el',
    insertAtCaret sample_engine (js "hi")
      {| activeElement := Some sample_checkbox; log := [] |}
    = ({| activeElement := Some el'; log := [] |}, InvalidStateError)
    /\ value el' = js "onhi".
Proof.
  destruct (insertAtCaret_without_selection sample_engine (js "hi")
              {| activeElement := Some sample_checkbox; log := [] |}
              sample_checkbox Checkbox eq_refl eq_refl eq_refl eq_refl)
    as (el' & Hrun & _ & _ & _ & Hplain).
  exists el'. split; [exact Hrun|]. exact (Hplain eq_refl).
Defined.

End TranscriptInjectorMore.
